(** * Slice extraction for Kits19 volumes, and the translation demo

    A shallow embedding of [save_kits19_frames] (data-preparation notebook)
    and of [translate] (machine-translation notebook).

    NumPy's [float64] is IEEE 754 binary64.  It is modelled by the
    Standard Library's [spec_float] at precision 53 and maximal exponent
    1024, so that every arithmetic step of the source (comparison,
    subtraction, division, multiplication, rounding) is the IEEE one and
    can be evaluated. *)

From Stdlib Require Import ZArith Lia Bool List String Ascii.
From Stdlib Require Import Decimal DecimalNat DecimalString.
From Stdlib Require Import Floats.SpecFloat.
From stdpp Require Import base list strings sorting.

Local Open Scope Z_scope.

(** ** Binary64 arithmetic *)

Module F64.

Definition prec : Z := 53.
Definition emax : Z := 1024.

Definition t := spec_float.

Definition sub : t -> t -> t := SFsub prec emax.
Definition mul : t -> t -> t := SFmul prec emax.
Definition div : t -> t -> t := SFdiv prec emax.
Definition ltb : t -> t -> bool := SFltb.
Definition leb : t -> t -> bool := SFleb.
Definition eqb : t -> t -> bool := SFeqb.

(** Python [int] to [float64]: round to nearest, ties to even. *)
Definition of_Z (n : Z) : t := binary_normalize prec emax n 0 false.

Definition zero : t := S754_zero false.
Definition one : t := Eval vm_compute in of_Z 1.
Definition c255 : t := Eval vm_compute in of_Z 255.
Definition nan : t := S754_nan.
Definition pinf : t := S754_infinity false.

(** The values of [spec_float] that are binary64 numbers: mantissa and
    exponent in canonical form and in range.  What is proved below holds
    for every [spec_float], these included. *)
Definition valid (x : t) : bool := valid_binary prec emax x.

Definition is_nan (x : t) : bool :=
  match x with S754_nan => true | _ => false end.

Definition is_finite (x : t) : bool :=
  match x with
  | S754_zero _ | S754_finite _ _ _ => true
  | _ => false
  end.

Definition is_zero (x : t) : bool :=
  match x with S754_zero _ => true | _ => false end.

(** Integer part, rounding toward zero (the C conversion). *)
Definition trunc (x : t) : Z :=
  match x with
  | S754_finite s m e =>
      let a := match e with
               | Z0 => Zpos m
               | Zpos p => Z.shiftl (Zpos m) (Zpos p)
               | Zneg p => Z.shiftr (Zpos m) (Zpos p)
               end in
      if s then - a else a
  | _ => 0
  end.

End F64.


(** ** The part of NumPy the notebook uses *)

Module Np.

(** A C-ordered three-dimensional [float64] array, as [get_fdata]
    returns it: the shape tuple and the flat buffer. *)
Record ndarray3 := { shape : nat * nat * nat; voxels : list F64.t }.

(** A two-dimensional array: one element of the iteration over a
    volume, or the result of an element-wise operation on it. *)
Record frame (A : Type) := { fshape : nat * nat; pixels : list A }.
Arguments fshape {A} _.
Arguments pixels {A} _.
Arguments Build_frame {A} _ _.

Definition depth (a : ndarray3) : nat := fst (fst (shape a)).
Definition height (a : ndarray3) : nat := snd (fst (shape a)).
Definition width (a : ndarray3) : nat := snd (shape a).

(** The invariant NumPy maintains between shape and buffer. *)
Definition well_formed (a : ndarray3) : Prop :=
  length (voxels a) = (depth a * height a * width a)%nat.

(** [a[i]] *)
Definition slice (a : ndarray3) (i : nat) : frame F64.t :=
  let n := (height a * width a)%nat in
  {| fshape := (height a, width a);
     pixels := take n (drop (i * n) (voxels a)) |}.

(** Iterating over a volume yields [a[0]], ..., [a[shape[0]-1]]. *)
Definition iter (a : ndarray3) : list (frame F64.t) :=
  map (slice a) (seq 0 (depth a)).

(** Element-wise update of the buffer, shape unchanged. *)
Definition map_voxels (f : F64.t -> F64.t) (a : ndarray3) : ndarray3 :=
  {| shape := shape a; voxels := map f (voxels a) |}.

Definition map_pixels {A B} (f : A -> B) (fr : frame A) : frame B :=
  {| fshape := fshape fr; pixels := map f (pixels fr) |}.

(** [a[a > t] = c] *)
Definition assign_where_gt (t c : F64.t) : ndarray3 -> ndarray3 :=
  map_voxels (fun v => if F64.ltb t v then c else v).

(** [a[a < t] = c] *)
Definition assign_where_lt (t c : F64.t) : ndarray3 -> ndarray3 :=
  map_voxels (fun v => if F64.ltb v t then c else v).

(** One step of the [minimum] and [maximum] reductions: the
    accumulator is kept when it compares [<=] (resp. [>=]) to the next
    element or is NaN, so that a NaN anywhere reaches the result. *)
Definition min_step (acc x : F64.t) : F64.t :=
  if F64.leb acc x || F64.is_nan acc then acc else x.
Definition max_step (acc x : F64.t) : F64.t :=
  if F64.leb x acc || F64.is_nan acc then acc else x.

(** [astype(np.uint8)] on one element: the C conversion truncates
    toward zero; the eight low bits are kept.  NaN and the infinities,
    for which C leaves the conversion undefined, are taken to 0. *)
Definition astype_uint8 (x : F64.t) : Z := F64.trunc x mod 256.

End Np.

Import Np.

(** ** Paths *)

Definition path := list string.

Definition parent (p : path) : path := removelast p.
Definition name (p : path) : string := List.last p EmptyString.
Definition joinpath (p : path) (c : string) : path := p ++ [c].
Infix "//" := joinpath (at level 40, left associativity).

(** [str(p)] for an absolute path. *)
Definition path_str (p : path) : string :=
  fold_right (fun c acc => String.append "/" (String.append c acc)) EmptyString p.

(** ** Exceptions and the file system *)

Inductive exn :=
| AssertionError (msg : string)
| ValueError (msg : string)
| FileNotFoundError (p : path)
| FileExistsError (p : path)
| ImageFileError (p : path).

(** What [cv2.imwrite] is handed: the frame of 8-bit pixels computed for
    the image, or the [float64] frame of the mask. *)
Inductive mat :=
| Mat_u8 (fr : frame Z)
| Mat_f64 (fr : frame F64.t).

Record world := {
  nifti_files : list (path * ndarray3);  (* each file with what get_fdata decodes *)
  directories : list path;
  written : list (path * mat)            (* the imwrite calls, oldest first *)
}.

Definition result (A : Type) : Type := exn + A.

(** Computations that read and change the file system and may raise.  The
    changes made before an exception stay. *)
Definition M (A : Type) : Type := world -> result A * world.

Definition ret {A} (a : A) : M A := fun w => (inr a, w).
Definition raise {A} (e : exn) : M A := fun w => (inl e, w).
Definition bind {A B} (m : M A) (k : A -> M B) : M B :=
  fun w => match m w with
           | (inl e, w1) => (inl e, w1)
           | (inr a, w1) => k a w1
           end.

Notation "x <~ c ;; k" := (bind c (fun x => k))
  (at level 100, c at next level, right associativity).
Notation "c ;;; k" := (bind c (fun _ => k))
  (at level 100, right associativity).

Definition lift {A} (r : result A) : M A := fun w => (r, w).

Definition assert_ (c : bool) (msg : string) : M unit :=
  if c then ret tt else raise (AssertionError msg).

Definition path_eqb (p q : path) : bool := bool_decide (p = q).

Definition is_dir (p : path) (w : world) : bool :=
  existsb (path_eqb p) (directories w).

Definition is_file (p : path) (w : world) : bool :=
  existsb (fun e => path_eqb p (fst e)) (nifti_files w)
  || existsb (fun e => path_eqb p (fst e)) (written w).

(** [p.exists()] *)
Definition exists_ (p : path) : M bool :=
  fun w => (inr (is_dir p w || is_file p w), w).

(** [p.mkdir(exist_ok=True)]: the parent has to be there already. *)
Definition mkdir (p : path) : M unit :=
  fun w =>
    if is_dir p w then (inr tt, w)
    else if is_file p w then (inl (FileExistsError p), w)
    else if is_dir (parent p) w then
      (inr tt, {| nifti_files := nifti_files w;
                  directories := directories w ++ [p];
                  written := written w |})
    else (inl (FileNotFoundError p), w).

(** [p.with_name(n)] *)
Definition with_name (p : path) (n : string) : result path :=
  match p with
  | [] => inl (ValueError "path has an empty name")
  | _ => inr (parent p // n)
  end.

(** The array stored in the NIfTI file at [p], if there is one. *)
Definition lookup_nifti (p : path) (w : world) : option ndarray3 :=
  option_map snd (List.find (fun e => path_eqb p (fst e)) (nifti_files w)).

(** [nib.load(p).get_fdata()].  The world holds each file as the array
    that [get_fdata] decodes from it.  A file without voxels is decoded to
    an array of no element, which is held as an array without slices. *)
Definition nib_load (p : path) : M ndarray3 :=
  fun w =>
    match lookup_nifti p w with
    | Some a => (inr a, w)
    | None => (inl (if is_dir p w || is_file p w
                    then ImageFileError p else FileNotFoundError p), w)
    end.

Definition add_written (w : world) (l : list (path * mat)) : world :=
  {| nifti_files := nifti_files w;
     directories := directories w;
     written := written w ++ l |}.

(** [cv2.imwrite(str(p), m)] *)
Definition imwrite (p : path) (m : mat) : M unit :=
  fun w => (inr tt, add_written w [(p, m)]).

(** ** Formatting of the slice index *)

(** [str(i)] for a non-negative [i]. *)
Definition decimal (i : nat) : string := NilEmpty.string_of_uint (Nat.to_uint i).

Fixpoint zeros (n : nat) : string :=
  match n with
  | O => EmptyString
  | S n' => String "0" (zeros n')
  end.

(** [f"{i:04d}"]: at least four digits, zeros added on the left. *)
Definition format_04d (i : nat) : string :=
  let s := decimal i in
  String.append (zeros (4 - String.length s)) s.

(** ** The slice extractor *)

Definition frame_min (fr : frame F64.t) : result F64.t :=
  match pixels fr with
  | [] => inl (ValueError "zero-size array to reduction operation minimum which has no identity")
  | x :: l => inr (fold_left min_step l x)
  end.

Definition frame_max (fr : frame F64.t) : result F64.t :=
  match pixels fr with
  | [] => inl (ValueError "zero-size array to reduction operation maximum which has no identity")
  | x :: l => inr (fold_left max_step l x)
  end.

Definition frame_file_name (case : string) (i : nat) (ext : string) : string :=
  String.append case (String.append "_" (String.append (format_04d i) ext)).

(** The body of the loop over [enumerate(zip(mask_data, image_data))]. *)
Definition save_frame (case : string) (image_directory mask_directory : path)
    (i : nat) (frames : frame F64.t * frame F64.t) : M unit :=
  let '(mask_frame, image_frame) := frames in
  lo <~ lift (frame_min image_frame) ;;
  let numerator := map_pixels (fun v => F64.sub v lo) image_frame in
  hi <~ lift (frame_max image_frame) ;;
  lo' <~ lift (frame_min image_frame) ;;
  let denominator := F64.sub hi lo' in
  let image_frame := map_pixels (fun v => F64.div v denominator) numerator in
  let image_frame := map_pixels (fun v => F64.mul v F64.c255) image_frame in
  let image_frame := map_pixels astype_uint8 image_frame in
  let new_image_path := image_directory // frame_file_name case i ".jpg" in
  let new_mask_path := mask_directory // frame_file_name case i ".png" in
  imwrite new_image_path (Mat_u8 image_frame) ;;;
  imwrite new_mask_path (Mat_f64 mask_frame).

(** [for i, x in enumerate(l, start): body(i, x)] *)
Fixpoint for_enumerate {A} (body : nat -> A -> M unit) (start : nat) (l : list A) : M unit :=
  match l with
  | [] => ret tt
  | x :: l' => body start x ;;; for_enumerate body (S start) l'
  end.

(** The block under [if make_binary:]. *)
Definition binarize (make_binary : bool) (mask_data : ndarray3) : ndarray3 :=
  if make_binary then assign_where_gt F64.zero F64.one mask_data else mask_data.

(** The block under [if window_level is not None:]. *)
Definition apply_window (window_level : option (F64.t * F64.t))
    (image_data : ndarray3) : ndarray3 :=
  match window_level with
  | Some (window_start, window_end) =>
      assign_where_gt window_end window_end
        (assign_where_lt window_start window_start image_data)
  | None => image_data
  end.

(** The two output directories of a case. *)
Definition image_directory (mask_path root_dir : path) : path :=
  root_dir // name (parent mask_path) // "imaging_frames".
Definition mask_directory (mask_path root_dir : path) : path :=
  root_dir // name (parent mask_path) // "segmentation_frames".

(** [save_kits19_frames].  A window level is given with its two bounds
    already as [float64], which is what the comparison with the array
    and the assignment into it make of them.  The timing and the final
    [print] have no effect on the files and are left out. *)
Definition save_kits19_frames (mask_path root_dir : path)
    (window_level : option (F64.t * F64.t)) (make_binary : bool) : M unit :=
  mkdir root_dir ;;;
  image_path <~ lift (with_name mask_path "imaging.nii.gz") ;;
  mask_exists <~ exists_ mask_path ;;
  assert_ mask_exists
    (String.append "mask_path " (String.append (path_str mask_path) " does not exist!")) ;;;
  image_exists <~ exists_ image_path ;;
  assert_ image_exists
    (String.append "image_path " (String.append (path_str image_path) " does not exist!")) ;;;
  mask_data <~ nib_load mask_path ;;
  image_data <~ nib_load image_path ;;
  assert_ (bool_decide (shape mask_data = shape image_data))
    (String.append "Mask and image shape of "
       (String.append (path_str mask_path) " are not equal")) ;;;
  let mask_data := binarize make_binary mask_data in
  let image_data := apply_window window_level image_data in
  let case := name (parent mask_path) in
  let image_directory := image_directory mask_path root_dir in
  let mask_directory := mask_directory mask_path root_dir in
  mkdir (parent image_directory) ;;;
  mkdir image_directory ;;;
  mkdir mask_directory ;;;
  for_enumerate (save_frame case image_directory mask_directory) 0
    (zip (iter mask_data) (iter image_data)).

(** ** What a run writes *)

(** The frame the loop body computes from [image_frame], given the
    results of its [min()] and [max()]. *)
Definition rescale (lo hi : F64.t) (image_frame : frame F64.t) : frame Z :=
  map_pixels
    (fun v => astype_uint8 (F64.mul (F64.div (F64.sub v lo) (F64.sub hi lo)) F64.c255))
    image_frame.

Definition rescale_frame (image_frame : frame F64.t) : frame Z :=
  match frame_min image_frame, frame_max image_frame with
  | inr lo, inr hi => rescale lo hi image_frame
  | _, _ => map_pixels astype_uint8 image_frame
  end.

Definition new_image_path (mask_path root_dir : path) (i : nat) : path :=
  image_directory mask_path root_dir // frame_file_name (name (parent mask_path)) i ".jpg".
Definition new_mask_path (mask_path root_dir : path) (i : nat) : path :=
  mask_directory mask_path root_dir // frame_file_name (name (parent mask_path)) i ".png".

(** The [imwrite] calls of the iterations over [l], numbered from [start]. *)
Fixpoint frame_writes (mask_path root_dir : path) (start : nat)
    (l : list (frame F64.t * frame F64.t)) : list (path * mat) :=
  match l with
  | [] => []
  | (mask_frame, image_frame) :: l' =>
      (new_image_path mask_path root_dir start, Mat_u8 (rescale_frame image_frame))
      :: (new_mask_path mask_path root_dir start, Mat_f64 mask_frame)
      :: frame_writes mask_path root_dir (S start) l'
  end.

(** An iteration whose image slice has at least one pixel. *)
Definition nonempty (frames : frame F64.t * frame F64.t) : Prop :=
  pixels (snd frames) <> [].

(** No pixel is NaN. *)
Definition no_nan (l : list F64.t) : Prop := Forall (fun p => F64.is_nan p = false) l.

(** The calls a run added to those of the world it started in. *)
Definition new_writes (w w' : world) : list (path * mat) :=
  drop (length (written w)) (written w').

Definition is_image_frame (mask_path root_dir : path) (e : path * mat) : bool :=
  path_eqb (parent (fst e)) (image_directory mask_path root_dir).
Definition is_mask_frame (mask_path root_dir : path) (e : path * mat) : bool :=
  path_eqb (parent (fst e)) (mask_directory mask_path root_dir).

(** ** A small case to run *)

Module Demo.

Definition f (n : Z) : F64.t := F64.of_Z n.

Definition mask_path : path := ["data"; "case_00002"; "segmentation.nii.gz"].
Definition image_path : path := ["data"; "case_00002"; "imaging.nii.gz"].
Definition root_dir : path := ["kits19_frames"].

(** Two slices of one row and three columns. *)
Definition image : ndarray3 :=
  {| shape := (2, 1, 3)%nat;
     voxels := [f (-1000); f 50; f 400; f 7; f 7; f 7] |}.
Definition mask : ndarray3 :=
  {| shape := (2, 1, 3)%nat;
     voxels := [f 0; f 1; f 2; f 0; f 0; f 1] |}.

Definition w0 : world :=
  {| nifti_files := [(mask_path, mask); (image_path, image)];
     directories := [[]; ["data"]; ["data"; "case_00002"]];
     written := [] |}.

Definition window : option (F64.t * F64.t) := Some (f (-125), f 225).

(** The same case with an image volume of one slice only. *)
Definition image_short : ndarray3 :=
  {| shape := (1, 1, 3)%nat; voxels := [f (-1000); f 50; f 400] |}.

Definition w_mismatch : world :=
  {| nifti_files := [(mask_path, mask); (image_path, image_short)];
     directories := [[]; ["data"]; ["data"; "case_00002"]];
     written := [] |}.

(** The same case with a label below zero in the first slice. *)
Definition mask_negative : ndarray3 :=
  {| shape := (2, 1, 3)%nat;
     voxels := [f (-1); f 1; f 2; f 0; f 0; f 1] |}.

Definition w_negative : world :=
  {| nifti_files := [(mask_path, mask_negative); (image_path, image)];
     directories := [[]; ["data"]; ["data"; "case_00002"]];
     written := [] |}.

(** A slice whose pixels are all 7, and one whose pixels are all
    [+inf]. *)
Definition flat_frame : frame F64.t :=
  {| fshape := (1, 3)%nat; pixels := [f 7; f 7; f 7] |}.

Definition infinite_frame : frame F64.t :=
  {| fshape := (1, 2)%nat; pixels := [F64.pinf; F64.pinf] |}.

End Demo.

(** ** The translation demo *)

Module Translate.

(** A Python [str]: its code points. *)
Definition str := list N.

Definition lit (s : string) : str := map N_of_ascii (list_ascii_of_string s).

(** The code points [str.strip] and [str.split] take for white space. *)
Definition isspace (c : N) : bool :=
  ((9 <=? c) && (c <=? 13) || (28 <=? c) && (c <=? 32)
   || (c =? 133) || (c =? 160) || (c =? 5760)
   || (8192 <=? c) && (c <=? 8202) || (c =? 8232) || (c =? 8233)
   || (c =? 8239) || (c =? 8287) || (c =? 12288))%N.

Fixpoint lstrip (s : str) : str :=
  match s with
  | c :: s' => if isspace c then lstrip s' else s
  | [] => []
  end.

Definition rstrip (s : str) : str := rev (lstrip (rev s)).

Definition strip (s : str) : str := rstrip (lstrip s).

Fixpoint startswith (pat s : str) : bool :=
  match pat, s with
  | [], _ => true
  | p :: pat', c :: s' => (p =? c)%N && startswith pat' s'
  | _ :: _, [] => false
  end.

(** [s.replace(pat, '')] for a non-empty [pat]; [skip] counts the code
    points of a match that are still to be dropped. *)
Fixpoint remove_from (pat : str) (skip : nat) (s : str) : str :=
  match s with
  | [] => []
  | c :: s' =>
      match skip with
      | S k => remove_from pat k s'
      | O => if startswith pat s
             then remove_from pat (length pat - 1) s'
             else c :: remove_from pat O s'
      end
  end.

Definition remove_all (pat s : str) : str := remove_from pat O s.

(** [s.split()]; [cur] is the word being read, last code point first. *)
Fixpoint split_from (cur : str) (s : str) : list str :=
  match s with
  | [] => match cur with [] => [] | _ => [rev cur] end
  | c :: s' =>
      if isspace c
      then match cur with
           | [] => split_from [] s'
           | _ => rev cur :: split_from [] s'
           end
      else split_from (c :: cur) s'
  end.

Definition split (s : str) : list str := split_from [] s.

(** The keys of [itertools.groupby]: one for each run of equal words. *)
Fixpoint groupby_keys (l : list str) : list str :=
  match l with
  | a :: l' =>
      match l' with
      | b :: _ => if bool_decide (a = b) then groupby_keys l' else a :: groupby_keys l'
      | [] => [a]
      end
  | [] => []
  end.

Fixpoint join (sep : str) (l : list str) : str :=
  match l with
  | [] => []
  | [a] => a
  | a :: l' => a ++ sep ++ join sep l'
  end.

(** The calls made to the tokenizers and to the inference request. *)
Inductive call :=
| Encode (sentence : str)
| TokenToId (token : str)
| Infer (tokens : list Z)
| Decode (ids : list Z).

(** Computations that call the runtime and may raise. *)
Definition T (A : Type) : Type := list call -> result A * list call.

Definition tret {A} (a : A) : T A := fun log => (inr a, log).
Definition tbind {A B} (m : T A) (k : A -> T B) : T B :=
  fun log => match m log with
             | (inl e, log1) => (inl e, log1)
             | (inr a, log1) => k a log1
             end.
Definition tassert (c : bool) (msg : string) : T unit :=
  fun log => (if c then inr tt else inl (AssertionError msg), log).
Definition calling {A} (c : call) (answer : A) : T A :=
  fun log => (inr answer, log ++ [c]).

Notation "x <- c ; k" := (tbind c (fun x => k))
  (at level 100, c at next level, right associativity).

Section Runtime.

(** The tokenizers, the compiled model and the Unicode case table are
    not part of the notebook: what they answer is left open. *)
Variable src_encode : str -> list Z.
Variable src_token_to_id : str -> Z.
Variable max_tokens : nat.
Variable infer : list Z -> list Z.
Variable tgt_decode : list Z -> str.
Variable lower : str -> str.

Definition translate (sentence : str) : T str :=
  let sentence := strip sentence in
  _ <- tassert (0 <? length sentence)%nat EmptyString ;
  tokens <- calling (Encode sentence) (src_encode sentence) ;
  bos <- calling (TokenToId (lit "<s>")) (src_token_to_id (lit "<s>")) ;
  eos <- calling (TokenToId (lit "</s>")) (src_token_to_id (lit "</s>")) ;
  let tokens := [bos] ++ tokens ++ [eos] in
  let pad_length := (Z.of_nat max_tokens - Z.of_nat (length tokens))%Z in
  tokens <- (if (0 <? pad_length)%Z
             then pad <- calling (TokenToId (lit "<pad>")) (src_token_to_id (lit "<pad>")) ;
                  tret (tokens ++ repeat pad (Z.to_nat pad_length))
             else tret tokens) ;
  _ <- tassert (length tokens =? max_tokens)%nat "input sentence is too long" ;
  enc_translated <- calling (Infer tokens) (infer tokens) ;
  sentence <- calling (Decode enc_translated) (tgt_decode enc_translated) ;
  let sentence :=
    fold_left (fun acc s => remove_all s acc)
      [lit "</s>"; lit "<s>"; lit "<pad>"] sentence in
  let words := split (lower sentence) in
  tret (join (lit " ") (groupby_keys words)).

End Runtime.

End Translate.

(** ** The rest of the translation notebook *)

Module Console.

Import Translate.

(** The loop of [for s in ['</s>', '<s>', '<pad>']] in [translate]. *)
Definition remove_special_tokens (sentence : str) : str :=
  fold_left (fun acc s => remove_all s acc) [lit "</s>"; lit "<s>"; lit "<pad>"] sentence.

(** A word as [split] returns them: not empty, no white space in it. *)
Definition word (w : str) : Prop := w <> [] /\ Forall (fun c => isspace c = false) w.

(** No two neighbours of the list are equal. *)
Fixpoint no_repeat (l : list str) : Prop :=
  match l with
  | a :: l' => match l' with b :: _ => a <> b | [] => True end /\ no_repeat l'
  | [] => True
  end.

(** What ends [run_translator] other than the empty line: the end of
    the input, met by [input()], or an exception out of [translate]. *)
Inductive raised :=
| EOFError
| Raised (e : exn).

(** The two lines printed for a sentence; the time that the second one
    shows is a measurement and is left open. *)
Inductive printed :=
| Translated (translated : str)
| Time.

Record console := {
  stdin : list str;        (* the lines still to be read, without their newline *)
  stdout : list printed;
  calls : list call
}.

Section Loop.

Variable src_encode : str -> list Z.
Variable src_token_to_id : str -> Z.
Variable max_tokens : nat.
Variable infer : list Z -> list Z.
Variable tgt_decode : list Z -> str.
Variable lower : str -> str.

(** [run_translator]: each turn of [while True] reads one line. *)
Fixpoint run_translator (stdin : list str) (stdout : list printed) (log : list call)
    : (raised + unit) * console :=
  match stdin with
  | [] => (inl EOFError, {| stdin := []; stdout := stdout; calls := log |})
  | input_sentence :: rest =>
      match input_sentence with
      | [] => (inr tt, {| stdin := rest; stdout := stdout; calls := log |})
      | _ =>
          match translate src_encode src_token_to_id max_tokens infer tgt_decode lower
                  input_sentence log with
          | (inl e, log') =>
              (inl (Raised e), {| stdin := rest; stdout := stdout; calls := log' |})
          | (inr translated, log') =>
              run_translator rest (stdout ++ [Translated translated; Time]) log'
          end
      end
  end.

(** The outcome of [translate] and the calls it makes, from an empty
    log. *)
Definition outcome (sentence : str) : result str :=
  fst (translate src_encode src_token_to_id max_tokens infer tgt_decode lower sentence []).
Definition calls_of (sentence : str) : list call :=
  snd (translate src_encode src_token_to_id max_tokens infer tgt_decode lower sentence []).

(** A line that [run_translator] translates and goes on after. *)
Definition translatable (sentence : str) : Prop :=
  sentence <> [] /\ exists translated, outcome sentence = inr translated.

Definition prints_of (sentence : str) : list printed :=
  match outcome sentence with
  | inr translated => [Translated translated; Time]
  | inl _ => []
  end.

End Loop.

End Console.

(** ** The cells that pick a slice and a class *)

Module Pick.

(** [np.count_nonzero] of a slice: the pixels that do not compare equal
    to 0 (a NaN is counted, a negative zero is not). *)
Definition count_nonzero (fr : frame F64.t) : nat :=
  length (List.filter (fun v => negb (F64.eqb v F64.zero)) (pixels fr)).

(** [np.argmax] of a list of counts: the first index of the greatest. *)
Fixpoint argmax_from (best_index best i : nat) (l : list nat) : nat :=
  match l with
  | [] => best_index
  | x :: l' =>
      if (best <? x)%nat then argmax_from i x (S i) l'
      else argmax_from best_index best (S i) l'
  end.

Definition argmax (l : list nat) : result nat :=
  match l with
  | [] => inl (ValueError "attempt to get argmax of an empty sequence")
  | x :: l' => inr (argmax_from 0 x 1 l')
  end.

(** [z = np.argmax([np.count_nonzero(item) for item in mask_data])] *)
Definition most_labelled_slice (mask_data : ndarray3) : result nat :=
  argmax (map count_nonzero (iter mask_data)).

(** [np.argmax] of an array of scores: the running maximum is replaced
    by an element that is not [<=] to it, and the scan stops at a NaN,
    which counts as the greatest. *)
Fixpoint argmax_scores_from (best_index : nat) (best : F64.t) (i : nat)
    (l : list F64.t) : nat :=
  match l with
  | [] => best_index
  | x :: l' =>
      if negb (F64.leb x best)
      then if F64.is_nan x then i else argmax_scores_from i x (S i) l'
      else argmax_scores_from best_index best (S i) l'
  end.

Definition argmax_scores (l : list F64.t) : result nat :=
  match l with
  | [] => inl (ValueError "attempt to get argmax of an empty sequence")
  | x :: l' => inr (if F64.is_nan x then 0%nat else argmax_scores_from 0 x 1 l')
  end.

Inductive lookup_error :=
| Argmax (e : exn)
| IndexError (msg : string).

(** The last two cells of the classification notebook: the index of the
    best score, looked up in the class names with ['background'] put in
    front.  The scores are compared as the numbers they are, which for
    [float32] values is the comparison of [float64]. *)
Definition class_name (result_infer : list F64.t) (lines : list string)
    : lookup_error + string :=
  match argmax_scores result_infer with
  | inl e => inl (Argmax e)
  | inr result_index =>
      let imagenet_classes := ["background"%string] ++ lines in
      match imagenet_classes !! result_index with
      | Some c => inr c
      | None => inl (IndexError "list index out of range")
      end
  end.

End Pick.

(** ** The cell that converts every case *)

Module Driver.

(** The order of [Path] objects: that of their lists of parts, each
    part compared as a string. *)
Fixpoint path_compare (p q : path) : comparison :=
  match p, q with
  | [], [] => Eq
  | [], _ :: _ => Lt
  | _ :: _, [] => Gt
  | a :: p', b :: q' =>
      match String.compare a b with
      | Eq => path_compare p' q'
      | ne => ne
      end
  end.

Definition path_leb (p q : path) : bool :=
  match path_compare p q with Gt => false | _ => true end.

Definition path_le (p q : path) : Prop := path_leb p q = true.

#[global] Instance path_le_dec : RelDecision path_le :=
  fun p q => decide (path_leb p q = true).

(** [sorted(paths)] *)
Definition sorted (paths : list path) : list path := merge_sort path_le paths.

Definition path_eq_dec (p q : path) : {p = q} + {p <> q} := decide (p = q).

(** The directories directly under the directory [nifti_path] whose
    name matches [case_*]. *)
Definition case_directories (nifti_path : path) (w : world) : list path :=
  if is_dir nifti_path w
  then List.filter
         (fun d => negb (path_eqb d []) && path_eqb (parent d) nifti_path
                   && String.prefix "case_" (name d))
         (nodup path_eq_dec (directories w))
  else [].

(** [nifti_path.glob("case_*/segmentation.nii.gz")], in the order in
    which the directories are listed. *)
Definition glob_segmentations (nifti_path : path) (w : world) : list path :=
  List.filter (fun p => is_dir p w || is_file p w)
    (map (fun d => d // "segmentation.nii.gz") (case_directories nifti_path w)).

(** [for x in l: body(x)] *)
Fixpoint for_each {A} (body : A -> M unit) (l : list A) : M unit :=
  match l with
  | [] => ret tt
  | x :: l' => body x ;;; for_each body l'
  end.

(** The soft-tissue window [(-125, 225)]. *)
Definition soft_tissue : option (F64.t * F64.t) := Some (F64.of_Z (-125), F64.of_Z 225).

(** The loop of the cell over [mask_paths]. *)
Definition convert_cases (mask_paths : list path) (frames_dir : path) : M unit :=
  for_each
    (fun mask_path => save_kits19_frames mask_path frames_dir soft_tissue true)
    mask_paths.

(** The cell: the sorted segmentation files under [nifti_path], each
    converted into [frames_dir]. *)
Definition convert_all (nifti_path frames_dir : path) : M unit :=
  fun w => convert_cases (sorted (glob_segmentations nifti_path w)) frames_dir w.

(** The write calls of the case at [mask_path], from the volumes that
    [w] holds for it. *)
Definition case_writes (w : world) (frames_dir mask_path : path) : list (path * mat) :=
  match lookup_nifti mask_path w,
        lookup_nifti (parent mask_path // "imaging.nii.gz") w with
  | Some mask_data, Some image_data =>
      frame_writes mask_path frames_dir 0
        (zip (iter (binarize true mask_data)) (iter (apply_window soft_tissue image_data)))
  | _, _ => []
  end.

End Driver.

(** Two cases, the second with one slice, and a directory that is not a
    case. *)
Module Cohort.

Definition seg2 : path := ["data"; "case_00002"; "segmentation.nii.gz"].
Definition seg10 : path := ["data"; "case_00010"; "segmentation.nii.gz"].

Definition small : ndarray3 :=
  {| shape := (1, 1, 2)%nat; voxels := [Demo.f 3; Demo.f 90] |}.
Definition small_mask : ndarray3 :=
  {| shape := (1, 1, 2)%nat; voxels := [Demo.f 0; Demo.f 2] |}.

Definition w : world :=
  {| nifti_files :=
       [(seg10, small_mask); (["data"; "case_00010"; "imaging.nii.gz"], small);
        (seg2, Demo.mask); (["data"; "case_00002"; "imaging.nii.gz"], Demo.image)];
     directories :=
       [[]; ["data"]; ["data"; "case_00010"]; ["data"; "notes"]; ["data"; "case_00002"]];
     written := [] |}.

(** The same with the image of the second case replaced by one of
    another shape. *)
Definition w_bad : world :=
  {| nifti_files :=
       [(seg10, small_mask); (["data"; "case_00010"; "imaging.nii.gz"], Demo.image);
        (seg2, Demo.mask); (["data"; "case_00002"; "imaging.nii.gz"], Demo.image)];
     directories :=
       [[]; ["data"]; ["data"; "case_00010"]; ["data"; "notes"]; ["data"; "case_00002"]];
     written := [] |}.

End Cohort.

(** ** A runtime to run the loop with *)

Module Chat.

Import Translate Console.

(** Tokens are code points, and the model answers the same German
    sentence whatever it is given. *)
Definition src_encode (s : str) : list Z := map Z.of_N s.
Definition src_token_to_id (_ : str) : Z := 0.
Definition max_tokens : nat := 8.
Definition infer (tokens : list Z) : list Z := tokens.
Definition tgt_decode (_ : list Z) : str := lit "<s> guten guten tag</s><pad>".
Definition lower (s : str) : str := s.

Definition run := run_translator src_encode src_token_to_id max_tokens infer tgt_decode lower.
End Chat.

(** ** More small cases *)

Module Cases.

(** The demo case without its image volume. *)
Definition w_no_image : world :=
  {| nifti_files := [(Demo.mask_path, Demo.mask)];
     directories := [[]; ["data"]; ["data"; "case_00002"]];
     written := [] |}.

(** What a file without voxels decodes to: no slice. *)
Definition no_voxels : ndarray3 := {| shape := (0, 0, 0)%nat; voxels := [] |}.

Definition w_no_voxels : world :=
  {| nifti_files := [(Demo.mask_path, no_voxels); (Demo.image_path, no_voxels)];
     directories := [[]; ["data"]; ["data"; "case_00002"]];
     written := [] |}.

(** The demo image with a NaN in its first slice. *)
Definition image_nan : ndarray3 :=
  {| shape := (2, 1, 3)%nat;
     voxels := [Demo.f (-1000); F64.nan; Demo.f 400; Demo.f 7; Demo.f 7; Demo.f 7] |}.

Definition w_nan : world :=
  {| nifti_files := [(Demo.mask_path, Demo.mask); (Demo.image_path, image_nan)];
     directories := [[]; ["data"]; ["data"; "case_00002"]];
     written := [] |}.

End Cases.

(** ** What a run may change *)

(** From [w] to [w']: the NIfTI files are the same, every directory is
    still there, and the write calls added all satisfy [P]. *)
Definition grows (P : path * mat -> Prop) (w w' : world) : Prop :=
  nifti_files w' = nifti_files w
  /\ (forall q, is_dir q w = true -> is_dir q w' = true)
  /\ exists new, written w' = written w ++ new /\ Forall P new.

(** A write into one of the two directories of the case. *)
Definition in_case_directories (mask_path root_dir : path) (e : path * mat) : Prop :=
  parent (fst e) = image_directory mask_path root_dir
  \/ parent (fst e) = mask_directory mask_path root_dir.

(** * Properties *)

(** The volumes and frames of the small case hold binary64 numbers. *)
Example demo_values_valid :
  forallb F64.valid
    (voxels Demo.image ++ voxels Demo.mask ++ voxels Demo.mask_negative
     ++ pixels Demo.flat_frame ++ pixels Demo.infinite_frame) = true.
Proof. reflexivity. Qed.

(** ** Order of binary64 values *)

Ltac cmp_cases :=
  repeat match goal with
  | H : context [Z.compare ?a ?b] |- _ => destruct (Z.compare_spec a b)
  | |- context [Z.compare ?a ?b] => destruct (Z.compare_spec a b)
  | H : context [Pos.compare_cont Eq ?a ?b] |- _ =>
      change (Pos.compare_cont Eq a b) with (Pos.compare a b) in H;
      destruct (Pos.compare_spec a b)
  | |- context [Pos.compare_cont Eq ?a ?b] =>
      change (Pos.compare_cont Eq a b) with (Pos.compare a b);
      destruct (Pos.compare_spec a b)
  end.

Ltac float_cases x :=
  let s := fresh "s" in let m := fresh "m" in let e := fresh "e" in
  destruct x as [[]|[]| |[] m e].

Ltac order_solve :=
  simpl; try congruence; cmp_cases; simpl; intros; subst;
  try congruence; try lia; auto.

Lemma leb_ltb_false a b : F64.leb a b = true -> F64.ltb b a = false.
Proof.
  unfold F64.leb, F64.ltb, SFleb, SFltb.
  float_cases a; float_cases b; order_solve.
Qed.

Lemma ltb_leb_false a b : F64.ltb a b = true -> F64.leb b a = false.
Proof.
  unfold F64.leb, F64.ltb, SFleb, SFltb.
  float_cases a; float_cases b; order_solve.
Qed.

Lemma leb_ltb_trans_false lo hi x :
  F64.leb lo hi = true -> F64.ltb hi x = true -> F64.ltb x lo = false.
Proof.
  unfold F64.leb, F64.ltb, SFleb, SFltb.
  float_cases lo; float_cases hi; float_cases x; order_solve.
Qed.

Lemma leb_trans a b c :
  F64.leb a b = true -> F64.leb b c = true -> F64.leb a c = true.
Proof.
  unfold F64.leb, SFleb.
  float_cases a; float_cases b; float_cases c; order_solve.
Qed.

Lemma leb_total a b :
  F64.is_nan a = false -> F64.is_nan b = false ->
  F64.leb a b = true \/ F64.leb b a = true.
Proof.
  unfold F64.leb, SFleb.
  float_cases a; float_cases b; order_solve.
Qed.

Lemma leb_refl a : F64.is_nan a = false -> F64.leb a a = true.
Proof.
  unfold F64.leb, SFleb. float_cases a; simpl; try congruence;
    rewrite Z.compare_refl; change (Pos.compare_cont Eq m m) with (Pos.compare m m);
    rewrite Pos.compare_refl; reflexivity.
Qed.

Lemma leb_nan_l a : F64.leb F64.nan a = false.
Proof. reflexivity. Qed.

Lemma leb_nan_r a : F64.leb a F64.nan = false.
Proof. destruct a; reflexivity. Qed.

Lemma sub_diag_finite c : F64.is_finite c = true -> F64.sub c c = F64.zero.
Proof.
  destruct c as [[]| | |s m e]; simpl; try congruence; try reflexivity.
  intros _. unfold F64.sub, SFsub.
  set (x := cond_Zopp s _).
  replace (Z.sub x x) with 0 by lia.
  reflexivity.
Qed.

(** ** Steps of a run *)

Lemma add_written_nil w : add_written w [] = w.
Proof. destruct w; unfold add_written; simpl. now rewrite app_nil_r. Qed.

Lemma add_written_app w l1 l2 :
  add_written (add_written w l1) l2 = add_written w (l1 ++ l2).
Proof. unfold add_written; simpl. now rewrite app_assoc. Qed.

Lemma new_writes_add_written w l : new_writes w (add_written w l) = l.
Proof. unfold new_writes, add_written; simpl. now rewrite drop_app_length. Qed.

Lemma map_pixels_compose {A B C} (g : B -> C) (f : A -> B) (fr : frame A) :
  map_pixels g (map_pixels f fr) = map_pixels (fun v => g (f v)) fr.
Proof. unfold map_pixels; simpl. now rewrite map_map. Qed.

Lemma mkdir_files p w r w1 :
  mkdir p w = (r, w1) ->
  nifti_files w1 = nifti_files w /\ written w1 = written w.
Proof.
  unfold mkdir.
  destruct (is_dir p w); [intros [= <- <-]; auto|].
  destruct (is_file p w); [intros [= <- <-]; auto|].
  destruct (is_dir (parent p) w); intros [= <- <-]; auto.
Qed.

Lemma mkdir_lookup_nifti p w r w1 q :
  mkdir p w = (r, w1) -> lookup_nifti q w1 = lookup_nifti q w.
Proof.
  intros H. apply mkdir_files in H as [H _].
  unfold lookup_nifti. now rewrite H.
Qed.

Lemma lookup_nifti_exists p w a :
  lookup_nifti p w = Some a -> is_dir p w || is_file p w = true.
Proof.
  unfold lookup_nifti, is_file. intros H.
  destruct (List.find _ _) as [e|] eqn:E; [|discriminate].
  apply find_some in E as [Hin He].
  assert (existsb (fun e => path_eqb p (fst e)) (nifti_files w) = true) as ->.
  { apply existsb_exists. eauto. }
  now rewrite orb_true_r.
Qed.

Lemma frame_min_pixels fr x l :
  pixels fr = x :: l -> frame_min fr = inr (fold_left min_step l x).
Proof. unfold frame_min. now intros ->. Qed.

Lemma frame_max_pixels fr x l :
  pixels fr = x :: l -> frame_max fr = inr (fold_left max_step l x).
Proof. unfold frame_max. now intros ->. Qed.

Lemma save_frame_run mask_path root_dir i mask_frame image_frame w :
  pixels image_frame <> [] ->
  save_frame (name (parent mask_path)) (image_directory mask_path root_dir)
    (mask_directory mask_path root_dir) i (mask_frame, image_frame) w
  = (inr tt,
     add_written w
       [(new_image_path mask_path root_dir i, Mat_u8 (rescale_frame image_frame));
        (new_mask_path mask_path root_dir i, Mat_f64 mask_frame)]).
Proof.
  intros Hne. destruct (pixels image_frame) as [|x l] eqn:E; [congruence|].
  unfold save_frame, rescale_frame, bind, lift, imwrite.
  rewrite (frame_min_pixels _ _ _ E), (frame_max_pixels _ _ _ E).
  rewrite add_written_app. rewrite !map_pixels_compose. reflexivity.
Qed.

Lemma save_frame_empty case idir mdir i mask_frame image_frame w :
  pixels image_frame = [] ->
  exists e, save_frame case idir mdir i (mask_frame, image_frame) w = (inl e, w).
Proof.
  intros E. unfold save_frame, bind, lift, frame_min. rewrite E. eauto.
Qed.

Lemma for_enumerate_save_frame mask_path root_dir l : forall start w,
  Forall nonempty l ->
  for_enumerate
    (save_frame (name (parent mask_path)) (image_directory mask_path root_dir)
       (mask_directory mask_path root_dir)) start l w
  = (inr tt, add_written w (frame_writes mask_path root_dir start l)).
Proof.
  induction l as [|[mf imf] l IH]; intros start w Hl; cbn [for_enumerate frame_writes].
  - unfold ret. now rewrite add_written_nil.
  - inversion Hl as [|? ? Hx Hl']; subst. unfold bind.
    rewrite save_frame_run by exact Hx.
    rewrite IH by exact Hl'. now rewrite add_written_app.
Qed.

Lemma for_enumerate_save_frame_inv case idir mdir l : forall start w w',
  for_enumerate (save_frame case idir mdir) start l w = (inr tt, w') ->
  Forall nonempty l.
Proof.
  induction l as [|[mf imf] l IH]; intros start w w' H; [constructor|].
  cbn [for_enumerate] in H. unfold bind in H.
  destruct (pixels imf) as [|x p] eqn:E.
  - destruct (save_frame_empty case idir mdir start mf imf w E) as [e He].
    rewrite He in H. discriminate.
  - destruct (save_frame case idir mdir start (mf, imf) w) as [[e|[]] w1]; [discriminate|].
    constructor; [unfold nonempty; simpl; congruence|]. eapply IH, H.
Qed.

(** Whatever the outcome of the loop, it only adds write calls. *)
Lemma for_enumerate_save_frame_written case idir mdir l : forall start w r w',
  for_enumerate (save_frame case idir mdir) start l w = (r, w') ->
  exists new, written w' = written w ++ new.
Proof.
  induction l as [|[mf imf] l IH]; intros start w r w' H;
    cbn [for_enumerate] in H.
  - injection H as <- <-. exists []. now rewrite app_nil_r.
  - unfold bind in H.
    destruct (pixels imf) as [|x p] eqn:E.
    + destruct (save_frame_empty case idir mdir start mf imf w E) as [e He].
      rewrite He in H. injection H as <- <-. exists []. now rewrite app_nil_r.
    + unfold save_frame, bind, lift, imwrite in H.
      rewrite (frame_min_pixels _ _ _ E), (frame_max_pixels _ _ _ E) in H.
      apply IH in H as [new Hnew]. rewrite Hnew. simpl.
      rewrite <- !app_assoc. eauto.
Qed.

(** ** The whole run *)

Lemma parent_joinpath p c : parent (p // c) = p.
Proof. apply removelast_last. Qed.

Lemma with_name_inr p n q : with_name p n = inr q -> q = parent p // n.
Proof. destruct p; simpl; [discriminate|]. now intros [= <-]. Qed.

Lemma nib_load_inr p w a w1 :
  nib_load p w = (inr a, w1) -> lookup_nifti p w = Some a /\ w1 = w.
Proof.
  unfold nib_load. destruct (lookup_nifti p w); [|discriminate].
  now intros [= <- <-].
Qed.

Lemma assert_inr c msg w w1 : assert_ c msg w = (inr tt, w1) -> c = true /\ w1 = w.
Proof. destruct c; simpl; [|discriminate]. now intros [= <-]. Qed.

Ltac step_mkdir H w1 E :=
  match type of H with
  | context [mkdir ?p ?w] =>
      destruct (mkdir p w) as [[?|[]] w1] eqn:E; [discriminate H|]
  end.

(** A run that returns has found both volumes with one shape, met no
    empty slice, and has added exactly the frames of the loop. *)
Lemma save_kits19_frames_inv mask_path root_dir window_level make_binary w w' :
  save_kits19_frames mask_path root_dir window_level make_binary w = (inr tt, w') ->
  exists mask_data image_data,
    lookup_nifti mask_path w = Some mask_data
    /\ lookup_nifti (parent mask_path // "imaging.nii.gz") w = Some image_data
    /\ shape mask_data = shape image_data
    /\ Forall nonempty
         (zip (iter (binarize make_binary mask_data))
              (iter (apply_window window_level image_data)))
    /\ written w' =
       written w ++
       frame_writes mask_path root_dir 0
         (zip (iter (binarize make_binary mask_data))
              (iter (apply_window window_level image_data))).
Proof.
  unfold save_kits19_frames, bind. intros H.
  step_mkdir H w1 E1.
  unfold lift in H.
  destruct (with_name mask_path "imaging.nii.gz") as [?|image_path] eqn:E2;
    [discriminate|].
  apply with_name_inr in E2. subst image_path.
  unfold exists_ in H.
  destruct (assert_ (is_dir mask_path w1 || is_file mask_path w1) _ w1)
    as [[?|[]] w2] eqn:E3; [discriminate|].
  apply assert_inr in E3 as [_ ->].
  destruct (assert_ (is_dir _ w1 || is_file _ w1) _ w1)
    as [[?|[]] w2] eqn:E4; [discriminate|].
  apply assert_inr in E4 as [_ ->].
  destruct (nib_load mask_path w1) as [[?|mask_data] w2] eqn:E5; [discriminate|].
  apply nib_load_inr in E5 as [L1 ->].
  destruct (nib_load _ w1) as [[?|image_data] w2] eqn:E6; [discriminate|].
  apply nib_load_inr in E6 as [L2 ->].
  destruct (assert_ (bool_decide _) _ w1) as [[?|[]] w2] eqn:E7; [discriminate|].
  apply assert_inr in E7 as [Hs ->]. apply bool_decide_eq_true in Hs.
  step_mkdir H w2 E8. step_mkdir H w3 E9. step_mkdir H w4 E10.
  exists mask_data, image_data.
  rewrite (mkdir_lookup_nifti _ _ _ _ _ E1) in L1.
  rewrite (mkdir_lookup_nifti _ _ _ _ _ E1) in L2.
  pose proof (for_enumerate_save_frame_inv _ _ _ _ _ _ _ H) as Hne.
  rewrite for_enumerate_save_frame in H by exact Hne.
  injection H as <-.
  apply mkdir_files in E1 as [_ W1], E8 as [_ W2], E9 as [_ W3], E10 as [_ W4].
  repeat split; try assumption.
  simpl. congruence.
Qed.

(** With the shapes different the run raises, and has written nothing. *)
Lemma save_kits19_frames_shape_mismatch mask_path root_dir window_level make_binary
    w mask_data image_data :
  lookup_nifti mask_path w = Some mask_data ->
  lookup_nifti (parent mask_path // "imaging.nii.gz") w = Some image_data ->
  shape mask_data <> shape image_data ->
  exists e w',
    save_kits19_frames mask_path root_dir window_level make_binary w = (inl e, w')
    /\ written w' = written w
    /\ (forall w1, mkdir root_dir w = (inr tt, w1) -> mask_path <> [] ->
        e = AssertionError
              (String.append "Mask and image shape of "
                 (String.append (path_str mask_path) " are not equal"))).
Proof.
  intros L1 L2 Hs.
  unfold save_kits19_frames, bind.
  destruct (mkdir root_dir w) as [[e|[]] w1] eqn:E1.
  { exists e, w1. apply mkdir_files in E1 as [_ ?]. repeat split; auto.
    intros ? [=]. }
  pose proof (mkdir_lookup_nifti _ _ _ _ mask_path E1) as K1.
  pose proof (mkdir_lookup_nifti _ _ _ _ (parent mask_path // "imaging.nii.gz") E1) as K2.
  rewrite <- K1 in L1. rewrite <- K2 in L2.
  apply mkdir_files in E1 as [_ W1].
  unfold lift.
  destruct mask_path as [|c mask_path].
  { simpl. eexists _, w1. repeat split; auto. congruence. }
  change (with_name (c :: mask_path) "imaging.nii.gz")
    with (@inr exn _ (parent (c :: mask_path) // "imaging.nii.gz")).
  cbv beta iota. unfold exists_.
  rewrite (lookup_nifti_exists _ _ _ L1).
  unfold assert_ at 1; unfold ret; cbv beta iota.
  rewrite (lookup_nifti_exists _ _ _ L2).
  unfold assert_ at 1; unfold ret; cbv beta iota.
  unfold nib_load. rewrite L1, L2.
  rewrite bool_decide_eq_false_2 by exact Hs.
  unfold assert_, raise. eexists _, w1. repeat split; auto.
Qed.

(** *** When a run completes *)

Lemma is_dir_app p w q : is_dir p w = true ->
  is_dir p {| nifti_files := nifti_files w;
              directories := directories w ++ [q];
              written := written w |} = true.
Proof. unfold is_dir; simpl. rewrite existsb_app. now intros ->. Qed.

Lemma mkdir_succeeds p w :
  is_file p w = false -> is_dir (parent p) w = true ->
  exists w1, mkdir p w = (inr tt, w1)
    /\ nifti_files w1 = nifti_files w /\ written w1 = written w
    /\ is_dir p w1 = true
    /\ (forall q, is_dir q w = true -> is_dir q w1 = true).
Proof.
  intros Hf Hp. unfold mkdir.
  destruct (is_dir p w) eqn:Hd.
  - exists w. auto.
  - rewrite Hf, Hp. eexists. repeat split; simpl; auto.
    + unfold is_dir; simpl. rewrite existsb_app; simpl.
      unfold path_eqb. rewrite bool_decide_eq_true_2 by reflexivity.
      now rewrite orb_true_r.
    + intros q. apply is_dir_app.
Qed.

Lemma is_file_same p w w1 :
  nifti_files w1 = nifti_files w -> written w1 = written w ->
  is_file p w1 = is_file p w.
Proof. unfold is_file. now intros -> ->. Qed.

Lemma slice_length a i :
  well_formed a -> (i < depth a)%nat ->
  length (pixels (slice a i)) = (height a * width a)%nat.
Proof.
  unfold well_formed, slice; simpl. intros Hwf Hi.
  rewrite length_take, length_drop. nia.
Qed.

Lemma iter_lookup a i : (i < depth a)%nat -> iter a !! i = Some (slice a i).
Proof.
  intros Hi. unfold iter.
  change (map (slice a) (seq 0 (depth a))) with (slice a <$> seq 0 (depth a)).
  rewrite list_lookup_fmap, lookup_seq_lt by exact Hi. reflexivity.
Qed.

Lemma iter_length a : length (iter a) = depth a.
Proof. unfold iter. now rewrite length_map, length_seq. Qed.

Lemma zip_iter_lookup a b i :
  (i < depth a)%nat -> (i < depth b)%nat ->
  zip (iter a) (iter b) !! i = Some (slice a i, slice b i).
Proof.
  intros Ha Hb. apply lookup_zip_with_Some.
  exists (slice a i), (slice b i). auto using iter_lookup.
Qed.

Lemma zip_iter_inv a b i mf imf :
  zip (iter a) (iter b) !! i = Some (mf, imf) ->
  (i < depth a)%nat /\ (i < depth b)%nat /\ mf = slice a i /\ imf = slice b i.
Proof.
  intros H. apply lookup_zip_with_Some in H as (x & y & [= -> ->] & Hx & Hy).
  pose proof (lookup_lt_Some _ _ _ Hx) as Lx. pose proof (lookup_lt_Some _ _ _ Hy) as Ly.
  rewrite iter_length in Lx, Ly.
  rewrite iter_lookup in Hx, Hy by assumption.
  injection Hx as <-. injection Hy as <-. auto.
Qed.

Lemma zip_iter_nonempty a b :
  well_formed b -> (0 < height b * width b)%nat ->
  Forall nonempty (zip (iter a) (iter b)).
Proof.
  intros Hwf Hpos. apply Forall_lookup. intros i [mf imf] H.
  apply zip_iter_inv in H as (_ & Hi & _ & ->).
  unfold nonempty; simpl snd. intros E.
  pose proof (slice_length b i Hwf Hi) as L. rewrite E in L. simpl in L. lia.
Qed.

Lemma apply_window_shape wl a : shape (apply_window wl a) = shape a.
Proof. destruct wl as [[ws we]|]; reflexivity. Qed.

Lemma binarize_shape mb a : shape (binarize mb a) = shape a.
Proof. destruct mb; reflexivity. Qed.

Lemma apply_window_well_formed wl a : well_formed a -> well_formed (apply_window wl a).
Proof.
  unfold well_formed, depth, height, width. rewrite apply_window_shape.
  destruct wl as [[ws we]|]; simpl; [|auto]. now rewrite !length_map.
Qed.

(** The run returns, with the frames of every slice written, as soon as
    the volumes are there with one shape and non-empty slices, the parent
    of the root directory exists, and no file is in the way of the four
    directories. *)
Lemma save_kits19_frames_run mask_path root_dir window_level make_binary
    w mask_data image_data :
  mask_path <> [] ->
  lookup_nifti mask_path w = Some mask_data ->
  lookup_nifti (parent mask_path // "imaging.nii.gz") w = Some image_data ->
  shape mask_data = shape image_data ->
  well_formed image_data ->
  (0 < height image_data * width image_data)%nat ->
  is_dir (parent root_dir) w = true ->
  Forall (fun p => is_file p w = false)
    [root_dir; root_dir // name (parent mask_path);
     image_directory mask_path root_dir; mask_directory mask_path root_dir] ->
  exists w',
    save_kits19_frames mask_path root_dir window_level make_binary w = (inr tt, w')
    /\ written w' =
       written w ++
       frame_writes mask_path root_dir 0
         (zip (iter (binarize make_binary mask_data))
              (iter (apply_window window_level image_data))).
Proof.
  intros Hmp L1 L2 Hs Hwf Hpos Hroot Hfiles.
  apply Forall_cons in Hfiles as [F1 Hfiles].
  apply Forall_cons in Hfiles as [F2 Hfiles].
  apply Forall_cons in Hfiles as [F3 Hfiles].
  apply Forall_cons in Hfiles as [F4 _].
  unfold save_kits19_frames, bind.
  destruct (mkdir_succeeds root_dir w F1 Hroot) as (w1 & -> & N1 & W1 & D1 & _).
  assert (lookup_nifti mask_path w1 = Some mask_data) as L1'.
  { unfold lookup_nifti in *. now rewrite N1. }
  assert (lookup_nifti (parent mask_path // "imaging.nii.gz") w1 = Some image_data) as L2'.
  { unfold lookup_nifti in *. now rewrite N1. }
  unfold lift.
  destruct mask_path as [|c mask_path].
  { congruence. }
  change (with_name (c :: mask_path) "imaging.nii.gz")
    with (@inr exn _ (parent (c :: mask_path) // "imaging.nii.gz")).
  cbv beta iota. unfold exists_.
  rewrite (lookup_nifti_exists _ _ _ L1').
  unfold assert_ at 1; unfold ret; cbv beta iota.
  rewrite (lookup_nifti_exists _ _ _ L2').
  unfold assert_ at 1; unfold ret; cbv beta iota.
  unfold nib_load. rewrite L1', L2'.
  rewrite bool_decide_eq_true_2 by exact Hs.
  unfold assert_ at 1; unfold ret; cbv beta iota.
  rewrite <- (is_file_same _ _ _ N1 W1) in F2.
  rewrite <- (is_file_same _ _ _ N1 W1) in F3.
  rewrite <- (is_file_same _ _ _ N1 W1) in F4.
  unfold image_directory at 1. rewrite parent_joinpath.
  destruct (mkdir_succeeds _ w1 F2) as (w2 & -> & N2 & W2 & D2 & _).
  { now rewrite parent_joinpath. }
  rewrite <- (is_file_same _ _ _ N2 W2) in F3.
  rewrite <- (is_file_same _ _ _ N2 W2) in F4.
  destruct (mkdir_succeeds _ w2 F3) as (w3 & -> & N3 & W3 & _ & K3).
  { unfold image_directory. now rewrite parent_joinpath. }
  rewrite <- (is_file_same _ _ _ N3 W3) in F4.
  destruct (mkdir_succeeds _ w3 F4) as (w4 & -> & N4 & W4 & _ & _).
  { unfold mask_directory. rewrite parent_joinpath. now apply K3. }
  rewrite for_enumerate_save_frame.
  - eexists. split; [reflexivity|]. simpl. congruence.
  - apply zip_iter_nonempty.
    + now apply apply_window_well_formed.
    + unfold height, width. now rewrite apply_window_shape.
Qed.

(** ** The frames of a completed run, slice by slice *)

Lemma frame_writes_lookup mask_path root_dir l : forall start k mf imf,
  l !! k = Some (mf, imf) ->
  frame_writes mask_path root_dir start l !! (2 * k)%nat
    = Some (new_image_path mask_path root_dir (start + k), Mat_u8 (rescale_frame imf))
  /\ frame_writes mask_path root_dir start l !! (2 * k + 1)%nat
    = Some (new_mask_path mask_path root_dir (start + k), Mat_f64 mf).
Proof.
  induction l as [|[mf0 imf0] l IH]; intros start k mf imf H; [discriminate|].
  destruct k as [|k].
  - injection H as -> ->. rewrite Nat.add_0_r. split; reflexivity.
  - cbn [lookup list_lookup] in H. apply (IH (S start)) in H as [H1 H2].
    replace (2 * S k)%nat with (S (S (2 * k))) by lia.
    replace (start + S k)%nat with (S start + k)%nat by lia.
    split; [exact H1|].
    replace (S (S (2 * k)) + 1)%nat with (S (S (2 * k + 1))) by lia. exact H2.
Qed.

Lemma frame_writes_length mask_path root_dir l : forall start,
  length (frame_writes mask_path root_dir start l) = (2 * length l)%nat.
Proof.
  induction l as [|[mf imf] l IH]; intros start; simpl; [reflexivity|].
  rewrite IH. lia.
Qed.

Lemma slice_map_voxels f a i :
  slice (map_voxels f a) i = map_pixels f (slice a i).
Proof.
  unfold slice, map_voxels, map_pixels, height, width; simpl.
  now rewrite <- firstn_map, <- skipn_map.
Qed.

Lemma depth_binarize mb a : depth (binarize mb a) = depth a.
Proof. unfold depth. now rewrite binarize_shape. Qed.

Lemma depth_apply_window wl a : depth (apply_window wl a) = depth a.
Proof. unfold depth. now rewrite apply_window_shape. Qed.

(** A completed run, in the form the properties below use: the volumes
    it read, and for every slice index the two write calls with what
    they were handed. *)
Lemma save_kits19_frames_frames mask_path root_dir window_level make_binary w w' :
  save_kits19_frames mask_path root_dir window_level make_binary w = (inr tt, w') ->
  exists mask_data image_data,
    lookup_nifti mask_path w = Some mask_data
    /\ lookup_nifti (parent mask_path // "imaging.nii.gz") w = Some image_data
    /\ shape mask_data = shape image_data
    /\ new_writes w w' =
       frame_writes mask_path root_dir 0
         (zip (iter (binarize make_binary mask_data))
              (iter (apply_window window_level image_data)))
    /\ forall i, (i < depth image_data)%nat ->
       pixels (slice (apply_window window_level image_data) i) <> []
       /\ new_writes w w' !! (2 * i)%nat
          = Some (new_image_path mask_path root_dir i,
                  Mat_u8 (rescale_frame (slice (apply_window window_level image_data) i)))
       /\ new_writes w w' !! (2 * i + 1)%nat
          = Some (new_mask_path mask_path root_dir i,
                  Mat_f64 (slice (binarize make_binary mask_data) i)).
Proof.
  intros H. apply save_kits19_frames_inv in H
    as (mask_data & image_data & L1 & L2 & Hs & Hne & Hw).
  exists mask_data, image_data.
  assert (new_writes w w' =
          frame_writes mask_path root_dir 0
            (zip (iter (binarize make_binary mask_data))
                 (iter (apply_window window_level image_data)))) as Hnew.
  { unfold new_writes. rewrite Hw. apply drop_app_length. }
  repeat split; try assumption.
  - assert ((i < depth (binarize make_binary mask_data))%nat) as Hm.
    { rewrite depth_binarize. unfold depth. now rewrite Hs. }
    assert ((i < depth (apply_window window_level image_data))%nat) as Hi.
    { now rewrite depth_apply_window. }
    pose proof (zip_iter_lookup _ _ i Hm Hi) as Hz.
    rewrite Forall_lookup in Hne. exact (Hne _ _ Hz).
  - rewrite Hnew. eapply (frame_writes_lookup _ _ _ 0%nat).
    apply zip_iter_lookup; [|now rewrite depth_apply_window].
    rewrite depth_binarize. unfold depth. now rewrite Hs.
  - rewrite Hnew. eapply (frame_writes_lookup _ _ _ 0%nat).
    apply zip_iter_lookup; [|now rewrite depth_apply_window].
    rewrite depth_binarize. unfold depth. now rewrite Hs.
Qed.

Lemma rescale_frame_pixels fr :
  pixels fr <> [] ->
  exists lo hi,
    frame_min fr = inr lo /\ frame_max fr = inr hi
    /\ rescale_frame fr = rescale lo hi fr.
Proof.
  intros Hne. destruct (pixels fr) as [|x l] eqn:E; [congruence|].
  unfold rescale_frame.
  rewrite (frame_min_pixels _ _ _ E), (frame_max_pixels _ _ _ E). eauto.
Qed.

Lemma astype_uint8_range x : 0 <= astype_uint8 x <= 255.
Proof. unfold astype_uint8. pose proof (Z.mod_pos_bound (F64.trunc x) 256). lia. Qed.

(** ** [min()] and [max()] of a slice without NaN *)

Lemma min_step_cases a x :
  F64.is_nan a = false -> F64.is_nan x = false ->
  (min_step a x = a \/ min_step a x = x)
  /\ F64.leb (min_step a x) a = true /\ F64.leb (min_step a x) x = true.
Proof.
  intros Ha Hx. unfold min_step. rewrite Ha, orb_false_r.
  destruct (F64.leb a x) eqn:E.
  - auto using leb_refl.
  - destruct (leb_total a x Ha Hx) as [K|K]; [congruence|]. auto using leb_refl.
Qed.

Lemma max_step_cases a x :
  F64.is_nan a = false -> F64.is_nan x = false ->
  (max_step a x = a \/ max_step a x = x)
  /\ F64.leb a (max_step a x) = true /\ F64.leb x (max_step a x) = true.
Proof.
  intros Ha Hx. unfold max_step. rewrite Ha, orb_false_r.
  destruct (F64.leb x a) eqn:E.
  - auto using leb_refl.
  - destruct (leb_total a x Ha Hx) as [K|K]; [|congruence]. auto using leb_refl.
Qed.

Lemma fold_min_step l : forall x,
  no_nan (x :: l) ->
  In (fold_left min_step l x) (x :: l)
  /\ Forall (fun p => F64.leb (fold_left min_step l x) p = true) (x :: l).
Proof.
  induction l as [|y l IH]; intros x Hn.
  - inversion Hn; subst. simpl. split; [auto|]. constructor; auto using leb_refl.
  - inversion Hn as [|? ? Hx Hn']; subst. inversion Hn' as [|? ? Hy Hl]; subst.
    destruct (min_step_cases x y Hx Hy) as (Hc & Lx & Ly).
    assert (no_nan (min_step x y :: l)) as Hn2.
    { constructor; [|exact Hl]. destruct Hc as [-> | ->]; assumption. }
    destruct (IH _ Hn2) as [Hin Hall]. cbn [fold_left].
    inversion Hall as [|? ? Hm Hrest]; subst. split.
    + destruct Hin as [Hin|Hin]; [|right; right; exact Hin].
      rewrite <- Hin. destruct Hc as [-> | ->]; [left|right; left]; reflexivity.
    + repeat constructor; eauto using leb_trans.
Qed.

Lemma fold_max_step l : forall x,
  no_nan (x :: l) ->
  In (fold_left max_step l x) (x :: l)
  /\ Forall (fun p => F64.leb p (fold_left max_step l x) = true) (x :: l).
Proof.
  induction l as [|y l IH]; intros x Hn.
  - inversion Hn; subst. simpl. split; [auto|]. constructor; auto using leb_refl.
  - inversion Hn as [|? ? Hx Hn']; subst. inversion Hn' as [|? ? Hy Hl]; subst.
    destruct (max_step_cases x y Hx Hy) as (Hc & Lx & Ly).
    assert (no_nan (max_step x y :: l)) as Hn2.
    { constructor; [|exact Hl]. destruct Hc as [-> | ->]; assumption. }
    destruct (IH _ Hn2) as [Hin Hall]. cbn [fold_left].
    inversion Hall as [|? ? Hm Hrest]; subst. split.
    + destruct Hin as [Hin|Hin]; [|right; right; exact Hin].
      rewrite <- Hin. destruct Hc as [-> | ->]; [left|right; left]; reflexivity.
    + repeat constructor; eauto using leb_trans.
Qed.

(** Without NaN, [frame_min] returns a pixel of the slice that is below
    all of them, and [frame_max] one that is above. *)
Lemma frame_min_is_minimum fr lo :
  no_nan (pixels fr) -> frame_min fr = inr lo ->
  In lo (pixels fr) /\ Forall (fun p => F64.leb lo p = true) (pixels fr).
Proof.
  unfold frame_min. destruct (pixels fr) as [|x l]; [discriminate|].
  intros Hn [= <-]. now apply fold_min_step.
Qed.

Lemma frame_max_is_maximum fr hi :
  no_nan (pixels fr) -> frame_max fr = inr hi ->
  In hi (pixels fr) /\ Forall (fun p => F64.leb p hi = true) (pixels fr).
Proof.
  unfold frame_max. destruct (pixels fr) as [|x l]; [discriminate|].
  intros Hn [= <-]. now apply fold_max_step.
Qed.

(** A NaN in the slice reaches both results. *)
Lemma fold_min_step_nan l : fold_left min_step l F64.nan = F64.nan.
Proof. induction l; simpl; auto. Qed.

Lemma fold_max_step_nan l : fold_left max_step l F64.nan = F64.nan.
Proof.
  induction l as [|y l IH]; cbn [fold_left]; [reflexivity|].
  unfold max_step at 2. cbn [F64.is_nan F64.nan]. now rewrite orb_true_r.
Qed.

Lemma min_step_nan a : min_step a F64.nan = F64.nan.
Proof. unfold min_step. rewrite leb_nan_r. destruct a; reflexivity. Qed.

Lemma max_step_nan a : max_step a F64.nan = F64.nan.
Proof. unfold max_step. rewrite leb_nan_l. destruct a; reflexivity. Qed.

Lemma frame_min_nan fr :
  In F64.nan (pixels fr) -> frame_min fr = inr F64.nan.
Proof.
  unfold frame_min. destruct (pixels fr) as [|x l]; [intros []|].
  intros Hin. f_equal. revert x Hin.
  induction l as [|y l IH]; intros x [->|Hin]; simpl.
  - reflexivity.
  - destruct Hin.
  - apply fold_min_step_nan.
  - destruct Hin as [->|Hin].
    + rewrite min_step_nan. apply fold_min_step_nan.
    + apply IH. now right.
Qed.

(** ** File names *)

Lemma uint_of_string_zeros n s :
  NilEmpty.uint_of_string (String.append (zeros n) s)
  = option_map (Nat.iter n D0) (NilEmpty.uint_of_string s).
Proof.
  induction n as [|n IH]; cbn [zeros].
  - change (String.append EmptyString s) with s.
    destruct (NilEmpty.uint_of_string s); reflexivity.
  - change (String.append (String "0" (zeros n)) s)
      with (String "0" (String.append (zeros n) s)).
    cbn [NilEmpty.uint_of_string]. rewrite IH.
    destruct (NilEmpty.uint_of_string s); reflexivity.
Qed.

Lemma of_uint_zeros n d : Nat.of_uint (Nat.iter n D0 d) = Nat.of_uint d.
Proof.
  induction n as [|n IH]; [reflexivity|].
  cbn [Nat.iter nat_rect]. exact IH.
Qed.

(** Reading the formatted index back gives the index. *)
Lemma format_04d_read i :
  option_map Nat.of_uint (NilEmpty.uint_of_string (format_04d i)) = Some i.
Proof.
  unfold format_04d, decimal.
  rewrite uint_of_string_zeros, NilEmpty.usu. cbn [option_map].
  now rewrite of_uint_zeros, DecimalNat.Unsigned.of_to.
Qed.

Lemma format_04d_inj i j : format_04d i = format_04d j -> i = j.
Proof.
  intros H. pose proof (format_04d_read i) as Hi.
  rewrite H, format_04d_read in Hi. congruence.
Qed.

Lemma append_inv_head s a b : String.append s a = String.append s b -> a = b.
Proof. induction s as [|c s IH]; simpl; [auto|]. intros [= H]. auto. Qed.

Lemma list_ascii_of_string_append a b :
  list_ascii_of_string (String.append a b)
  = list_ascii_of_string a ++ list_ascii_of_string b.
Proof. induction a as [|c a IH]; simpl; [reflexivity|]. now rewrite IH. Qed.

Lemma append_inv_tail a b s : String.append a s = String.append b s -> a = b.
Proof.
  intros H. apply (f_equal list_ascii_of_string) in H.
  rewrite !list_ascii_of_string_append in H. apply app_inv_tail in H.
  rewrite <- (string_of_list_ascii_of_string a), <- (string_of_list_ascii_of_string b).
  now rewrite H.
Qed.

Lemma frame_file_name_inj case ext i j :
  frame_file_name case i ext = frame_file_name case j ext -> i = j.
Proof.
  unfold frame_file_name. intros H.
  apply append_inv_head, append_inv_head, append_inv_tail in H.
  now apply format_04d_inj.
Qed.

Lemma joinpath_inj p q a b : p // a = q // b -> p = q /\ a = b.
Proof. unfold joinpath. intros H. apply app_inj_tail in H. exact H. Qed.

Lemma new_image_path_inj mask_path root_dir i j :
  new_image_path mask_path root_dir i = new_image_path mask_path root_dir j -> i = j.
Proof.
  unfold new_image_path. intros H. apply joinpath_inj in H as [_ H].
  eapply frame_file_name_inj, H.
Qed.

Lemma new_mask_path_inj mask_path root_dir i j :
  new_mask_path mask_path root_dir i = new_mask_path mask_path root_dir j -> i = j.
Proof.
  unfold new_mask_path. intros H. apply joinpath_inj in H as [_ H].
  eapply frame_file_name_inj, H.
Qed.

Lemma image_directory_not_mask_directory mask_path root_dir :
  image_directory mask_path root_dir <> mask_directory mask_path root_dir.
Proof.
  unfold image_directory, mask_directory. intros H.
  apply joinpath_inj in H as [_ H]. discriminate.
Qed.

Lemma new_image_path_not_mask mask_path root_dir i j :
  new_image_path mask_path root_dir i <> new_mask_path mask_path root_dir j.
Proof.
  unfold new_image_path, new_mask_path. intros H.
  apply joinpath_inj in H as [H _].
  exact (image_directory_not_mask_directory _ _ H).
Qed.

(** Each write of the loop carries the index of an iteration not below
    [start]. *)
Lemma frame_writes_paths mask_path root_dir l : forall start p,
  In p (map fst (frame_writes mask_path root_dir start l)) ->
  exists k, (start <= k)%nat
    /\ (p = new_image_path mask_path root_dir k \/ p = new_mask_path mask_path root_dir k).
Proof.
  induction l as [|[mf imf] l IH]; intros start p; cbn [frame_writes map fst In].
  - intros [].
  - intros [<-|[<-|H]]; [exists start; auto..|].
    apply IH in H as (k & Hk & H). exists k. split; [lia|exact H].
Qed.

Lemma frame_writes_NoDup mask_path root_dir l : forall start,
  List.NoDup (map fst (frame_writes mask_path root_dir start l)).
Proof.
  induction l as [|[mf imf] l IH]; intros start; cbn [frame_writes map fst].
  - constructor.
  - constructor; [|constructor; [|apply IH]].
    + intros [H|H].
      * symmetry in H. exact (new_image_path_not_mask _ _ _ _ H).
      * apply frame_writes_paths in H as (k & Hk & [H|H]).
        -- apply new_image_path_inj in H. lia.
        -- exact (new_image_path_not_mask _ _ _ _ H).
    + intros H. apply frame_writes_paths in H as (k & Hk & [H|H]).
      * symmetry in H. exact (new_image_path_not_mask _ _ _ _ H).
      * apply new_mask_path_inj in H. lia.
Qed.

Lemma is_image_frame_image mask_path root_dir i m :
  is_image_frame mask_path root_dir (new_image_path mask_path root_dir i, m) = true
  /\ is_mask_frame mask_path root_dir (new_image_path mask_path root_dir i, m) = false.
Proof.
  unfold is_image_frame, is_mask_frame, new_image_path, path_eqb; cbn [fst].
  rewrite parent_joinpath. split.
  - now apply bool_decide_eq_true_2.
  - apply bool_decide_eq_false_2, image_directory_not_mask_directory.
Qed.

Lemma is_mask_frame_mask mask_path root_dir i m :
  is_mask_frame mask_path root_dir (new_mask_path mask_path root_dir i, m) = true
  /\ is_image_frame mask_path root_dir (new_mask_path mask_path root_dir i, m) = false.
Proof.
  unfold is_image_frame, is_mask_frame, new_mask_path, path_eqb; cbn [fst].
  rewrite parent_joinpath. split.
  - now apply bool_decide_eq_true_2.
  - apply bool_decide_eq_false_2. intros H.
    symmetry in H. exact (image_directory_not_mask_directory _ _ H).
Qed.

Lemma frame_writes_count mask_path root_dir l : forall start,
  length (List.filter (is_image_frame mask_path root_dir)
            (frame_writes mask_path root_dir start l)) = length l
  /\ length (List.filter (is_mask_frame mask_path root_dir)
               (frame_writes mask_path root_dir start l)) = length l.
Proof.
  induction l as [|[mf imf] l IH]; intros start; cbn [frame_writes List.filter].
  - auto.
  - destruct (is_image_frame_image mask_path root_dir start (Mat_u8 (rescale_frame imf)))
      as [-> ->].
    destruct (is_mask_frame_mask mask_path root_dir start (Mat_f64 mf)) as [-> ->].
    destruct (IH (S start)) as [H1 H2]. cbn [length]. now rewrite H1, H2.
Qed.

(** * The claims *)

(** ** Shape assertion *)

(** C1. When the mask volume and the image volume have different shapes,
    [save_kits19_frames] raises and the list of written frames is the one
    it started with: no image or mask frame has been written.  The
    exception is the shape assertion's as soon as the root directory
    could be made (the only step before the assertion that can raise once
    both files are there). *)
Theorem C1_shape_mismatch_raises_before_any_write
    mask_path root_dir window_level make_binary w mask_data image_data :
  lookup_nifti mask_path w = Some mask_data ->
  lookup_nifti (parent mask_path // "imaging.nii.gz") w = Some image_data ->
  shape mask_data <> shape image_data ->
  exists e w',
    save_kits19_frames mask_path root_dir window_level make_binary w = (inl e, w')
    /\ written w' = written w
    /\ (forall w1, mkdir root_dir w = (inr tt, w1) -> mask_path <> [] ->
        e = AssertionError
              (String.append "Mask and image shape of "
                 (String.append (path_str mask_path) " are not equal"))).
Proof. apply save_kits19_frames_shape_mismatch. Qed.

Lemma C1_witness :
  exists e w',
    save_kits19_frames Demo.mask_path Demo.root_dir Demo.window true Demo.w_mismatch
    = (inl e, w')
    /\ written w' = written Demo.w_mismatch
    /\ (forall w1, mkdir Demo.root_dir Demo.w_mismatch = (inr tt, w1) ->
        Demo.mask_path <> [] ->
        e = AssertionError
              (String.append "Mask and image shape of "
                 (String.append (path_str Demo.mask_path) " are not equal"))).
Proof.
  apply (C1_shape_mismatch_raises_before_any_write
           Demo.mask_path Demo.root_dir Demo.window true Demo.w_mismatch
           Demo.mask Demo.image_short).
  - reflexivity.
  - reflexivity.
  - vm_compute. discriminate.
Defined.

(** The run on the mismatched demo case, evaluated. *)
Example shape_mismatch_run :
  save_kits19_frames Demo.mask_path Demo.root_dir Demo.window true Demo.w_mismatch
  = (inl (AssertionError
            "Mask and image shape of /data/case_00002/segmentation.nii.gz are not equal"),
     {| nifti_files := nifti_files Demo.w_mismatch;
        directories := directories Demo.w_mismatch ++ [Demo.root_dir];
        written := [] |}).
Proof. vm_compute. reflexivity. Qed.

(** ** Binarization *)

Lemma lookup_map {A B} (g : A -> B) (l : list A) k :
  map g l !! k = g <$> (l !! k).
Proof. change (map g l) with (g <$> l). apply list_lookup_fmap. Qed.

Lemma slice_binarize_true mask_data i :
  slice (binarize true mask_data) i
  = map_pixels (fun v => if F64.ltb F64.zero v then F64.one else v) (slice mask_data i).
Proof. apply slice_map_voxels. Qed.

Lemma leb_zero_cases v :
  F64.leb F64.zero v = true -> F64.ltb F64.zero v = true \/ F64.is_zero v = true.
Proof.
  unfold F64.leb, F64.ltb, SFleb, SFltb.
  float_cases v; simpl; auto; discriminate.
Qed.

Lemma ltb_zero_not_zero v : F64.ltb F64.zero v = true -> F64.is_zero v = false.
Proof. destruct v as [[]|[]| |[]]; simpl; auto; discriminate. Qed.

Lemma is_zero_not_ltb v : F64.is_zero v = true -> F64.ltb F64.zero v = false.
Proof. destruct v as [[]|[]| |[]]; simpl; auto; discriminate. Qed.

(** The class indices 1 to 255 are above zero as [float64] values. *)
Lemma class_index_above_zero n :
  (0 < n <= 255)%Z -> F64.ltb F64.zero (F64.of_Z n) = true.
Proof.
  intros Hn.
  assert (forallb (fun k => F64.ltb F64.zero (F64.of_Z (Z.of_nat k))) (seq 1 255) = true)
    as Hall by (vm_compute; reflexivity).
  rewrite forallb_forall in Hall.
  specialize (Hall (Z.to_nat n)). rewrite Z2Nat.id in Hall by lia.
  apply Hall, in_seq. lia.
Qed.

(** What the masked assignment [mask_data[mask_data > 0] = 1] makes of one
    value. *)
Lemma binarized_label v :
  let u := if F64.ltb F64.zero v then F64.one else v in
  (F64.ltb F64.zero v = true -> u = F64.one)
  /\ (F64.is_zero v = true -> u = v)
  /\ (F64.leb F64.zero v = true ->
      (F64.ltb F64.zero v = false -> u = v /\ F64.is_zero u = true)
      /\ (F64.is_zero v = false -> u = F64.one)
      /\ (forall n, (0 <= n <= 255)%Z -> v = F64.of_Z n ->
          u = if (0 <? n)%Z then F64.one else F64.zero)).
Proof.
  cbv zeta. split; [now intros ->|]. split.
  { intros Hz. now rewrite (is_zero_not_ltb _ Hz). }
  intros Hle. destruct (leb_zero_cases v Hle) as [Hp|Hz].
  - rewrite Hp. split; [discriminate|]. split; [reflexivity|].
    intros n Hn ->. destruct (Z.ltb_spec 0 n) as [_|H0]; [reflexivity|].
    assert (n = 0%Z) as -> by lia. discriminate Hp.
  - rewrite (is_zero_not_ltb _ Hz). split; [auto|]. split; [congruence|].
    intros n Hn ->. destruct (Z.ltb_spec 0 n) as [H0|H0].
    + assert (F64.ltb F64.zero (F64.of_Z n) = true) as Hp
        by (apply class_index_above_zero; lia).
      apply ltb_zero_not_zero in Hp. congruence.
    + assert (n = 0%Z) as -> by lia. reflexivity.
Qed.

(** C2.  Label values are class indices, numbers that are not below
    zero.  With [make_binary] set, a completed run stores and hands to
    [imwrite], for every slice of the mask volume, a frame that holds in
    the place of each such label [v] the value 1 if [v > 0] and the zero
    that [v] is otherwise: every label that is not a zero has become 1
    before the volume is sliced.  For a class index [n] up to 255 the
    value is [1.0] when [0 < n] and [0.0] when [n = 0].  (That a label
    above zero becomes 1 and a zero stays holds for any value.) *)
Theorem C2_binarize_label_to_one_or_zero
    mask_path root_dir window_level w w' mask_data :
  save_kits19_frames mask_path root_dir window_level true w = (inr tt, w') ->
  lookup_nifti mask_path w = Some mask_data ->
  forall i, (i < depth mask_data)%nat ->
  exists fr,
    new_writes w w' !! (2 * i + 1)%nat
    = Some (new_mask_path mask_path root_dir i, Mat_f64 fr)
    /\ fr = slice (binarize true mask_data) i
    /\ fshape fr = (height mask_data, width mask_data)
    /\ length (pixels fr) = length (pixels (slice mask_data i))
    /\ forall k v, pixels (slice mask_data i) !! k = Some v ->
       exists u,
         pixels fr !! k = Some u
         /\ (F64.ltb F64.zero v = true -> u = F64.one)
         /\ (F64.is_zero v = true -> u = v)
         /\ (F64.leb F64.zero v = true ->
             (F64.ltb F64.zero v = false -> u = v /\ F64.is_zero u = true)
             /\ (F64.is_zero v = false -> u = F64.one)
             /\ (forall n, (0 <= n <= 255)%Z -> v = F64.of_Z n ->
                 u = if (0 <? n)%Z then F64.one else F64.zero)).
Proof.
  intros Hrun L i Hi.
  apply save_kits19_frames_frames in Hrun
    as (mask_data' & image_data & L1 & _ & Hs & _ & Hfr).
  rewrite L in L1. injection L1 as <-.
  destruct (Hfr i) as (_ & _ & Hm).
  { unfold depth in *. now rewrite <- Hs. }
  exists (slice (binarize true mask_data) i). split; [exact Hm|].
  split; [reflexivity|].
  rewrite slice_binarize_true. split; [reflexivity|].
  split; [cbn [map_pixels pixels]; apply length_map|].
  intros k v Hk. cbn [map_pixels pixels]. rewrite lookup_map, Hk.
  cbn [fmap option_fmap option_map].
  eexists. split; [reflexivity|]. apply binarized_label.
Qed.

Lemma C2_witness :
  exists fr,
    new_writes Demo.w0 (snd (save_kits19_frames Demo.mask_path Demo.root_dir Demo.window
                               true Demo.w0)) !! (2 * 0 + 1)%nat
    = Some (new_mask_path Demo.mask_path Demo.root_dir 0, Mat_f64 fr)
    /\ fr = slice (binarize true Demo.mask) 0
    /\ fshape fr = (height Demo.mask, width Demo.mask)
    /\ length (pixels fr) = length (pixels (slice Demo.mask 0))
    /\ forall k v, pixels (slice Demo.mask 0) !! k = Some v ->
       exists u,
         pixels fr !! k = Some u
         /\ (F64.ltb F64.zero v = true -> u = F64.one)
         /\ (F64.is_zero v = true -> u = v)
         /\ (F64.leb F64.zero v = true ->
             (F64.ltb F64.zero v = false -> u = v /\ F64.is_zero u = true)
             /\ (F64.is_zero v = false -> u = F64.one)
             /\ (forall n, (0 <= n <= 255)%Z -> v = F64.of_Z n ->
                 u = if (0 <? n)%Z then F64.one else F64.zero)).
Proof.
  apply (C2_binarize_label_to_one_or_zero
           Demo.mask_path Demo.root_dir Demo.window Demo.w0 _ Demo.mask).
  - vm_compute. reflexivity.
  - reflexivity.
  - vm_compute. lia.
Defined.

(** The labels 0, 1, 2 of the first demo slice are stored and handed to
    [imwrite] as 0, 1, 1. *)
Example first_mask_frame_binarized :
  new_writes Demo.w0
    (snd (save_kits19_frames Demo.mask_path Demo.root_dir Demo.window true Demo.w0))
    !! 1%nat
  = Some (["kits19_frames"; "case_00002"; "segmentation_frames"; "case_00002_0000.png"],
          Mat_f64 {| fshape := (1, 3)%nat; pixels := map F64.of_Z [0; 1; 1] |}).
Proof. vm_compute. reflexivity. Qed.

(** Below zero there is no class index.  The comparison [mask_data > 0]
    is false for such a value, so that the assignment passes it by: in
    the demo case with a -1 in the first slice, [imwrite] is handed that
    -1 (what the PNG encoder makes of it is outside this model). *)
Example value_below_zero_is_passed_by :
  F64.leb F64.zero (F64.of_Z (-1)) = false
  /\ exists w',
       save_kits19_frames Demo.mask_path Demo.root_dir Demo.window true Demo.w_negative
       = (inr tt, w')
       /\ new_writes Demo.w_negative w' !! 1%nat
          = Some (new_mask_path Demo.mask_path Demo.root_dir 0,
                  Mat_f64 {| fshape := (1, 3)%nat;
                             pixels := [F64.of_Z (-1); F64.one; F64.one] |}).
Proof.
  split; [reflexivity|]. eexists. split; vm_compute; reflexivity.
Qed.

(** ** Min-max rescaling of the image frames *)

(** C3. For every slice index [i] of a completed run, the frame handed to
    [imwrite] for the image is the slice of the (windowed) volume with
    every pixel [v] replaced by [(v - lo) / (hi - lo) * 255] cast to
    [uint8], where [lo] and [hi] are the results of [min()] and [max()]
    on that same slice; without NaN in the slice they are its least and
    its greatest pixel. *)
Theorem C3_image_frame_is_min_max_rescaled
    mask_path root_dir window_level make_binary w w' image_data :
  save_kits19_frames mask_path root_dir window_level make_binary w = (inr tt, w') ->
  lookup_nifti (parent mask_path // "imaging.nii.gz") w = Some image_data ->
  forall i, (i < depth image_data)%nat ->
  let image_frame := slice (apply_window window_level image_data) i in
  exists lo hi,
    frame_min image_frame = inr lo
    /\ frame_max image_frame = inr hi
    /\ new_writes w w' !! (2 * i)%nat
       = Some (new_image_path mask_path root_dir i,
               Mat_u8 {| fshape := fshape image_frame;
                         pixels :=
                           map (fun v =>
                                  astype_uint8
                                    (F64.mul (F64.div (F64.sub v lo) (F64.sub hi lo))
                                       F64.c255))
                             (pixels image_frame) |})
    /\ (no_nan (pixels image_frame) ->
        In lo (pixels image_frame) /\ In hi (pixels image_frame)
        /\ Forall (fun p => F64.leb lo p = true /\ F64.leb p hi = true)
             (pixels image_frame)).
Proof.
  intros Hrun L i Hi image_frame.
  apply save_kits19_frames_frames in Hrun
    as (mask_data & image_data' & _ & L2 & _ & _ & Hfr).
  rewrite L in L2. injection L2 as <-.
  destruct (Hfr i Hi) as (Hne & Him & _).
  destruct (rescale_frame_pixels _ Hne) as (lo & hi & Hlo & Hhi & Hr).
  exists lo, hi.
  split; [exact Hlo|]. split; [exact Hhi|]. split.
  - rewrite Him, Hr. reflexivity.
  - intros Hn.
    destruct (frame_min_is_minimum _ _ Hn Hlo) as [I1 F1].
    destruct (frame_max_is_maximum _ _ Hn Hhi) as [I2 F2].
    split; [exact I1|]. split; [exact I2|].
    rewrite List.Forall_forall in F1, F2.
    apply List.Forall_forall. intros p Hp. auto.
Qed.

Lemma C3_witness :
  let image_frame := slice (apply_window Demo.window Demo.image) 0 in
  exists lo hi,
    frame_min image_frame = inr lo
    /\ frame_max image_frame = inr hi
    /\ new_writes Demo.w0
         (snd (save_kits19_frames Demo.mask_path Demo.root_dir Demo.window true Demo.w0))
         !! (2 * 0)%nat
       = Some (new_image_path Demo.mask_path Demo.root_dir 0,
               Mat_u8 {| fshape := fshape image_frame;
                         pixels :=
                           map (fun v =>
                                  astype_uint8
                                    (F64.mul (F64.div (F64.sub v lo) (F64.sub hi lo))
                                       F64.c255))
                             (pixels image_frame) |})
    /\ (no_nan (pixels image_frame) ->
        In lo (pixels image_frame) /\ In hi (pixels image_frame)
        /\ Forall (fun p => F64.leb lo p = true /\ F64.leb p hi = true)
             (pixels image_frame)).
Proof.
  apply (C3_image_frame_is_min_max_rescaled
           Demo.mask_path Demo.root_dir Demo.window true Demo.w0 _ Demo.image).
  - vm_compute. reflexivity.
  - reflexivity.
  - vm_compute. lia.
Defined.

(** The first image frame of the demo case: -1000, 50 and 400 are
    clipped to -125, 50 and 225, and come out as 0, 127 and 255. *)
Example first_image_frame :
  new_writes Demo.w0
    (snd (save_kits19_frames Demo.mask_path Demo.root_dir Demo.window true Demo.w0))
    !! 0%nat
  = Some (["kits19_frames"; "case_00002"; "imaging_frames"; "case_00002_0000.jpg"],
          Mat_u8 {| fshape := (1, 3)%nat; pixels := [0; 127; 255] |}).
Proof. vm_compute. reflexivity. Qed.

Lemma rescale_frame_range fr :
  Forall (fun v => 0 <= v <= 255) (pixels (rescale_frame fr)).
Proof.
  unfold rescale_frame, rescale.
  destruct (frame_min fr), (frame_max fr); cbn [map_pixels pixels];
    apply List.Forall_forall; intros v Hv; apply in_map_iff in Hv as (x & <- & _);
    apply astype_uint8_range.
Qed.

Lemma frame_writes_u8 mask_path root_dir l : forall start p fr,
  In (p, Mat_u8 fr) (frame_writes mask_path root_dir start l) ->
  exists image_frame, fr = rescale_frame image_frame.
Proof.
  induction l as [|[mf imf] l IH]; intros start p fr; cbn [frame_writes In].
  - intros [].
  - intros [[= _ <-]|[[=]|H]]; eauto.
Qed.

(** C4. In a completed run every frame of 8-bit pixels handed to
    [imwrite], and there is one for each slice of the image volume, has
    all its pixels between 0 and 255. *)
Theorem C4_image_pixels_within_0_255
    mask_path root_dir window_level make_binary w w' image_data :
  save_kits19_frames mask_path root_dir window_level make_binary w = (inr tt, w') ->
  lookup_nifti (parent mask_path // "imaging.nii.gz") w = Some image_data ->
  (forall i, (i < depth image_data)%nat ->
     exists fr,
       new_writes w w' !! (2 * i)%nat
       = Some (new_image_path mask_path root_dir i, Mat_u8 fr)
       /\ Forall (fun v => 0 <= v <= 255) (pixels fr))
  /\ (forall p fr, In (p, Mat_u8 fr) (new_writes w w') ->
      Forall (fun v => 0 <= v <= 255) (pixels fr)).
Proof.
  intros Hrun L.
  apply save_kits19_frames_frames in Hrun
    as (mask_data & image_data' & _ & L2 & _ & Hnew & Hfr).
  rewrite L in L2. injection L2 as <-. split.
  - intros i Hi. destruct (Hfr i Hi) as (_ & Him & _).
    eexists. split; [exact Him|]. apply rescale_frame_range.
  - intros p fr Hin. rewrite Hnew in Hin.
    apply frame_writes_u8 in Hin as [image_frame ->]. apply rescale_frame_range.
Qed.

Lemma C4_witness :
  (forall i, (i < depth Demo.image)%nat ->
     exists fr,
       new_writes Demo.w0
         (snd (save_kits19_frames Demo.mask_path Demo.root_dir None false Demo.w0))
         !! (2 * i)%nat
       = Some (new_image_path Demo.mask_path Demo.root_dir i, Mat_u8 fr)
       /\ Forall (fun v => 0 <= v <= 255) (pixels fr))
  /\ (forall p fr,
      In (p, Mat_u8 fr)
        (new_writes Demo.w0
           (snd (save_kits19_frames Demo.mask_path Demo.root_dir None false Demo.w0))) ->
      Forall (fun v => 0 <= v <= 255) (pixels fr)).
Proof.
  apply (C4_image_pixels_within_0_255
           Demo.mask_path Demo.root_dir None false Demo.w0 _ Demo.image).
  - vm_compute. reflexivity.
  - reflexivity.
Defined.

(** ** Windowing *)

(** C5. With a window [(low, high)], [low <= high], windowing leaves the
    shape alone and takes every voxel [x] to [x] when
    [low <= x <= high], to [low] when [x < low] and to [high] when
    [x > high]. *)
Theorem C5_window_is_clamp low high image_data :
  F64.leb low high = true ->
  shape (apply_window (Some (low, high)) image_data) = shape image_data
  /\ length (voxels (apply_window (Some (low, high)) image_data))
     = length (voxels image_data)
  /\ forall k x, voxels image_data !! k = Some x ->
     exists y,
       voxels (apply_window (Some (low, high)) image_data) !! k = Some y
       /\ (F64.leb low x = true -> F64.leb x high = true -> y = x)
       /\ (F64.ltb x low = true -> y = low)
       /\ (F64.ltb high x = true -> y = high).
Proof.
  intros Hlh. split; [reflexivity|].
  split; [cbn; now rewrite !length_map|].
  intros k x Hk.
  cbn [apply_window assign_where_gt assign_where_lt map_voxels voxels].
  rewrite !lookup_map, Hk. cbn [fmap option_fmap option_map].
  eexists. split; [reflexivity|]. split; [|split].
  - intros H1 H2.
    rewrite (leb_ltb_false _ _ H1). now rewrite (leb_ltb_false _ _ H2).
  - intros H1. rewrite H1. now rewrite (leb_ltb_false _ _ Hlh).
  - intros H1. rewrite (leb_ltb_trans_false _ _ _ Hlh H1). now rewrite H1.
Qed.

Lemma C5_witness :
  shape (apply_window (Some (F64.of_Z (-125), F64.of_Z 225)) Demo.image)
  = shape Demo.image
  /\ length (voxels (apply_window (Some (F64.of_Z (-125), F64.of_Z 225)) Demo.image))
     = length (voxels Demo.image)
  /\ forall k x, voxels Demo.image !! k = Some x ->
     exists y,
       voxels (apply_window (Some (F64.of_Z (-125), F64.of_Z 225)) Demo.image) !! k
       = Some y
       /\ (F64.leb (F64.of_Z (-125)) x = true -> F64.leb x (F64.of_Z 225) = true -> y = x)
       /\ (F64.ltb x (F64.of_Z (-125)) = true -> y = F64.of_Z (-125))
       /\ (F64.ltb (F64.of_Z 225) x = true -> y = F64.of_Z 225).
Proof.
  apply (C5_window_is_clamp (F64.of_Z (-125)) (F64.of_Z 225) Demo.image).
  vm_compute. reflexivity.
Defined.

(** The demo volume under the soft-tissue window. *)
Example window_demo :
  voxels (apply_window Demo.window Demo.image)
  = map F64.of_Z [-125; 50; 225; 7; 7; 7].
Proof. vm_compute. reflexivity. Qed.

(** ** Number of frames *)

Lemma length_zip_iter a b :
  shape a = shape b -> length (zip (iter a) (iter b)) = depth b.
Proof.
  intros Hs. rewrite length_zip_with, !iter_length. unfold depth. rewrite Hs. lia.
Qed.

(** C6. A completed run has made, for the [shape[0]] slices of the
    volume, exactly [shape[0]] write calls into the image directory and
    [shape[0]] into the mask directory and no other: slice [i] has its
    image frame under the [i]-th image name and its mask frame under the
    [i]-th mask name, and no two calls share a path, so that they are as
    many files. *)
Theorem C6_one_image_and_one_mask_frame_per_slice
    mask_path root_dir window_level make_binary w w' image_data :
  save_kits19_frames mask_path root_dir window_level make_binary w = (inr tt, w') ->
  lookup_nifti (parent mask_path // "imaging.nii.gz") w = Some image_data ->
  length (List.filter (is_image_frame mask_path root_dir) (new_writes w w'))
  = fst (fst (shape image_data))
  /\ length (List.filter (is_mask_frame mask_path root_dir) (new_writes w w'))
     = fst (fst (shape image_data))
  /\ length (new_writes w w') = (2 * fst (fst (shape image_data)))%nat
  /\ List.NoDup (map fst (new_writes w w'))
  /\ forall i, (i < fst (fst (shape image_data)))%nat ->
     exists image_frame mask_frame,
       new_writes w w' !! (2 * i)%nat
       = Some (new_image_path mask_path root_dir i, Mat_u8 image_frame)
       /\ new_writes w w' !! (2 * i + 1)%nat
          = Some (new_mask_path mask_path root_dir i, Mat_f64 mask_frame).
Proof.
  intros Hrun L.
  apply save_kits19_frames_frames in Hrun
    as (mask_data & image_data' & _ & L2 & Hs & Hnew & Hfr).
  rewrite L in L2. injection L2 as <-.
  assert (length (zip (iter (binarize make_binary mask_data))
                      (iter (apply_window window_level image_data)))
          = fst (fst (shape image_data))) as Hlen.
  { rewrite length_zip_iter.
    - now rewrite depth_apply_window.
    - now rewrite binarize_shape, apply_window_shape. }
  rewrite Hnew.
  destruct (frame_writes_count mask_path root_dir
              (zip (iter (binarize make_binary mask_data))
                   (iter (apply_window window_level image_data))) 0) as [C1 C2].
  rewrite C1, C2, frame_writes_length, Hlen.
  split; [reflexivity|]. split; [reflexivity|]. split; [reflexivity|].
  split; [apply frame_writes_NoDup|].
  intros i Hi. rewrite <- Hnew. destruct (Hfr i Hi) as (_ & H1 & H2). eauto.
Qed.

Lemma C6_witness :
  let w' := snd (save_kits19_frames Demo.mask_path Demo.root_dir Demo.window true Demo.w0) in
  length (List.filter (is_image_frame Demo.mask_path Demo.root_dir) (new_writes Demo.w0 w'))
  = fst (fst (shape Demo.image))
  /\ length (List.filter (is_mask_frame Demo.mask_path Demo.root_dir)
               (new_writes Demo.w0 w'))
     = fst (fst (shape Demo.image))
  /\ length (new_writes Demo.w0 w') = (2 * fst (fst (shape Demo.image)))%nat
  /\ List.NoDup (map fst (new_writes Demo.w0 w'))
  /\ forall i, (i < fst (fst (shape Demo.image)))%nat ->
     exists image_frame mask_frame,
       new_writes Demo.w0 w' !! (2 * i)%nat
       = Some (new_image_path Demo.mask_path Demo.root_dir i, Mat_u8 image_frame)
       /\ new_writes Demo.w0 w' !! (2 * i + 1)%nat
          = Some (new_mask_path Demo.mask_path Demo.root_dir i, Mat_f64 mask_frame).
Proof.
  apply (C6_one_image_and_one_mask_frame_per_slice
           Demo.mask_path Demo.root_dir Demo.window true Demo.w0 _ Demo.image).
  - vm_compute. reflexivity.
  - reflexivity.
Defined.

(** The names written for the demo case. *)
Example demo_paths :
  map fst
    (new_writes Demo.w0
       (snd (save_kits19_frames Demo.mask_path Demo.root_dir Demo.window true Demo.w0)))
  = [["kits19_frames"; "case_00002"; "imaging_frames"; "case_00002_0000.jpg"];
     ["kits19_frames"; "case_00002"; "segmentation_frames"; "case_00002_0000.png"];
     ["kits19_frames"; "case_00002"; "imaging_frames"; "case_00002_0001.jpg"];
     ["kits19_frames"; "case_00002"; "segmentation_frames"; "case_00002_0001.png"]].
Proof. vm_compute. reflexivity. Qed.

(** ** A slice of equal pixels *)

Lemma eqb_leb a b :
  F64.eqb a b = true -> F64.leb a b = true /\ F64.leb b a = true.
Proof.
  unfold F64.eqb, F64.leb, SFeqb, SFleb.
  float_cases a; float_cases b; order_solve.
Qed.

Lemma eqb_finite_cases p x :
  F64.eqb p x = true -> F64.is_finite x = true ->
  p = x \/ (F64.is_zero p = true /\ F64.is_zero x = true).
Proof.
  unfold F64.eqb, SFeqb.
  float_cases p; float_cases x; simpl; try congruence; auto;
    cmp_cases; simpl; intros; subst; try congruence; auto.
Qed.

Lemma sub_eqb_finite p x :
  F64.eqb p x = true -> F64.is_finite x = true -> F64.is_zero (F64.sub p x) = true.
Proof.
  intros He Hf. destruct (eqb_finite_cases p x He Hf) as [->|[Hp Hx]].
  - now rewrite sub_diag_finite.
  - destruct p as [[]| | |]; try discriminate;
      destruct x as [[]| | |]; try discriminate; reflexivity.
Qed.

Lemma div_zero_zero a b :
  F64.is_zero a = true -> F64.is_zero b = true -> F64.div a b = F64.nan.
Proof.
  destruct a; try discriminate. destruct b; try discriminate. reflexivity.
Qed.

Lemma fold_min_step_equal l : forall x,
  Forall (fun p => F64.eqb p x = true) l -> fold_left min_step l x = x.
Proof.
  induction l as [|y l IH]; intros x Hl; [reflexivity|].
  inversion Hl as [|? ? Hy Hl']; subst. cbn [fold_left].
  unfold min_step at 2. destruct (eqb_leb _ _ Hy) as [_ ->]. now apply IH.
Qed.

Lemma fold_max_step_equal l : forall x,
  Forall (fun p => F64.eqb p x = true) l -> fold_left max_step l x = x.
Proof.
  induction l as [|y l IH]; intros x Hl; [reflexivity|].
  inversion Hl as [|? ? Hy Hl']; subst. cbn [fold_left].
  unfold max_step at 2. destruct (eqb_leb _ _ Hy) as [-> _]. now apply IH.
Qed.

Lemma eqb_refl_finite x : F64.is_finite x = true -> F64.eqb x x = true.
Proof.
  intros Hf. assert (F64.is_nan x = false) as Hn by (destruct x; auto; discriminate).
  pose proof (leb_refl x Hn) as H. unfold F64.eqb, F64.leb, SFeqb, SFleb in *.
  destruct (SFcompare x x) as [[]|] eqn:E; try congruence.
  exfalso. revert E. destruct x as [[]|[]| |[] m e]; simpl; try congruence;
    rewrite Z.compare_refl; change (Pos.compare_cont Eq m m) with (Pos.compare m m);
    rewrite Pos.compare_refl; discriminate.
Qed.

(** A slice whose pixels are all [+inf] has equal pixels, and equal
    minimum and maximum, but the denominator of its rescale is
    [inf - inf], which is NaN and not 0. *)
Lemma C7_infinite_slice_denominator_is_nan :
  Forall (fun p => F64.eqb p F64.pinf = true) (pixels Demo.infinite_frame)
  /\ frame_min Demo.infinite_frame = inr F64.pinf
  /\ frame_max Demo.infinite_frame = inr F64.pinf
  /\ F64.sub F64.pinf F64.pinf = F64.nan
  /\ F64.is_zero (F64.sub F64.pinf F64.pinf) = false
  /\ F64.eqb (F64.sub F64.pinf F64.pinf) F64.zero = false.
Proof.
  split; [repeat constructor|]. repeat split; reflexivity.
Qed.

(** C7, amended.  For a slice whose pixels all compare equal to a finite
    value, [min()] and [max()] both return that value, the denominator
    [max - min] is 0, every pixel is divided by it, as 0 / 0 with result
    NaN, and the loop body goes on to write the frame: nothing checks
    for the case. *)
Theorem C7_equal_finite_pixels_divide_by_zero image_frame x l :
  pixels image_frame = x :: l ->
  Forall (fun p => F64.eqb p x = true) l ->
  F64.is_finite x = true ->
  frame_min image_frame = inr x
  /\ frame_max image_frame = inr x
  /\ F64.sub x x = F64.zero
  /\ Forall (fun p => F64.is_zero (F64.sub p x) = true
                      /\ F64.div (F64.sub p x) (F64.sub x x) = F64.nan)
       (pixels image_frame)
  /\ forall case idir mdir i mask_frame w,
       save_frame case idir mdir i (mask_frame, image_frame) w
       = (inr tt,
          add_written w
            [(idir // frame_file_name case i ".jpg",
              Mat_u8 (map_pixels
                        (fun _ => astype_uint8 (F64.mul F64.nan F64.c255)) image_frame));
             (mdir // frame_file_name case i ".png", Mat_f64 mask_frame)]).
Proof.
  intros E Hl Hf.
  assert (frame_min image_frame = inr x) as Hmin.
  { rewrite (frame_min_pixels _ _ _ E). now rewrite fold_min_step_equal. }
  assert (frame_max image_frame = inr x) as Hmax.
  { rewrite (frame_max_pixels _ _ _ E). now rewrite fold_max_step_equal. }
  assert (Forall (fun p => F64.is_zero (F64.sub p x) = true
                           /\ F64.div (F64.sub p x) (F64.sub x x) = F64.nan)
            (pixels image_frame)) as Hall.
  { rewrite E. apply List.Forall_forall. intros p Hp.
    assert (F64.eqb p x = true) as He.
    { destruct Hp as [<-|Hp]; [now apply eqb_refl_finite|].
      rewrite List.Forall_forall in Hl. auto. }
    pose proof (sub_eqb_finite p x He Hf) as Hz. split; [exact Hz|].
    apply div_zero_zero; [exact Hz|]. now rewrite sub_diag_finite. }
  split; [exact Hmin|]. split; [exact Hmax|].
  split; [now apply sub_diag_finite|]. split; [exact Hall|].
  intros case idir mdir i mask_frame w.
  unfold save_frame, bind, lift, imwrite. rewrite Hmin, Hmax.
  rewrite add_written_app, !map_pixels_compose. cbn [app].
  assert (forall g h : F64.t -> Z,
            map g (pixels image_frame) = map h (pixels image_frame) ->
            map_pixels g image_frame = map_pixels h image_frame) as Hext.
  { intros g h Hgh. unfold map_pixels. now rewrite Hgh. }
  erewrite Hext; [reflexivity|].
  apply map_ext_in. intros p Hp.
  rewrite List.Forall_forall in Hall. destruct (Hall p Hp) as [_ ->]. reflexivity.
Qed.

Lemma C7_witness :
  frame_min Demo.flat_frame = inr (F64.of_Z 7)
  /\ frame_max Demo.flat_frame = inr (F64.of_Z 7)
  /\ F64.sub (F64.of_Z 7) (F64.of_Z 7) = F64.zero
  /\ Forall (fun p => F64.is_zero (F64.sub p (F64.of_Z 7)) = true
                      /\ F64.div (F64.sub p (F64.of_Z 7))
                           (F64.sub (F64.of_Z 7) (F64.of_Z 7)) = F64.nan)
       (pixels Demo.flat_frame)
  /\ forall case idir mdir i mask_frame w,
       save_frame case idir mdir i (mask_frame, Demo.flat_frame) w
       = (inr tt,
          add_written w
            [(idir // frame_file_name case i ".jpg",
              Mat_u8 (map_pixels
                        (fun _ => astype_uint8 (F64.mul F64.nan F64.c255))
                        Demo.flat_frame));
             (mdir // frame_file_name case i ".png", Mat_f64 mask_frame)]).
Proof.
  apply (C7_equal_finite_pixels_divide_by_zero Demo.flat_frame (F64.of_Z 7)
           [F64.of_Z 7; F64.of_Z 7]).
  - reflexivity.
  - repeat constructor.
  - reflexivity.
Defined.

(** The second slice of the demo image is such a slice: its frame is
    written, with the pixels the cast makes of NaN. *)
Example flat_slice_frame :
  new_writes Demo.w0
    (snd (save_kits19_frames Demo.mask_path Demo.root_dir Demo.window true Demo.w0))
    !! 2%nat
  = Some (["kits19_frames"; "case_00002"; "imaging_frames"; "case_00002_0001.jpg"],
          Mat_u8 {| fshape := (1, 3)%nat; pixels := [0; 0; 0] |}).
Proof. vm_compute. reflexivity. Qed.

(** ** Slices do not influence each other *)

Lemma slice_apply_window window_level a i :
  slice (apply_window window_level a) i
  = match window_level with
    | Some (window_start, window_end) =>
        map_pixels (fun v => if F64.ltb window_end v then window_end else v)
          (map_pixels (fun v => if F64.ltb v window_start then window_start else v)
             (slice a i))
    | None => slice a i
    end.
Proof.
  destruct window_level as [[ws we]|]; [|reflexivity].
  cbn [apply_window]. unfold assign_where_gt, assign_where_lt.
  now rewrite !slice_map_voxels.
Qed.

Lemma slice_binarize make_binary a i :
  slice (binarize make_binary a) i
  = if make_binary
    then map_pixels (fun v => if F64.ltb F64.zero v then F64.one else v) (slice a i)
    else slice a i.
Proof. destruct make_binary; [apply slice_binarize_true|reflexivity]. Qed.

(** C8. The two write calls of a completed run for slice [i] are given by
    slice [i] of the windowed image volume and slice [i] of the binarized
    mask volume alone; so two completed runs on volumes that agree on
    slice [i], whatever their other slices hold, make the same two calls
    for [i]. *)
Theorem C8_frames_of_a_slice_depend_on_that_slice_only
    mask_path root_dir window_level make_binary
    w1 w1' mask1 image1 w2 w2' mask2 image2 i :
  save_kits19_frames mask_path root_dir window_level make_binary w1 = (inr tt, w1') ->
  save_kits19_frames mask_path root_dir window_level make_binary w2 = (inr tt, w2') ->
  lookup_nifti mask_path w1 = Some mask1 ->
  lookup_nifti (parent mask_path // "imaging.nii.gz") w1 = Some image1 ->
  lookup_nifti mask_path w2 = Some mask2 ->
  lookup_nifti (parent mask_path // "imaging.nii.gz") w2 = Some image2 ->
  (i < depth image1)%nat -> (i < depth image2)%nat ->
  slice image1 i = slice image2 i ->
  slice mask1 i = slice mask2 i ->
  new_writes w1 w1' !! (2 * i)%nat
  = Some (new_image_path mask_path root_dir i,
          Mat_u8 (rescale_frame (slice (apply_window window_level image1) i)))
  /\ new_writes w1 w1' !! (2 * i + 1)%nat
     = Some (new_mask_path mask_path root_dir i,
             Mat_f64 (slice (binarize make_binary mask1) i))
  /\ new_writes w2 w2' !! (2 * i)%nat = new_writes w1 w1' !! (2 * i)%nat
  /\ new_writes w2 w2' !! (2 * i + 1)%nat = new_writes w1 w1' !! (2 * i + 1)%nat.
Proof.
  intros R1 R2 M1 I1 M2 I2 H1 H2 Him Hmk.
  apply save_kits19_frames_frames in R1 as (m1 & i1 & M1' & I1' & _ & _ & F1).
  apply save_kits19_frames_frames in R2 as (m2 & i2 & M2' & I2' & _ & _ & F2).
  rewrite M1 in M1'. rewrite I1 in I1'. rewrite M2 in M2'. rewrite I2 in I2'.
  injection M1' as <-. injection I1' as <-. injection M2' as <-. injection I2' as <-.
  destruct (F1 i H1) as (_ & A1 & B1). destruct (F2 i H2) as (_ & A2 & B2).
  split; [exact A1|]. split; [exact B1|].
  rewrite A1, A2, B1, B2.
  rewrite !slice_apply_window, !slice_binarize, Him, Hmk. split; reflexivity.
Qed.

Lemma C8_witness :
  let w1' := snd (save_kits19_frames Demo.mask_path Demo.root_dir Demo.window true Demo.w0) in
  let w2' := snd (save_kits19_frames Demo.mask_path Demo.root_dir Demo.window true
                    Demo.w_negative) in
  new_writes Demo.w0 w1' !! (2 * 1)%nat
  = Some (new_image_path Demo.mask_path Demo.root_dir 1,
          Mat_u8 (rescale_frame (slice (apply_window Demo.window Demo.image) 1)))
  /\ new_writes Demo.w0 w1' !! (2 * 1 + 1)%nat
     = Some (new_mask_path Demo.mask_path Demo.root_dir 1,
             Mat_f64 (slice (binarize true Demo.mask) 1))
  /\ new_writes Demo.w_negative w2' !! (2 * 1)%nat = new_writes Demo.w0 w1' !! (2 * 1)%nat
  /\ new_writes Demo.w_negative w2' !! (2 * 1 + 1)%nat
     = new_writes Demo.w0 w1' !! (2 * 1 + 1)%nat.
Proof.
  apply (C8_frames_of_a_slice_depend_on_that_slice_only
           Demo.mask_path Demo.root_dir Demo.window true
           Demo.w0 _ Demo.mask Demo.image Demo.w_negative _ Demo.mask_negative Demo.image 1).
  - vm_compute. reflexivity.
  - vm_compute. reflexivity.
  - reflexivity.
  - reflexivity.
  - reflexivity.
  - reflexivity.
  - vm_compute. lia.
  - vm_compute. lia.
  - reflexivity.
  - vm_compute. reflexivity.
Defined.

(** ** The mask frames *)

(** C9.  Whatever the window level, the mask frame a completed run hands
    to [imwrite] for slice [i] is slice [i] of the mask volume as read,
    or with its labels above zero set to 1 when [make_binary] is set:
    [float64] values that were neither clipped nor rescaled.  With
    [make_binary] set, a label (a class index, not below zero) comes out
    as 1 or as a zero. *)
Theorem C9_mask_frame_is_neither_windowed_nor_rescaled
    mask_path root_dir window_level make_binary w w' mask_data :
  save_kits19_frames mask_path root_dir window_level make_binary w = (inr tt, w') ->
  lookup_nifti mask_path w = Some mask_data ->
  forall i, (i < depth mask_data)%nat ->
  new_writes w w' !! (2 * i + 1)%nat
  = Some (new_mask_path mask_path root_dir i,
          Mat_f64 (if make_binary
                   then map_pixels (fun v => if F64.ltb F64.zero v then F64.one else v)
                          (slice mask_data i)
                   else slice mask_data i))
  /\ (make_binary = true ->
      forall k v, pixels (slice mask_data i) !! k = Some v ->
      F64.leb F64.zero v = true ->
      exists u,
        pixels (slice (binarize make_binary mask_data) i) !! k = Some u
        /\ (u = F64.one \/ F64.is_zero u = true)).
Proof.
  intros Hrun L i Hi.
  apply save_kits19_frames_frames in Hrun
    as (mask_data' & image_data & L1 & _ & Hs & _ & Hfr).
  rewrite L in L1. injection L1 as <-.
  destruct (Hfr i) as (_ & _ & Hm).
  { unfold depth in *. now rewrite <- Hs. }
  split.
  - rewrite Hm. now rewrite slice_binarize.
  - intros -> k v Hk Hv. rewrite slice_binarize_true.
    cbn [map_pixels pixels]. rewrite lookup_map, Hk. cbn [fmap option_fmap option_map].
    eexists. split; [reflexivity|].
    destruct (leb_zero_cases v Hv) as [Hp|Hz].
    + rewrite Hp. now left.
    + right. destruct v as [[]| | |]; try discriminate; reflexivity.
Qed.

Lemma C9_witness :
  new_writes Demo.w0
    (snd (save_kits19_frames Demo.mask_path Demo.root_dir Demo.window true Demo.w0))
    !! (2 * 0 + 1)%nat
  = Some (new_mask_path Demo.mask_path Demo.root_dir 0,
          Mat_f64 (if true
                   then map_pixels (fun v => if F64.ltb F64.zero v then F64.one else v)
                          (slice Demo.mask 0)
                   else slice Demo.mask 0))
  /\ (true = true ->
      forall k v, pixels (slice Demo.mask 0) !! k = Some v ->
      F64.leb F64.zero v = true ->
      exists u,
        pixels (slice (binarize true Demo.mask) 0) !! k = Some u
        /\ (u = F64.one \/ F64.is_zero u = true)).
Proof.
  apply (C9_mask_frame_is_neither_windowed_nor_rescaled
           Demo.mask_path Demo.root_dir Demo.window true Demo.w0 _ Demo.mask).
  - vm_compute. reflexivity.
  - reflexivity.
  - vm_compute. lia.
Defined.

(** With the window on and [make_binary] off, the labels 0, 1, 2 of the
    first demo slice are written as they are. *)
Example first_mask_frame_unchanged :
  new_writes Demo.w0
    (snd (save_kits19_frames Demo.mask_path Demo.root_dir Demo.window false Demo.w0))
    !! 1%nat
  = Some (["kits19_frames"; "case_00002"; "segmentation_frames"; "case_00002_0000.png"],
          Mat_f64 {| fshape := (1, 3)%nat; pixels := map F64.of_Z [0; 1; 2] |}).
Proof. vm_compute. reflexivity. Qed.

(** ** The empty sentence *)

Import Translate.

Lemma lstrip_blank s : forallb isspace s = true -> lstrip s = [].
Proof.
  induction s as [|c s IH]; [reflexivity|].
  cbn [forallb lstrip]. intros H. apply andb_true_iff in H as [-> H]. auto.
Qed.

Lemma strip_blank s : forallb isspace s = true -> strip s = [].
Proof. intros H. unfold strip, rstrip. now rewrite (lstrip_blank s H). Qed.

Lemma lstrip_not_blank s : forallb isspace s = false -> lstrip s <> [].
Proof.
  induction s as [|c s IH]; [discriminate|].
  cbn [forallb lstrip]. destruct (isspace c); [exact IH|discriminate].
Qed.

Lemma lstrip_forallb s : forallb isspace (lstrip s) = forallb isspace s.
Proof.
  induction s as [|c s IH]; [reflexivity|].
  cbn [lstrip]. destruct (isspace c) eqn:E; [|reflexivity].
  rewrite IH. cbn [forallb]. now rewrite E.
Qed.

Lemma forallb_rev {A} (f : A -> bool) l : forallb f (rev l) = forallb f l.
Proof.
  induction l as [|a l IH]; [reflexivity|].
  cbn [rev forallb]. rewrite forallb_app, IH. cbn [forallb].
  rewrite andb_true_r. apply andb_comm.
Qed.

(** Only a blank sentence is stripped to nothing. *)
Lemma strip_nil_iff s : strip s = [] <-> forallb isspace s = true.
Proof.
  split; [|apply strip_blank].
  unfold strip, rstrip. intros H.
  destruct (forallb isspace s) eqn:E; [reflexivity|]. exfalso.
  apply (f_equal (@rev N)) in H. rewrite rev_involutive in H. cbn [rev] in H.
  revert H. apply lstrip_not_blank.
  now rewrite forallb_rev, lstrip_forallb.
Qed.

(** C10. For a sentence that is empty or made of white space only,
    whatever the tokenizers and the model are, [translate] strips it to
    the empty string and raises the [AssertionError] of
    [assert len(sentence) > 0], with no call to a tokenizer or to the
    inference request made. *)
Theorem C10_translate_blank_sentence_raises
    src_encode src_token_to_id max_tokens infer tgt_decode lower sentence log :
  forallb isspace sentence = true ->
  strip sentence = []
  /\ translate src_encode src_token_to_id max_tokens infer tgt_decode lower sentence log
     = (inl (AssertionError EmptyString), log).
Proof.
  intros H. pose proof (strip_blank sentence H) as Hs. split; [exact Hs|].
  unfold translate, tbind, tassert. now rewrite Hs.
Qed.

Lemma C10_witness :
  strip (lit "  ") = []
  /\ translate (fun s => map Z.of_N s) (fun _ => 0) 8 (fun l => l)
       (fun l => map Z.to_N l) (fun s => s) (lit "  ") []
     = (inl (AssertionError EmptyString), []).
Proof.
  apply (C10_translate_blank_sentence_raises
           (fun s => map Z.of_N s) (fun _ => 0) 8%nat (fun l => l)
           (fun l => map Z.to_N l) (fun s => s) (lit "  ") []).
  reflexivity.
Defined.

(** A sentence with a word in it passes the assertion and reaches the
    tokenizer. *)
Example translate_reaches_the_tokenizer :
  snd (translate (fun s => map Z.of_N s) (fun _ => 0) 8 (fun l => l)
         (fun l => map Z.to_N l) (fun s => s) (lit " hi ") [])
  = [Encode (lit "hi"); TokenToId (lit "<s>"); TokenToId (lit "</s>");
     TokenToId (lit "<pad>"); Infer [0; 104; 105; 0; 0; 0; 0; 0];
     Decode [0; 104; 105; 0; 0; 0; 0; 0]].
Proof. vm_compute. reflexivity. Qed.

(** * Further properties of the slice extractor *)

(** ** Frame conditions *)

Lemma grows_refl P w : grows P w w.
Proof.
  split; [reflexivity|]. split; [auto|].
  exists []. split; [now rewrite app_nil_r|constructor].
Qed.

Lemma grows_trans P w1 w2 w3 : grows P w1 w2 -> grows P w2 w3 -> grows P w1 w3.
Proof.
  intros (N1 & D1 & n1 & W1 & F1) (N2 & D2 & n2 & W2 & F2).
  split; [congruence|]. split; [auto|].
  exists (n1 ++ n2). split.
  - rewrite W2, W1. now rewrite app_assoc.
  - apply Forall_app. auto.
Qed.

Lemma bind_grows {A B} P (m : M A) (k : A -> M B) w r w' :
  (forall w0 r0 w1, m w0 = (r0, w1) -> grows P w0 w1) ->
  (forall a w0 r0 w1, k a w0 = (r0, w1) -> grows P w0 w1) ->
  bind m k w = (r, w') -> grows P w w'.
Proof.
  intros Hm Hk. unfold bind. destruct (m w) as [[e|a] w1] eqn:E.
  - intros [= <- <-]. eapply Hm, E.
  - intros H. eapply grows_trans; [eapply Hm, E|eapply Hk, H].
Qed.

Lemma mkdir_grows P p w r w' : mkdir p w = (r, w') -> grows P w w'.
Proof.
  unfold mkdir.
  destruct (is_dir p w); [intros [= <- <-]; apply grows_refl|].
  destruct (is_file p w); [intros [= <- <-]; apply grows_refl|].
  destruct (is_dir (parent p) w); intros [= <- <-]; [|apply grows_refl].
  split; [reflexivity|]. split; [intros q; apply is_dir_app|].
  exists []. split; [simpl; now rewrite app_nil_r|constructor].
Qed.

Lemma pure_grows {A} P (x : result A) w r w' : lift x w = (r, w') -> grows P w w'.
Proof. intros [= <- <-]. apply grows_refl. Qed.

Lemma assert_grows P c msg w r w' : assert_ c msg w = (r, w') -> grows P w w'.
Proof. destruct c; intros [= <- <-]; apply grows_refl. Qed.

Lemma exists_grows P p w r w' : exists_ p w = (r, w') -> grows P w w'.
Proof. intros [= <- <-]. apply grows_refl. Qed.

Lemma nib_load_grows P p w r w' : nib_load p w = (r, w') -> grows P w w'.
Proof.
  unfold nib_load. destruct (lookup_nifti p w); intros [= <- <-]; apply grows_refl.
Qed.

Lemma imwrite_grows (P : path * mat -> Prop) p m w r w' :
  P (p, m) -> imwrite p m w = (r, w') -> grows P w w'.
Proof.
  intros HP [= <- <-]. split; [reflexivity|]. split; [auto|].
  exists [(p, m)]. split; [reflexivity|]. now constructor.
Qed.

Lemma save_frame_grows mask_path root_dir i frames w r w' :
  save_frame (name (parent mask_path)) (image_directory mask_path root_dir)
    (mask_directory mask_path root_dir) i frames w = (r, w') ->
  grows (in_case_directories mask_path root_dir) w w'.
Proof.
  destruct frames as [mask_frame image_frame]. unfold save_frame.
  intros H. revert H. apply bind_grows; [apply pure_grows|]. intros lo w0 r0 w1.
  apply bind_grows; [apply pure_grows|]. intros hi w2 r2 w3.
  apply bind_grows; [apply pure_grows|]. intros lo' w4 r4 w5.
  apply bind_grows.
  - intros w6 r6 w7. apply imwrite_grows. left. apply parent_joinpath.
  - intros _ w6 r6 w7. apply imwrite_grows. right. apply parent_joinpath.
Qed.

Lemma for_enumerate_grows mask_path root_dir l : forall start w r w',
  for_enumerate
    (save_frame (name (parent mask_path)) (image_directory mask_path root_dir)
       (mask_directory mask_path root_dir)) start l w = (r, w') ->
  grows (in_case_directories mask_path root_dir) w w'.
Proof.
  induction l as [|x l IH]; intros start w r w'; cbn [for_enumerate].
  - intros [= <- <-]. apply grows_refl.
  - apply bind_grows.
    + intros w0 r0 w1. apply save_frame_grows.
    + intros _ w0 r0 w1. apply IH.
Qed.

Lemma save_kits19_frames_grows mask_path root_dir window_level make_binary w r w' :
  save_kits19_frames mask_path root_dir window_level make_binary w = (r, w') ->
  grows (in_case_directories mask_path root_dir) w w'.
Proof.
  unfold save_kits19_frames.
  apply bind_grows; [intros ? ? ?; apply mkdir_grows|]. intros _ ? ? ?.
  apply bind_grows; [intros ? ? ?; apply pure_grows|]. intros image_path ? ? ?.
  apply bind_grows; [intros ? ? ?; apply exists_grows|]. intros b1 ? ? ?.
  apply bind_grows; [intros ? ? ?; apply assert_grows|]. intros _ ? ? ?.
  apply bind_grows; [intros ? ? ?; apply exists_grows|]. intros b2 ? ? ?.
  apply bind_grows; [intros ? ? ?; apply assert_grows|]. intros _ ? ? ?.
  apply bind_grows; [intros ? ? ?; apply nib_load_grows|]. intros mask_data ? ? ?.
  apply bind_grows; [intros ? ? ?; apply nib_load_grows|]. intros image_data ? ? ?.
  apply bind_grows; [intros ? ? ?; apply assert_grows|]. intros _ ? ? ?.
  apply bind_grows; [intros ? ? ?; apply mkdir_grows|]. intros _ ? ? ?.
  apply bind_grows; [intros ? ? ?; apply mkdir_grows|]. intros _ ? ? ?.
  apply bind_grows; [intros ? ? ?; apply mkdir_grows|]. intros _ ? ? ?.
  apply for_enumerate_grows.
Qed.

(** X1. Whatever its outcome, [save_kits19_frames] leaves the NIfTI
    files as they were, removes no directory, keeps every earlier write
    call, and adds write calls only into the [imaging_frames] and
    [segmentation_frames] directories of the case under [root_dir]. *)
Theorem X1_run_only_adds_frames_of_the_case
    mask_path root_dir window_level make_binary w :
  let w' := snd (save_kits19_frames mask_path root_dir window_level make_binary w) in
  nifti_files w' = nifti_files w
  /\ (forall q, is_dir q w = true -> is_dir q w' = true)
  /\ written w' = written w ++ new_writes w w'
  /\ Forall (fun e => parent (fst e) = root_dir // name (parent mask_path) // "imaging_frames"
                      \/ parent (fst e)
                         = root_dir // name (parent mask_path) // "segmentation_frames")
       (new_writes w w').
Proof.
  destruct (save_kits19_frames mask_path root_dir window_level make_binary w)
    as [r w'] eqn:E. cbn [snd].
  apply save_kits19_frames_grows in E as (N & D & new & W & F).
  assert (new_writes w w' = new) as ->.
  { unfold new_writes. rewrite W. apply drop_app_length. }
  auto.
Qed.

(** ** Reaching the loop *)

Lemma mkdir_existing p w : is_dir p w = true -> mkdir p w = (inr tt, w).
Proof. unfold mkdir. now intros ->. Qed.

Lemma mkdir_inr_is_dir p w w1 : mkdir p w = (inr tt, w1) -> is_dir p w1 = true.
Proof.
  unfold mkdir. destruct (is_dir p w) eqn:D; [now intros [= <-]|].
  destruct (is_file p w); [discriminate|].
  destruct (is_dir (parent p) w); [|discriminate]. intros [= <-].
  unfold is_dir; simpl. rewrite existsb_app; simpl.
  unfold path_eqb. rewrite bool_decide_eq_true_2 by reflexivity.
  now rewrite orb_true_r.
Qed.

Lemma lookup_nifti_same p w w1 :
  nifti_files w1 = nifti_files w -> lookup_nifti p w1 = lookup_nifti p w.
Proof. unfold lookup_nifti. now intros ->. Qed.

(** With both volumes there, of one shape, and the four directories
    made, what is left of the run is the loop over the slices. *)
Lemma save_kits19_frames_to_loop mask_path root_dir window_level make_binary
    w w1 w2 w3 w4 mask_data image_data :
  mask_path <> [] ->
  lookup_nifti mask_path w = Some mask_data ->
  lookup_nifti (parent mask_path // "imaging.nii.gz") w = Some image_data ->
  shape mask_data = shape image_data ->
  mkdir root_dir w = (inr tt, w1) ->
  mkdir (root_dir // name (parent mask_path)) w1 = (inr tt, w2) ->
  mkdir (image_directory mask_path root_dir) w2 = (inr tt, w3) ->
  mkdir (mask_directory mask_path root_dir) w3 = (inr tt, w4) ->
  save_kits19_frames mask_path root_dir window_level make_binary w
  = for_enumerate
      (save_frame (name (parent mask_path)) (image_directory mask_path root_dir)
         (mask_directory mask_path root_dir)) 0
      (zip (iter (binarize make_binary mask_data))
           (iter (apply_window window_level image_data))) w4.
Proof.
  intros Hmp L1 L2 Hs E1 E2 E3 E4.
  unfold save_kits19_frames, bind. rewrite E1.
  pose proof (mkdir_files _ _ _ _ E1) as [N1 _].
  rewrite <- (lookup_nifti_same mask_path _ _ N1) in L1.
  rewrite <- (lookup_nifti_same (parent mask_path // "imaging.nii.gz") _ _ N1) in L2.
  unfold lift.
  destruct mask_path as [|c mask_path]; [congruence|].
  change (with_name (c :: mask_path) "imaging.nii.gz")
    with (@inr exn _ (parent (c :: mask_path) // "imaging.nii.gz")).
  cbv beta iota. unfold exists_.
  rewrite (lookup_nifti_exists _ _ _ L1).
  unfold assert_ at 1; unfold ret; cbv beta iota.
  rewrite (lookup_nifti_exists _ _ _ L2).
  unfold assert_ at 1; unfold ret; cbv beta iota.
  unfold nib_load. rewrite L1, L2.
  rewrite bool_decide_eq_true_2 by exact Hs.
  unfold assert_ at 1; unfold ret; cbv beta iota.
  unfold image_directory at 1. rewrite parent_joinpath.
  rewrite E2, E3, E4. reflexivity.
Qed.

(** ** Completion *)

(** X2. [save_kits19_frames] returns, with the two frames of every slice
    written in slice order after the earlier write calls, whenever the
    two volumes are there with one shape and slices of at least one
    pixel, the parent of [root_dir] exists, and no file has the path of
    one of the four directories to make. *)
Theorem X2_run_completes mask_path root_dir window_level make_binary
    w mask_data image_data :
  mask_path <> [] ->
  lookup_nifti mask_path w = Some mask_data ->
  lookup_nifti (parent mask_path // "imaging.nii.gz") w = Some image_data ->
  shape mask_data = shape image_data ->
  well_formed image_data ->
  (0 < height image_data * width image_data)%nat ->
  is_dir (parent root_dir) w = true ->
  Forall (fun p => is_file p w = false)
    [root_dir; root_dir // name (parent mask_path);
     image_directory mask_path root_dir; mask_directory mask_path root_dir] ->
  exists w',
    save_kits19_frames mask_path root_dir window_level make_binary w = (inr tt, w')
    /\ length (new_writes w w') = (2 * depth image_data)%nat
    /\ forall i, (i < depth image_data)%nat ->
       new_writes w w' !! (2 * i)%nat
       = Some (new_image_path mask_path root_dir i,
               Mat_u8 (rescale_frame (slice (apply_window window_level image_data) i)))
       /\ new_writes w w' !! (2 * i + 1)%nat
          = Some (new_mask_path mask_path root_dir i,
                  Mat_f64 (slice (binarize make_binary mask_data) i)).
Proof.
  intros Hmp L1 L2 Hs Hwf Hpos Hroot Hfiles.
  destruct (save_kits19_frames_run mask_path root_dir window_level make_binary
              w mask_data image_data Hmp L1 L2 Hs Hwf Hpos Hroot Hfiles)
    as (w' & Hrun & Hw).
  exists w'. split; [exact Hrun|].
  apply save_kits19_frames_frames in Hrun
    as (m & im & L1' & L2' & _ & Hnew & Hfr).
  rewrite L1 in L1'. rewrite L2 in L2'. injection L1' as <-. injection L2' as <-.
  split.
  - rewrite Hnew, frame_writes_length, length_zip_iter.
    + now rewrite depth_apply_window.
    + now rewrite binarize_shape, apply_window_shape.
  - intros i Hi. destruct (Hfr i Hi) as (_ & A & B). auto.
Qed.

Lemma X2_witness :
  exists w',
    save_kits19_frames Demo.mask_path Demo.root_dir Demo.window true Demo.w0 = (inr tt, w')
    /\ length (new_writes Demo.w0 w') = (2 * depth Demo.image)%nat
    /\ forall i, (i < depth Demo.image)%nat ->
       new_writes Demo.w0 w' !! (2 * i)%nat
       = Some (new_image_path Demo.mask_path Demo.root_dir i,
               Mat_u8 (rescale_frame (slice (apply_window Demo.window Demo.image) i)))
       /\ new_writes Demo.w0 w' !! (2 * i + 1)%nat
          = Some (new_mask_path Demo.mask_path Demo.root_dir i,
                  Mat_f64 (slice (binarize true Demo.mask) i)).
Proof.
  apply (X2_run_completes Demo.mask_path Demo.root_dir Demo.window true
           Demo.w0 Demo.mask Demo.image).
  - discriminate.
  - reflexivity.
  - reflexivity.
  - reflexivity.
  - reflexivity.
  - vm_compute. lia.
  - reflexivity.
  - repeat constructor.
Defined.

(** ** Missing files *)

Lemma is_dir_after_mkdir p q w w1 :
  mkdir p w = (inr tt, w1) -> q <> p -> is_dir q w1 = is_dir q w.
Proof.
  unfold mkdir. destruct (is_dir p w); [now intros [= <-]|].
  destruct (is_file p w); [discriminate|].
  destruct (is_dir (parent p) w); [|discriminate]. intros [= <-] Hq.
  unfold is_dir; simpl. rewrite existsb_app; simpl.
  unfold path_eqb. rewrite (bool_decide_eq_false_2 _ Hq). now rewrite !orb_false_r.
Qed.

(** X3. When nothing exists at [mask_path], the run makes [root_dir] (if
    its parent is there) and then stops with the assertion that names
    the missing mask path, whatever is or is not at [imaging.nii.gz]:
    nothing is written and the NIfTI files are as they were. *)
Theorem X3_missing_mask_file mask_path root_dir window_level make_binary w w1 :
  mask_path <> [] -> mask_path <> root_dir ->
  is_dir mask_path w = false -> is_file mask_path w = false ->
  mkdir root_dir w = (inr tt, w1) ->
  save_kits19_frames mask_path root_dir window_level make_binary w
  = (inl (AssertionError
            (String.append "mask_path "
               (String.append (path_str mask_path) " does not exist!"))), w1)
  /\ written w1 = written w
  /\ nifti_files w1 = nifti_files w
  /\ is_dir root_dir w1 = true.
Proof.
  intros Hmp Hne Hd Hf E1.
  pose proof (mkdir_files _ _ _ _ E1) as [N1 W1].
  split; [|split; [exact W1|split; [exact N1|eapply mkdir_inr_is_dir, E1]]].
  unfold save_kits19_frames, bind. rewrite E1. unfold lift.
  destruct mask_path as [|c mask_path]; [congruence|].
  change (with_name (c :: mask_path) "imaging.nii.gz")
    with (@inr exn _ (parent (c :: mask_path) // "imaging.nii.gz")).
  cbv beta iota. unfold exists_.
  rewrite (is_dir_after_mkdir _ _ _ _ E1 Hne), Hd.
  rewrite (is_file_same _ _ _ N1 W1), Hf. reflexivity.
Qed.

Lemma X3_witness :
  save_kits19_frames ["data"; "case_00007"; "segmentation.nii.gz"] Demo.root_dir
    Demo.window true Demo.w0
  = (inl (AssertionError
            (String.append "mask_path "
               (String.append (path_str ["data"; "case_00007"; "segmentation.nii.gz"])
                  " does not exist!"))),
     snd (mkdir Demo.root_dir Demo.w0))
  /\ written (snd (mkdir Demo.root_dir Demo.w0)) = written Demo.w0
  /\ nifti_files (snd (mkdir Demo.root_dir Demo.w0)) = nifti_files Demo.w0
  /\ is_dir Demo.root_dir (snd (mkdir Demo.root_dir Demo.w0)) = true.
Proof.
  apply (X3_missing_mask_file ["data"; "case_00007"; "segmentation.nii.gz"]
           Demo.root_dir Demo.window true Demo.w0).
  - discriminate.
  - discriminate.
  - reflexivity.
  - reflexivity.
  - reflexivity.
Defined.

(** X4. When the mask file is there but nothing exists at
    [imaging.nii.gz] beside it, the run stops with the assertion that
    names the missing image path, before anything is written. *)
Theorem X4_missing_image_file mask_path root_dir window_level make_binary w w1 mask_data :
  lookup_nifti mask_path w = Some mask_data ->
  mask_path <> [] ->
  parent mask_path // "imaging.nii.gz" <> root_dir ->
  is_dir (parent mask_path // "imaging.nii.gz") w = false ->
  is_file (parent mask_path // "imaging.nii.gz") w = false ->
  mkdir root_dir w = (inr tt, w1) ->
  save_kits19_frames mask_path root_dir window_level make_binary w
  = (inl (AssertionError
            (String.append "image_path "
               (String.append (path_str (parent mask_path // "imaging.nii.gz"))
                  " does not exist!"))), w1)
  /\ written w1 = written w.
Proof.
  intros L1 Hmp Hne Hd Hf E1.
  pose proof (mkdir_files _ _ _ _ E1) as [N1 W1]. split; [|exact W1].
  rewrite <- (lookup_nifti_same mask_path _ _ N1) in L1.
  unfold save_kits19_frames, bind. rewrite E1. unfold lift.
  destruct mask_path as [|c mask_path]; [congruence|].
  change (with_name (c :: mask_path) "imaging.nii.gz")
    with (@inr exn _ (parent (c :: mask_path) // "imaging.nii.gz")).
  cbv beta iota. unfold exists_.
  rewrite (lookup_nifti_exists _ _ _ L1).
  unfold assert_ at 1; unfold ret; cbv beta iota.
  rewrite (is_dir_after_mkdir _ _ _ _ E1 Hne), Hd.
  rewrite (is_file_same _ _ _ N1 W1), Hf. reflexivity.
Qed.

Lemma X4_witness :
  save_kits19_frames Demo.mask_path Demo.root_dir Demo.window true Cases.w_no_image
  = (inl (AssertionError
            (String.append "image_path "
               (String.append (path_str (parent Demo.mask_path // "imaging.nii.gz"))
                  " does not exist!"))),
     snd (mkdir Demo.root_dir Cases.w_no_image))
  /\ written (snd (mkdir Demo.root_dir Cases.w_no_image)) = written Cases.w_no_image.
Proof.
  apply (X4_missing_image_file Demo.mask_path Demo.root_dir Demo.window true
           Cases.w_no_image _ Demo.mask).
  - reflexivity.
  - discriminate.
  - discriminate.
  - reflexivity.
  - reflexivity.
  - reflexivity.
Defined.

(** ** Volumes without slices *)

Lemma mkdir_chain mask_path root_dir w :
  is_dir (parent root_dir) w = true ->
  Forall (fun p => is_file p w = false)
    [root_dir; root_dir // name (parent mask_path);
     image_directory mask_path root_dir; mask_directory mask_path root_dir] ->
  exists w1 w2 w3 w4,
    mkdir root_dir w = (inr tt, w1)
    /\ mkdir (root_dir // name (parent mask_path)) w1 = (inr tt, w2)
    /\ mkdir (image_directory mask_path root_dir) w2 = (inr tt, w3)
    /\ mkdir (mask_directory mask_path root_dir) w3 = (inr tt, w4)
    /\ nifti_files w4 = nifti_files w /\ written w4 = written w
    /\ Forall (fun p => is_dir p w4 = true)
         [root_dir; root_dir // name (parent mask_path);
          image_directory mask_path root_dir; mask_directory mask_path root_dir].
Proof.
  intros Hroot Hfiles.
  apply Forall_cons in Hfiles as [F1 Hfiles].
  apply Forall_cons in Hfiles as [F2 Hfiles].
  apply Forall_cons in Hfiles as [F3 Hfiles].
  apply Forall_cons in Hfiles as [F4 _].
  destruct (mkdir_succeeds root_dir w F1 Hroot) as (w1 & E1 & N1 & W1 & D1 & _).
  rewrite <- (is_file_same _ _ _ N1 W1) in F2.
  rewrite <- (is_file_same _ _ _ N1 W1) in F3.
  rewrite <- (is_file_same _ _ _ N1 W1) in F4.
  destruct (mkdir_succeeds _ w1 F2) as (w2 & E2 & N2 & W2 & D2 & K2).
  { now rewrite parent_joinpath. }
  rewrite <- (is_file_same _ _ _ N2 W2) in F3.
  rewrite <- (is_file_same _ _ _ N2 W2) in F4.
  destruct (mkdir_succeeds _ w2 F3) as (w3 & E3 & N3 & W3 & D3 & K3).
  { unfold image_directory. now rewrite parent_joinpath. }
  rewrite <- (is_file_same _ _ _ N3 W3) in F4.
  destruct (mkdir_succeeds _ w3 F4) as (w4 & E4 & N4 & W4 & D4 & K4).
  { unfold mask_directory. rewrite parent_joinpath. now apply K3. }
  exists w1, w2, w3, w4. repeat split; try assumption; try congruence.
  repeat constructor; auto.
Qed.

(** X5. For a pair of volumes without slices (what files without voxels
    decode to), the run passes the shape assertion, makes its four
    directories, enters the loop no time and returns: no frame is
    written and the NIfTI files are as they were. *)
Theorem X5_volumes_without_slices_write_nothing mask_path root_dir window_level
    make_binary w mask_data image_data :
  mask_path <> [] ->
  lookup_nifti mask_path w = Some mask_data ->
  lookup_nifti (parent mask_path // "imaging.nii.gz") w = Some image_data ->
  shape mask_data = shape image_data ->
  depth image_data = 0%nat ->
  is_dir (parent root_dir) w = true ->
  Forall (fun p => is_file p w = false)
    [root_dir; root_dir // name (parent mask_path);
     image_directory mask_path root_dir; mask_directory mask_path root_dir] ->
  exists w',
    save_kits19_frames mask_path root_dir window_level make_binary w = (inr tt, w')
    /\ written w' = written w
    /\ nifti_files w' = nifti_files w
    /\ Forall (fun p => is_dir p w' = true)
         [root_dir; root_dir // name (parent mask_path);
          image_directory mask_path root_dir; mask_directory mask_path root_dir].
Proof.
  intros Hmp L1 L2 Hs Hd Hroot Hfiles.
  destruct (mkdir_chain mask_path root_dir w Hroot Hfiles)
    as (w1 & w2 & w3 & w4 & E1 & E2 & E3 & E4 & N4 & W4 & D4).
  exists w4. split; [|auto].
  rewrite (save_kits19_frames_to_loop _ _ window_level make_binary _ _ _ _ _ _ _
             Hmp L1 L2 Hs E1 E2 E3 E4).
  unfold iter. rewrite depth_binarize, depth_apply_window.
  assert (depth mask_data = depth image_data) as -> by (unfold depth; now rewrite Hs).
  rewrite Hd. reflexivity.
Qed.

Lemma X5_witness :
  exists w',
    save_kits19_frames Demo.mask_path Demo.root_dir Demo.window true Cases.w_no_voxels
    = (inr tt, w')
    /\ written w' = written Cases.w_no_voxels
    /\ nifti_files w' = nifti_files Cases.w_no_voxels
    /\ Forall (fun p => is_dir p w' = true)
         [Demo.root_dir; Demo.root_dir // name (parent Demo.mask_path);
          image_directory Demo.mask_path Demo.root_dir;
          mask_directory Demo.mask_path Demo.root_dir].
Proof.
  apply (X5_volumes_without_slices_write_nothing Demo.mask_path Demo.root_dir
           Demo.window true Cases.w_no_voxels Cases.no_voxels Cases.no_voxels).
  - discriminate.
  - reflexivity.
  - reflexivity.
  - reflexivity.
  - reflexivity.
  - reflexivity.
  - repeat constructor.
Defined.

(** ** Running a case again *)

Lemma is_dir_add_written q w l : is_dir q (add_written w l) = is_dir q w.
Proof. reflexivity. Qed.

Lemma mkdir_keeps_dirs p w r w1 q :
  mkdir p w = (r, w1) -> is_dir q w = true -> is_dir q w1 = true.
Proof. intros E. destruct (mkdir_grows (fun _ => True) _ _ _ _ E) as (_ & D & _). apply D. Qed.

(** After a run that returned, the four directories are there. *)
Lemma save_kits19_frames_dirs mask_path root_dir window_level make_binary w w' :
  save_kits19_frames mask_path root_dir window_level make_binary w = (inr tt, w') ->
  mask_path <> []
  /\ Forall (fun p => is_dir p w' = true)
       [root_dir; root_dir // name (parent mask_path);
        image_directory mask_path root_dir; mask_directory mask_path root_dir].
Proof.
  unfold save_kits19_frames, bind. intros H.
  step_mkdir H w1 E1.
  unfold lift in H.
  destruct (with_name mask_path "imaging.nii.gz") as [?|image_path] eqn:E2;
    [discriminate|].
  assert (mask_path <> []) as Hmp by (intros ->; discriminate).
  unfold exists_ in H.
  destruct (assert_ (is_dir mask_path w1 || is_file mask_path w1) _ w1)
    as [[?|[]] w2] eqn:E3; [discriminate|].
  apply assert_inr in E3 as [_ ->].
  destruct (assert_ (is_dir _ w1 || is_file _ w1) _ w1)
    as [[?|[]] w2] eqn:E4; [discriminate|].
  apply assert_inr in E4 as [_ ->].
  destruct (nib_load mask_path w1) as [[?|mask_data] w2] eqn:E5; [discriminate|].
  apply nib_load_inr in E5 as [L1 ->].
  destruct (nib_load _ w1) as [[?|image_data] w2] eqn:E6; [discriminate|].
  apply nib_load_inr in E6 as [L2 ->].
  destruct (assert_ (bool_decide _) _ w1) as [[?|[]] w2] eqn:E7; [discriminate|].
  apply assert_inr in E7 as [Hs ->].
  step_mkdir H w2 E8. step_mkdir H w3 E9. step_mkdir H w4 E10.
  pose proof (for_enumerate_save_frame_inv _ _ _ _ _ _ _ H) as Hne.
  rewrite for_enumerate_save_frame in H by exact Hne.
  injection H as <-. split; [exact Hmp|].
  unfold image_directory at 1 in E8. rewrite parent_joinpath in E8.
  pose proof (mkdir_inr_is_dir _ _ _ E1) as D1.
  pose proof (mkdir_inr_is_dir _ _ _ E8) as D2.
  pose proof (mkdir_inr_is_dir _ _ _ E9) as D3.
  pose proof (mkdir_inr_is_dir _ _ _ E10) as D4.
  repeat constructor; rewrite is_dir_add_written;
    eauto using mkdir_keeps_dirs.
Qed.

(** X6. A case that has been converted can be converted again: the
    second run returns as well, makes no directory, and repeats the
    write calls of the first, path by path and frame by frame. *)
Theorem X6_second_run_repeats_the_first
    mask_path root_dir window_level make_binary w w' :
  save_kits19_frames mask_path root_dir window_level make_binary w = (inr tt, w') ->
  save_kits19_frames mask_path root_dir window_level make_binary w'
  = (inr tt, add_written w' (new_writes w w')).
Proof.
  intros H.
  destruct (save_kits19_frames_dirs _ _ _ _ _ _ H) as [Hmp Hd].
  apply Forall_cons in Hd as [D1 Hd]. apply Forall_cons in Hd as [D2 Hd].
  apply Forall_cons in Hd as [D3 Hd]. apply Forall_cons in Hd as [D4 _].
  pose proof (save_kits19_frames_grows _ _ _ _ _ _ _ H) as (N & _ & _).
  apply save_kits19_frames_inv in H
    as (mask_data & image_data & L1 & L2 & Hs & Hne & Hw).
  rewrite <- (lookup_nifti_same _ _ _ N) in L1.
  rewrite <- (lookup_nifti_same _ _ _ N) in L2.
  rewrite (save_kits19_frames_to_loop _ _ window_level make_binary w' w' w' w' w'
             mask_data image_data Hmp L1 L2 Hs);
    try now apply mkdir_existing.
  rewrite for_enumerate_save_frame by exact Hne.
  unfold new_writes. rewrite Hw, drop_app_length. reflexivity.
Qed.

Lemma X6_witness :
  let w' := snd (save_kits19_frames Demo.mask_path Demo.root_dir Demo.window true Demo.w0) in
  save_kits19_frames Demo.mask_path Demo.root_dir Demo.window true w'
  = (inr tt, add_written w' (new_writes Demo.w0 w')).
Proof.
  apply (X6_second_run_repeats_the_first Demo.mask_path Demo.root_dir Demo.window true
           Demo.w0).
  vm_compute. reflexivity.
Defined.

(** ** NaN voxels *)

Lemma sub_nan_r v : F64.sub v F64.nan = F64.nan.
Proof. destruct v; reflexivity. Qed.

Lemma rescale_nan hi fr :
  rescale F64.nan hi fr = map_pixels (fun _ => astype_uint8 F64.nan) fr.
Proof.
  unfold rescale, map_pixels. f_equal. apply map_ext. intros v.
  now rewrite sub_nan_r.
Qed.

Lemma rescale_frame_nan fr :
  In F64.nan (pixels fr) ->
  rescale_frame fr = map_pixels (fun _ => astype_uint8 F64.nan) fr.
Proof.
  intros Hin. unfold rescale_frame. rewrite (frame_min_nan fr Hin).
  destruct (frame_max fr) as [e|hi] eqn:E.
  - unfold frame_max in E. destruct (pixels fr); [destruct Hin|discriminate].
  - apply rescale_nan.
Qed.

Lemma apply_window_keeps_nan window_level a i :
  In F64.nan (pixels (slice a i)) ->
  In F64.nan (pixels (slice (apply_window window_level a) i)).
Proof.
  intros Hin. rewrite slice_apply_window.
  destruct window_level as [[ws we]|]; [|exact Hin].
  cbn [map_pixels pixels]. rewrite map_map. apply in_map_iff.
  exists F64.nan. split; [|exact Hin]. now destruct ws, we.
Qed.

(** X7. A NaN voxel blanks its slice: when slice [i] of the image volume
    holds a NaN, with a window level or without, the image frame a
    completed run writes for [i] has every pixel equal to the [uint8]
    cast of NaN, whatever the other voxels of the slice are. *)
Theorem X7_nan_voxel_blanks_its_slice
    mask_path root_dir window_level make_binary w w' image_data i :
  save_kits19_frames mask_path root_dir window_level make_binary w = (inr tt, w') ->
  lookup_nifti (parent mask_path // "imaging.nii.gz") w = Some image_data ->
  (i < depth image_data)%nat ->
  In F64.nan (pixels (slice image_data i)) ->
  new_writes w w' !! (2 * i)%nat
  = Some (new_image_path mask_path root_dir i,
          Mat_u8 (map_pixels (fun _ => astype_uint8 F64.nan) (slice image_data i))).
Proof.
  intros Hrun L Hi Hin.
  apply save_kits19_frames_frames in Hrun
    as (mask_data & image_data' & _ & L2 & _ & _ & Hfr).
  rewrite L in L2. injection L2 as <-.
  destruct (Hfr i Hi) as (_ & Him & _). rewrite Him.
  rewrite rescale_frame_nan by now apply apply_window_keeps_nan.
  rewrite slice_apply_window. destruct window_level as [[ws we]|]; [|reflexivity].
  now rewrite !map_pixels_compose.
Qed.

Lemma X7_witness :
  new_writes Cases.w_nan
    (snd (save_kits19_frames Demo.mask_path Demo.root_dir Demo.window true Cases.w_nan))
    !! (2 * 0)%nat
  = Some (new_image_path Demo.mask_path Demo.root_dir 0,
          Mat_u8 (map_pixels (fun _ => astype_uint8 F64.nan) (slice Cases.image_nan 0))).
Proof.
  apply (X7_nan_voxel_blanks_its_slice Demo.mask_path Demo.root_dir Demo.window true
           Cases.w_nan _ Cases.image_nan 0).
  - vm_compute. reflexivity.
  - reflexivity.
  - vm_compute. lia.
  - right. left. reflexivity.
Defined.

(** ** More on windowing *)

Lemma not_ltb_leb a b :
  F64.is_nan a = false -> F64.is_nan b = false ->
  F64.ltb a b = false -> F64.leb b a = true.
Proof.
  unfold F64.leb, F64.ltb, SFleb, SFltb.
  float_cases a; float_cases b; order_solve.
Qed.

Lemma ltb_leb_trans a b c :
  F64.ltb a b = true -> F64.leb b c = true -> F64.ltb a c = true.
Proof.
  unfold F64.leb, F64.ltb, SFleb, SFltb.
  float_cases a; float_cases b; float_cases c; order_solve.
Qed.

Lemma leb_not_nan a b :
  F64.leb a b = true -> F64.is_nan a = false /\ F64.is_nan b = false.
Proof. destruct a, b; simpl; auto; discriminate. Qed.

Lemma ltb_not_nan a b :
  F64.ltb a b = true -> F64.is_nan a = false /\ F64.is_nan b = false.
Proof. destruct a, b; simpl; auto; discriminate. Qed.

Lemma ltb_nan_l a : F64.ltb F64.nan a = false.
Proof. reflexivity. Qed.

Lemma ltb_nan_r a : F64.ltb a F64.nan = false.
Proof. destruct a; reflexivity. Qed.

(** X8. With [low <= high], after windowing every voxel that is not NaN
    lies between [low] and [high], and a NaN voxel is still NaN. *)
Theorem X8_windowed_voxels_are_in_the_window low high image_data :
  F64.leb low high = true ->
  forall k x, voxels image_data !! k = Some x ->
  exists y,
    voxels (apply_window (Some (low, high)) image_data) !! k = Some y
    /\ (F64.is_nan x = true -> y = F64.nan)
    /\ (F64.is_nan x = false -> F64.leb low y = true /\ F64.leb y high = true).
Proof.
  intros Hlh k x Hk. destruct (leb_not_nan _ _ Hlh) as [Nl Nh].
  cbn [apply_window assign_where_gt assign_where_lt map_voxels voxels].
  rewrite !lookup_map, Hk. cbn [fmap option_fmap option_map].
  eexists. split; [reflexivity|]. split.
  - intros Hn. destruct x; try discriminate.
    rewrite ltb_nan_l, ltb_nan_r. reflexivity.
  - intros Hn. destruct (F64.ltb x low) eqn:E1.
    + rewrite (leb_ltb_false _ _ Hlh). auto using leb_refl.
    + pose proof (not_ltb_leb _ _ Hn Nl E1) as Hlx.
      destruct (F64.ltb high x) eqn:E2; [auto using leb_refl|].
      split; [exact Hlx|]. now apply not_ltb_leb.
Qed.

Lemma X8_witness :
  exists y,
    voxels (apply_window (Some (F64.of_Z (-125), F64.of_Z 225)) Demo.image) !! 0%nat
    = Some y
    /\ (F64.is_nan (F64.of_Z (-1000)) = true -> y = F64.nan)
    /\ (F64.is_nan (F64.of_Z (-1000)) = false ->
        F64.leb (F64.of_Z (-125)) y = true /\ F64.leb y (F64.of_Z 225) = true).
Proof.
  apply (X8_windowed_voxels_are_in_the_window (F64.of_Z (-125)) (F64.of_Z 225) Demo.image).
  - reflexivity.
  - reflexivity.
Defined.

(** X9. A window given the wrong way round, [high < low], flattens the
    volume: every voxel that is not NaN becomes [high]. *)
Theorem X9_reversed_window_flattens low high image_data :
  F64.ltb high low = true ->
  forall k x, voxels image_data !! k = Some x -> F64.is_nan x = false ->
  voxels (apply_window (Some (low, high)) image_data) !! k = Some high.
Proof.
  intros Hhl k x Hk Hn. destruct (ltb_not_nan _ _ Hhl) as [Nh Nl].
  cbn [apply_window assign_where_gt assign_where_lt map_voxels voxels].
  rewrite !lookup_map, Hk. cbn [fmap option_fmap option_map]. f_equal.
  destruct (F64.ltb x low) eqn:E1.
  - now rewrite Hhl.
  - pose proof (not_ltb_leb _ _ Hn Nl E1) as Hlx.
    now rewrite (ltb_leb_trans _ _ _ Hhl Hlx).
Qed.

Lemma X9_witness :
  voxels (apply_window (Some (F64.of_Z 225, F64.of_Z (-125))) Demo.image) !! 1%nat
  = Some (F64.of_Z (-125)).
Proof.
  apply (X9_reversed_window_flattens (F64.of_Z 225) (F64.of_Z (-125)) Demo.image)
    with (x := F64.of_Z 50).
  - reflexivity.
  - reflexivity.
  - reflexivity.
Defined.

Lemma window_value_idempotent low high x :
  let c := fun v => let y := if F64.ltb v low then low else v in
                    if F64.ltb high y then high else y in
  c (c x) = c x.
Proof.
  cbv zeta beta.
  destruct (F64.ltb x low) eqn:E1.
  - destruct (F64.ltb high low) eqn:E2.
    + destruct (F64.ltb high low) eqn:E3; [|congruence].
      destruct (F64.ltb high high) eqn:E4; [|now destruct (F64.ltb high low)].
      destruct (ltb_not_nan _ _ E4) as [N _].
      pose proof (leb_refl high N) as R. now rewrite (leb_ltb_false _ _ R) in E4.
    + destruct (F64.ltb low low) eqn:E3; [|now rewrite E2].
      destruct (ltb_not_nan _ _ E3) as [N _].
      pose proof (leb_refl low N) as R. now rewrite (leb_ltb_false _ _ R) in E3.
  - destruct (F64.ltb high x) eqn:E2.
    + destruct (F64.ltb high low) eqn:E3.
      * destruct (F64.ltb high high) eqn:E4; [|now destruct (F64.ltb high low)].
        destruct (ltb_not_nan _ _ E4) as [N _].
        pose proof (leb_refl high N) as R. now rewrite (leb_ltb_false _ _ R) in E4.
      * destruct (ltb_not_nan _ _ E2) as [N _].
        pose proof (leb_refl high N) as R. rewrite (leb_ltb_false _ _ R).
        now destruct (F64.ltb high low).
    + now rewrite E1, E2.
Qed.

(** X10. Windowing a volume that has been windowed with the same window
    level changes nothing, whatever the two bounds are. *)
Theorem X10_windowing_twice_is_windowing_once window_level image_data :
  apply_window window_level (apply_window window_level image_data)
  = apply_window window_level image_data.
Proof.
  destruct window_level as [[low high]|]; [|reflexivity].
  unfold apply_window, assign_where_gt, assign_where_lt, map_voxels.
  cbn [shape voxels]. f_equal. rewrite !map_map. apply map_ext. intros x.
  apply (window_value_idempotent low high x).
Qed.

(** ** The darkest pixel *)

Lemma rescale_of_minimum lo d :
  F64.is_finite lo = true -> F64.ltb F64.zero d = true ->
  astype_uint8 (F64.mul (F64.div (F64.sub lo lo) d) F64.c255) = 0.
Proof.
  intros Hf Hd. rewrite (sub_diag_finite lo Hf).
  destruct d as [[]|[]| |[] m e]; try discriminate; reflexivity.
Qed.

(** X11. In a completed run, if the minimum of a slice is finite and the
    denominator [max - min] is above zero, every pixel of the slice that
    equals the minimum is written as 0. *)
Theorem X11_minimum_pixel_is_written_as_0
    mask_path root_dir window_level make_binary w w' image_data i lo hi :
  save_kits19_frames mask_path root_dir window_level make_binary w = (inr tt, w') ->
  lookup_nifti (parent mask_path // "imaging.nii.gz") w = Some image_data ->
  (i < depth image_data)%nat ->
  frame_min (slice (apply_window window_level image_data) i) = inr lo ->
  frame_max (slice (apply_window window_level image_data) i) = inr hi ->
  F64.is_finite lo = true ->
  F64.ltb F64.zero (F64.sub hi lo) = true ->
  exists out,
    new_writes w w' !! (2 * i)%nat
    = Some (new_image_path mask_path root_dir i, Mat_u8 out)
    /\ forall k, pixels (slice (apply_window window_level image_data) i) !! k = Some lo ->
       pixels out !! k = Some 0.
Proof.
  intros Hrun L Hi Hlo Hhi Hf Hd.
  apply save_kits19_frames_frames in Hrun
    as (mask_data & image_data' & _ & L2 & _ & _ & Hfr).
  rewrite L in L2. injection L2 as <-.
  destruct (Hfr i Hi) as (_ & Him & _).
  eexists. split; [exact Him|].
  intros k Hk. unfold rescale_frame. rewrite Hlo, Hhi.
  unfold rescale. cbn [map_pixels pixels]. rewrite lookup_map, Hk.
  cbn [fmap option_fmap option_map]. f_equal. now apply rescale_of_minimum.
Qed.

Lemma X11_witness :
  exists out,
    new_writes Demo.w0
      (snd (save_kits19_frames Demo.mask_path Demo.root_dir Demo.window true Demo.w0))
      !! (2 * 0)%nat
    = Some (new_image_path Demo.mask_path Demo.root_dir 0, Mat_u8 out)
    /\ forall k, pixels (slice (apply_window Demo.window Demo.image) 0) !! k
                 = Some (F64.of_Z (-125)) ->
       pixels out !! k = Some 0.
Proof.
  apply (X11_minimum_pixel_is_written_as_0 Demo.mask_path Demo.root_dir Demo.window true
           Demo.w0 _ Demo.image 0 (F64.of_Z (-125)) (F64.of_Z 225)).
  - vm_compute. reflexivity.
  - reflexivity.
  - vm_compute. lia.
  - reflexivity.
  - reflexivity.
  - reflexivity.
  - reflexivity.
Defined.

(** ** Shape of the frames *)

Lemma well_formed_same_shape a b :
  shape a = shape b -> length (voxels a) = length (voxels b) ->
  well_formed b -> well_formed a.
Proof. unfold well_formed, depth, height, width. now intros -> ->. Qed.

Lemma binarize_well_formed mb a : well_formed a -> well_formed (binarize mb a).
Proof.
  apply well_formed_same_shape; [apply binarize_shape|].
  destruct mb; [cbn; apply length_map|reflexivity].
Qed.

Lemma rescale_frame_shape fr :
  fshape (rescale_frame fr) = fshape fr
  /\ length (pixels (rescale_frame fr)) = length (pixels fr).
Proof.
  unfold rescale_frame, rescale.
  destruct (frame_min fr), (frame_max fr); cbn [map_pixels fshape pixels];
    now rewrite length_map.
Qed.

(** X12. In a completed run on well-formed volumes of shape [(D, H, W)],
    the image frame and the mask frame of every slice have the shape
    [(H, W)] and [H * W] pixels. *)
Theorem X12_frames_have_the_shape_of_a_slice
    mask_path root_dir window_level make_binary w w' mask_data image_data :
  save_kits19_frames mask_path root_dir window_level make_binary w = (inr tt, w') ->
  lookup_nifti mask_path w = Some mask_data ->
  lookup_nifti (parent mask_path // "imaging.nii.gz") w = Some image_data ->
  well_formed mask_data -> well_formed image_data ->
  forall i, (i < depth image_data)%nat ->
  exists image_frame mask_frame,
    new_writes w w' !! (2 * i)%nat
    = Some (new_image_path mask_path root_dir i, Mat_u8 image_frame)
    /\ new_writes w w' !! (2 * i + 1)%nat
       = Some (new_mask_path mask_path root_dir i, Mat_f64 mask_frame)
    /\ fshape image_frame = (height image_data, width image_data)
    /\ fshape mask_frame = (height image_data, width image_data)
    /\ length (pixels image_frame) = (height image_data * width image_data)%nat
    /\ length (pixels mask_frame) = (height image_data * width image_data)%nat.
Proof.
  intros Hrun L1 L2 Wm Wi i Hi.
  apply save_kits19_frames_frames in Hrun
    as (m & im & L1' & L2' & Hs & _ & Hfr).
  rewrite L1 in L1'. rewrite L2 in L2'. injection L1' as <-. injection L2' as <-.
  destruct (Hfr i Hi) as (_ & A & B).
  eexists _, _. split; [exact A|]. split; [exact B|].
  destruct (rescale_frame_shape (slice (apply_window window_level image_data) i))
    as [-> ->].
  rewrite (slice_length (apply_window window_level image_data) i),
          (slice_length (binarize make_binary mask_data) i).
  - unfold slice, height, width. cbn [fshape].
    now rewrite apply_window_shape, binarize_shape, Hs.
  - now apply binarize_well_formed.
  - rewrite depth_binarize. unfold depth. now rewrite Hs.
  - now apply apply_window_well_formed.
  - now rewrite depth_apply_window.
Qed.

Lemma X12_witness :
  exists image_frame mask_frame,
    new_writes Demo.w0
      (snd (save_kits19_frames Demo.mask_path Demo.root_dir Demo.window true Demo.w0))
      !! (2 * 1)%nat
    = Some (new_image_path Demo.mask_path Demo.root_dir 1, Mat_u8 image_frame)
    /\ new_writes Demo.w0
         (snd (save_kits19_frames Demo.mask_path Demo.root_dir Demo.window true Demo.w0))
         !! (2 * 1 + 1)%nat
       = Some (new_mask_path Demo.mask_path Demo.root_dir 1, Mat_f64 mask_frame)
    /\ fshape image_frame = (height Demo.image, width Demo.image)
    /\ fshape mask_frame = (height Demo.image, width Demo.image)
    /\ length (pixels image_frame) = (height Demo.image * width Demo.image)%nat
    /\ length (pixels mask_frame) = (height Demo.image * width Demo.image)%nat.
Proof.
  apply (X12_frames_have_the_shape_of_a_slice Demo.mask_path Demo.root_dir Demo.window true
           Demo.w0 _ Demo.mask Demo.image).
  - vm_compute. reflexivity.
  - reflexivity.
  - reflexivity.
  - reflexivity.
  - reflexivity.
  - vm_compute. lia.
Defined.

(** * Further properties of the translation demo *)

Import Console.

(** ** [strip] *)

Lemma lstrip_split s :
  exists a, s = a ++ lstrip s /\ forallb isspace a = true
            /\ match lstrip s with c :: _ => isspace c = false | [] => True end.
Proof.
  induction s as [|c s (a & E & Ha & Hh)].
  - exists []. repeat split.
  - cbn [lstrip]. destruct (isspace c) eqn:Ec.
    + exists (c :: a). cbn [forallb app]. rewrite Ec, Ha.
      split; [now f_equal|]. split; [reflexivity|exact Hh].
    + exists []. split; [reflexivity|]. split; [reflexivity|exact Ec].
Qed.

Lemma lstrip_head_kept s c t :
  s = c :: t -> isspace c = false -> lstrip s = s.
Proof. intros -> H. cbn. now rewrite H. Qed.

(** X13. [strip] cuts a run of white space off each end and nothing
    else: the sentence is [a ++ strip sentence ++ b] with [a] and [b]
    white space only, and what is left neither starts nor ends with
    white space. *)
Theorem X13_strip_removes_white_space_at_both_ends (sentence : str) :
  exists a b,
    sentence = a ++ strip sentence ++ b
    /\ forallb isspace a = true /\ forallb isspace b = true
    /\ match strip sentence with c :: _ => isspace c = false | [] => True end
    /\ match rev (strip sentence) with c :: _ => isspace c = false | [] => True end.
Proof.
  destruct (lstrip_split sentence) as (a & Ea & Ha & Hh).
  destruct (lstrip_split (rev (lstrip sentence))) as (b & Eb & Hb & Ht).
  assert (lstrip sentence = rev (lstrip (rev (lstrip sentence))) ++ rev b) as Hdec.
  { apply (f_equal (@rev N)) in Eb. now rewrite rev_involutive, rev_app_distr in Eb. }
  unfold strip, rstrip.
  exists a, (rev b). rewrite forallb_rev.
  split; [now rewrite <- Hdec|].
  split; [exact Ha|]. split; [exact Hb|]. rewrite rev_involutive. split; [|exact Ht].
  destruct (lstrip sentence) as [|c t] eqn:El; [exact I|].
  destruct (rev (lstrip (rev (c :: t)))) as [|c' t'] eqn:Er.
  - cbn [app] in Hdec. apply (f_equal (forallb isspace)) in Hdec.
    rewrite forallb_rev, Hb in Hdec. cbn [forallb] in Hdec. rewrite Hh in Hdec.
    discriminate.
  - injection Hdec as <- _. exact Hh.
Qed.

(** ** [split] and [join] *)

Lemma split_from_word w : forall cur rest,
  Forall (fun c => isspace c = false) w ->
  split_from cur (w ++ rest) = split_from (rev w ++ cur) rest.
Proof.
  induction w as [|c w IH]; intros cur rest Hw; [reflexivity|].
  inversion Hw as [|? ? Hc Hw']; subst.
  cbn [app split_from rev]. rewrite Hc, IH by exact Hw'.
  now rewrite <- app_assoc.
Qed.

Lemma split_join ws :
  Forall word ws -> split (join (lit " ") ws) = ws.
Proof.
  induction ws as [|a ws IH]; intros Hws; [reflexivity|].
  inversion Hws as [|? ? [Hne Ha] Hws']; subst.
  assert (rev a <> []) as Hr.
  { intros H0. apply (f_equal (@rev N)) in H0. rewrite rev_involutive in H0. auto. }
  destruct ws as [|b ws].
  - cbn [join]. unfold split. rewrite <- (app_nil_r a) at 1.
    rewrite split_from_word by exact Ha. rewrite app_nil_r. cbn [split_from].
    destruct (rev a) eqn:E; [congruence|]. rewrite <- E, rev_involutive. reflexivity.
  - change (join (lit " ") (a :: b :: ws))
      with (a ++ lit " " ++ join (lit " ") (b :: ws)).
    unfold split. rewrite split_from_word by exact Ha. rewrite app_nil_r.
    change (lit " " ++ join (lit " ") (b :: ws))
      with (32%N :: join (lit " ") (b :: ws)).
    cbn [split_from]. change (isspace 32) with true. cbv iota.
    destruct (rev a) eqn:E; [congruence|]. rewrite <- E, rev_involutive.
    f_equal. apply IH, Hws'.
Qed.

Lemma split_from_words s : forall cur,
  Forall (fun c => isspace c = false) cur -> Forall word (split_from cur s).
Proof.
  induction s as [|c s IH]; intros cur Hcur; cbn [split_from].
  - destruct cur as [|x cur]; [constructor|]. constructor; [|constructor].
    split.
    + intros H0. apply (f_equal (@rev N)) in H0. rewrite rev_involutive in H0.
      discriminate.
    + apply Forall_rev. exact Hcur.
  - destruct (isspace c) eqn:Ec.
    + destruct cur as [|x cur]; [apply IH; constructor|].
      constructor; [|apply IH; constructor]. split.
      * intros H0. apply (f_equal (@rev N)) in H0. rewrite rev_involutive in H0.
        discriminate.
      * apply Forall_rev. exact Hcur.
    + apply IH. now constructor.
Qed.

Lemma split_words s : Forall word (split s).
Proof. apply split_from_words. constructor. Qed.

Lemma groupby_keys_Forall (P : str -> Prop) l :
  Forall P l -> Forall P (groupby_keys l).
Proof.
  induction l as [|a l IH]; intros H; [constructor|].
  inversion H as [|? ? Ha Hl]; subst. cbn [groupby_keys].
  destruct l as [|b l]; [auto|].
  destruct (bool_decide (a = b)); [auto|]. constructor; auto.
Qed.

Lemma groupby_keys_head a l :
  exists t, groupby_keys (a :: l) = a :: t.
Proof.
  revert a. induction l as [|b l IH]; intros a; [now exists []|].
  cbn [groupby_keys]. destruct (bool_decide (a = b)) eqn:E.
  - apply bool_decide_eq_true in E. subst b. apply IH.
  - eauto.
Qed.

Lemma groupby_keys_no_repeat l : no_repeat (groupby_keys l).
Proof.
  induction l as [|a l IH]; [exact I|].
  cbn [groupby_keys]. destruct l as [|b l]; [cbn; auto|].
  destruct (bool_decide (a = b)) eqn:E; [exact IH|].
  apply bool_decide_eq_false in E.
  destruct (groupby_keys_head b l) as [t Ht].
  cbn [no_repeat]. rewrite Ht in *. auto.
Qed.

Lemma no_repeat_groupby_keys l : no_repeat l -> groupby_keys l = l.
Proof.
  induction l as [|a l IH]; [reflexivity|].
  cbn [no_repeat groupby_keys]. intros [Ha Hl]. destruct l as [|b l]; [reflexivity|].
  rewrite (bool_decide_eq_false_2 _ Ha). f_equal. auto.
Qed.

(** ** The steps of [translate] *)

Section TranslateSteps.

Variable src_encode : str -> list Z.
Variable src_token_to_id : str -> Z.
Variable max_tokens : nat.
Variable infer : list Z -> list Z.
Variable tgt_decode : list Z -> str.
Variable lower : str -> str.

Lemma strip_not_blank sentence :
  forallb isspace sentence = false -> (0 <? length (strip sentence))%nat = true.
Proof.
  intros H. destruct (strip sentence) eqn:E; [|reflexivity].
  apply strip_nil_iff in E. congruence.
Qed.

Lemma translate_too_long sentence log :
  forallb isspace sentence = false ->
  (max_tokens < length (src_encode (strip sentence)) + 2)%nat ->
  translate src_encode src_token_to_id max_tokens infer tgt_decode lower sentence log
  = (inl (AssertionError "input sentence is too long"),
     log ++ [Encode (strip sentence); TokenToId (lit "<s>"); TokenToId (lit "</s>")]).
Proof.
  intros Hb Hlen. unfold translate, tbind, tassert, calling.
  rewrite (strip_not_blank _ Hb). cbv iota beta.
  set (tokens := [src_token_to_id (lit "<s>")] ++ src_encode (strip sentence)
                 ++ [src_token_to_id (lit "</s>")]).
  assert (length tokens = (length (src_encode (strip sentence)) + 2)%nat) as Hl.
  { unfold tokens. cbn [app length]. rewrite length_app. cbn [length]. lia. }
  assert ((0 <? Z.of_nat max_tokens - Z.of_nat (length tokens)) = false) as ->.
  { apply Z.ltb_ge. lia. }
  unfold tret. cbv iota beta.
  assert ((length tokens =? max_tokens)%nat = false) as ->.
  { apply Nat.eqb_neq. lia. }
  rewrite <- !app_assoc. reflexivity.
Qed.

Lemma translate_fits sentence log :
  forallb isspace sentence = false ->
  (length (src_encode (strip sentence)) + 2 <= max_tokens)%nat ->
  let n := (length (src_encode (strip sentence)) + 2)%nat in
  let tokens :=
    [src_token_to_id (lit "<s>")] ++ src_encode (strip sentence)
    ++ [src_token_to_id (lit "</s>")]
    ++ repeat (src_token_to_id (lit "<pad>")) (max_tokens - n) in
  length tokens = max_tokens
  /\ translate src_encode src_token_to_id max_tokens infer tgt_decode lower sentence log
     = (inr (join (lit " ")
               (groupby_keys
                  (split (lower (remove_special_tokens (tgt_decode (infer tokens))))))),
        log ++ [Encode (strip sentence); TokenToId (lit "<s>"); TokenToId (lit "</s>")]
            ++ (if (n <? max_tokens)%nat then [TokenToId (lit "<pad>")] else [])
            ++ [Infer tokens; Decode (infer tokens)]).
Proof.
  intros Hb Hlen n tokens.
  assert (length tokens = max_tokens) as Hl.
  { unfold tokens, n. cbn [app length]. rewrite length_app. cbn [length].
    rewrite repeat_length. lia. }
  split; [exact Hl|].
  unfold translate, tbind, tassert, calling.
  rewrite (strip_not_blank _ Hb). cbv iota beta.
  set (tokens0 := [src_token_to_id (lit "<s>")] ++ src_encode (strip sentence)
                  ++ [src_token_to_id (lit "</s>")]).
  assert (length tokens0 = n) as Hl0.
  { unfold tokens0, n. cbn [app length]. rewrite length_app. cbn [length]. lia. }
  assert (tokens = tokens0
                   ++ repeat (src_token_to_id (lit "<pad>")) (max_tokens - n)) as Ht.
  { unfold tokens, tokens0. cbn [app]. now rewrite <- app_assoc. }
  destruct (n <? max_tokens)%nat eqn:En.
  - apply Nat.ltb_lt in En.
    assert ((0 <? Z.of_nat max_tokens - Z.of_nat (length tokens0)) = true) as ->.
    { apply Z.ltb_lt. lia. }
    unfold tret. cbv iota beta.
    replace (Z.to_nat (Z.of_nat max_tokens - Z.of_nat (length tokens0)))
      with (max_tokens - n)%nat by lia.
    rewrite <- Ht, Hl, Nat.eqb_refl. cbv iota beta.
    rewrite <- !app_assoc. reflexivity.
  - apply Nat.ltb_ge in En.
    assert ((0 <? Z.of_nat max_tokens - Z.of_nat (length tokens0)) = false) as ->.
    { apply Z.ltb_ge. lia. }
    unfold tret. cbv iota beta.
    assert (tokens = tokens0) as Ht0.
    { rewrite Ht. replace (max_tokens - n)%nat with 0%nat by lia.
      cbn [repeat]. apply app_nil_r. }
    rewrite <- Ht0, Hl, Nat.eqb_refl. cbv iota beta.
    rewrite <- !app_assoc. reflexivity.
Qed.

(** Every translation is of that form. *)
Lemma translate_inr sentence log translated log' :
  translate src_encode src_token_to_id max_tokens infer tgt_decode lower sentence log
  = (inr translated, log') ->
  exists decoded, translated = join (lit " ") (groupby_keys (split decoded)).
Proof.
  destruct (forallb isspace sentence) eqn:Hb.
  { unfold translate, tbind, tassert. rewrite (strip_blank _ Hb). discriminate. }
  destruct (Nat.le_gt_cases (length (src_encode (strip sentence)) + 2) max_tokens)
    as [Hle|Hgt].
  - destruct (translate_fits sentence log Hb Hle)
      as [_ ->].
    intros [= <- _]. eauto.
  - rewrite (translate_too_long sentence log Hb Hgt). discriminate.
Qed.

End TranslateSteps.

(** X14. A sentence whose tokens, with the two markers around them, are
    more than the model takes makes [translate] raise the assertion
    "input sentence is too long": the source tokenizer has been asked
    for the tokens and the two marker ids, the model has not been run. *)
Theorem X14_too_long_sentence_raises
    src_encode src_token_to_id max_tokens infer tgt_decode lower sentence log :
  forallb isspace sentence = false ->
  (max_tokens < length (src_encode (strip sentence)) + 2)%nat ->
  translate src_encode src_token_to_id max_tokens infer tgt_decode lower sentence log
  = (inl (AssertionError "input sentence is too long"),
     log ++ [Encode (strip sentence); TokenToId (lit "<s>"); TokenToId (lit "</s>")]).
Proof. apply translate_too_long. Qed.

Lemma X14_witness :
  translate (fun s => map Z.of_N s) (fun _ => 0) 4 (fun l => l)
    (fun l => map Z.to_N l) (fun s => s) (lit " hello ") []
  = (inl (AssertionError "input sentence is too long"),
     [] ++ [Encode (strip (lit " hello ")); TokenToId (lit "<s>"); TokenToId (lit "</s>")]).
Proof.
  apply (X14_too_long_sentence_raises (fun s => map Z.of_N s) (fun _ => 0) 4%nat
           (fun l => l) (fun l => map Z.to_N l) (fun s => s) (lit " hello ") []).
  - reflexivity.
  - vm_compute. lia.
Defined.

(** X15. A sentence that fits is handed to the model as exactly
    [max_tokens] ids: the start marker, the tokens, the end marker, and
    the padding id for what is left; the padding id is asked for only
    when there is something to pad.  The result is the decoded output
    with the special tokens removed, lowered, split into words, runs of
    a repeated word reduced to one, and joined by single spaces. *)
Theorem X15_fitting_sentence_is_padded_to_max_tokens
    src_encode src_token_to_id max_tokens infer tgt_decode lower sentence log :
  forallb isspace sentence = false ->
  (length (src_encode (strip sentence)) + 2 <= max_tokens)%nat ->
  let n := (length (src_encode (strip sentence)) + 2)%nat in
  let tokens :=
    [src_token_to_id (lit "<s>")] ++ src_encode (strip sentence)
    ++ [src_token_to_id (lit "</s>")]
    ++ repeat (src_token_to_id (lit "<pad>")) (max_tokens - n) in
  length tokens = max_tokens
  /\ translate src_encode src_token_to_id max_tokens infer tgt_decode lower sentence log
     = (inr (join (lit " ")
               (groupby_keys
                  (split (lower (remove_special_tokens (tgt_decode (infer tokens))))))),
        log ++ [Encode (strip sentence); TokenToId (lit "<s>"); TokenToId (lit "</s>")]
            ++ (if (n <? max_tokens)%nat then [TokenToId (lit "<pad>")] else [])
            ++ [Infer tokens; Decode (infer tokens)]).
Proof. apply translate_fits. Qed.

Lemma X15_witness :
  let src_encode := fun s : str => map Z.of_N s in
  let src_token_to_id := fun _ : str => 0 in
  let n := (length (src_encode (strip (lit " hi "))) + 2)%nat in
  let tokens :=
    [src_token_to_id (lit "<s>")] ++ src_encode (strip (lit " hi "))
    ++ [src_token_to_id (lit "</s>")]
    ++ repeat (src_token_to_id (lit "<pad>")) (8 - n) in
  length tokens = 8%nat
  /\ translate src_encode src_token_to_id 8 (fun l => l) (fun l => map Z.to_N l)
       (fun s => s) (lit " hi ") []
     = (inr (join (lit " ")
               (groupby_keys
                  (split ((fun s => s)
                            (remove_special_tokens
                               ((fun l => map Z.to_N l) ((fun l => l) tokens))))))),
        [] ++ [Encode (strip (lit " hi ")); TokenToId (lit "<s>"); TokenToId (lit "</s>")]
           ++ (if (n <? 8)%nat then [TokenToId (lit "<pad>")] else [])
           ++ [Infer tokens; Decode ((fun l => l) tokens)]).
Proof.
  apply (X15_fitting_sentence_is_padded_to_max_tokens (fun s => map Z.of_N s)
           (fun _ => 0) 8%nat (fun l => l) (fun l => map Z.to_N l) (fun s => s)
           (lit " hi ") []).
  - reflexivity.
  - vm_compute. lia.
Defined.

(** ** The form of a translation *)

(** X16. Whatever [translate] returns is in normal form: split at white
    space it gives words of which no two neighbours are equal, and
    joining these words by single spaces gives the translation back, so
    it has no white space at either end and none doubled. *)
Theorem X16_translation_is_in_normal_form
    src_encode src_token_to_id max_tokens infer tgt_decode lower
    sentence log translated log' :
  translate src_encode src_token_to_id max_tokens infer tgt_decode lower sentence log
  = (inr translated, log') ->
  Forall word (split translated)
  /\ no_repeat (split translated)
  /\ join (lit " ") (split translated) = translated
  /\ groupby_keys (split translated) = split translated.
Proof.
  intros H. apply translate_inr in H as [decoded ->].
  assert (split (join (lit " ") (groupby_keys (split decoded)))
          = groupby_keys (split decoded)) as ->.
  { apply split_join, groupby_keys_Forall, split_words. }
  split; [apply groupby_keys_Forall, split_words|].
  split; [apply groupby_keys_no_repeat|]. split; [reflexivity|].
  apply no_repeat_groupby_keys, groupby_keys_no_repeat.
Qed.

Lemma X16_witness :
  let translated :=
    match fst (translate (fun s => map Z.of_N s) (fun _ => 0) 8 (fun l => l)
                 (fun _ => lit "<s> das das  ist gut</s><pad>") (fun s => s)
                 (lit " hi ") []) with
    | inr t => t
    | inl _ => []
    end in
  Forall word (split translated)
  /\ no_repeat (split translated)
  /\ join (lit " ") (split translated) = translated
  /\ groupby_keys (split translated) = split translated.
Proof.
  apply (X16_translation_is_in_normal_form (fun s => map Z.of_N s) (fun _ => 0) 8%nat
           (fun l => l) (fun _ => lit "<s> das das  ist gut</s><pad>") (fun s => s)
           (lit " hi ") []
           _ (snd (translate (fun s => map Z.of_N s) (fun _ => 0) 8 (fun l => l)
                     (fun _ => lit "<s> das das  ist gut</s><pad>") (fun s => s)
                     (lit " hi ") []))).
  vm_compute. reflexivity.
Defined.

(** The translation of that run. *)
Example translation_demo :
  fst (translate (fun s => map Z.of_N s) (fun _ => 0) 8 (fun l => l)
         (fun _ => lit "<s> das das  ist gut</s><pad>") (fun s => s) (lit " hi ") [])
  = inr (lit "das ist gut").
Proof. vm_compute. reflexivity. Qed.

(** ** Removal of the special tokens *)

Lemma remove_all_without_first p pat s :
  ~ In p s -> remove_all (p :: pat) s = s.
Proof.
  unfold remove_all. induction s as [|c s IH]; intros Hn; [reflexivity|].
  cbn [remove_from startswith].
  destruct (N.eqb_spec p c) as [->|Hne]; [exfalso; apply Hn; now left|].
  cbn [andb]. f_equal. apply IH. intros Hin. apply Hn. now right.
Qed.

(** X17. A decoded sentence without the character [<] goes through the
    removal of [</s>], [<s>] and [<pad>] unchanged. *)
Theorem X17_text_without_angle_bracket_is_kept (sentence : str) :
  ~ In 60%N sentence -> remove_special_tokens sentence = sentence.
Proof.
  intros Hn. unfold remove_special_tokens. cbn [fold_left].
  change (lit "</s>") with (60%N :: lit "/s>").
  change (lit "<s>") with (60%N :: lit "s>").
  change (lit "<pad>") with (60%N :: lit "pad>").
  rewrite (remove_all_without_first 60%N (lit "/s>") sentence Hn).
  rewrite (remove_all_without_first 60%N (lit "s>") sentence Hn).
  apply (remove_all_without_first 60%N (lit "pad>") sentence Hn).
Qed.

Lemma X17_witness : remove_special_tokens (lit "guten tag") = lit "guten tag".
Proof.
  apply (X17_text_without_angle_bracket_is_kept (lit "guten tag")).
  vm_compute. intuition discriminate.
Defined.

(** ** The loop of [run_translator] *)

Section LoopSteps.

Variable src_encode : str -> list Z.
Variable src_token_to_id : str -> Z.
Variable max_tokens : nat.
Variable infer : list Z -> list Z.
Variable tgt_decode : list Z -> str.
Variable lower : str -> str.

(** What [translate] returns and the calls it adds do not depend on the
    calls made before. *)
Lemma translate_log sentence log :
  translate src_encode src_token_to_id max_tokens infer tgt_decode lower sentence log
  = (outcome src_encode src_token_to_id max_tokens infer tgt_decode lower sentence,
     log ++ calls_of src_encode src_token_to_id max_tokens infer tgt_decode lower sentence).
Proof.
  unfold outcome, calls_of.
  destruct (forallb isspace sentence) eqn:Hb.
  { unfold translate, tbind, tassert. rewrite (strip_blank _ Hb). cbn.
    now rewrite app_nil_r. }
  destruct (Nat.le_gt_cases (length (src_encode (strip sentence)) + 2) max_tokens)
    as [Hle|Hgt].
  - destruct (translate_fits src_encode src_token_to_id max_tokens infer tgt_decode
                lower sentence log Hb Hle) as [_ ->].
    destruct (translate_fits src_encode src_token_to_id max_tokens infer tgt_decode
                lower sentence [] Hb Hle) as [_ ->].
    reflexivity.
  - rewrite (translate_too_long src_encode src_token_to_id max_tokens infer tgt_decode
               lower sentence log Hb Hgt).
    rewrite (translate_too_long src_encode src_token_to_id max_tokens infer tgt_decode
               lower sentence [] Hb Hgt).
    reflexivity.
Qed.

Lemma run_translator_app lines : forall rest out log,
  Forall (translatable src_encode src_token_to_id max_tokens infer tgt_decode lower) lines ->
  run_translator src_encode src_token_to_id max_tokens infer tgt_decode lower
    (lines ++ rest) out log
  = run_translator src_encode src_token_to_id max_tokens infer tgt_decode lower rest
      (out ++ flat_map (prints_of src_encode src_token_to_id max_tokens infer tgt_decode
                          lower) lines)
      (log ++ flat_map (calls_of src_encode src_token_to_id max_tokens infer tgt_decode
                          lower) lines).
Proof.
  induction lines as [|line lines IH]; intros rest out log Hl.
  - cbn [app flat_map]. now rewrite !app_nil_r.
  - inversion Hl as [|? ? [Hne [translated Ho]] Hl']; subst.
    cbn [app run_translator flat_map].
    destruct line as [|c line]; [congruence|].
    rewrite translate_log, Ho. rewrite IH by exact Hl'.
    unfold prints_of at 2. rewrite Ho. now rewrite <- !app_assoc.
Qed.

Lemma run_translator_ends lines rest out log :
  Forall (translatable src_encode src_token_to_id max_tokens infer tgt_decode lower) lines ->
  run_translator src_encode src_token_to_id max_tokens infer tgt_decode lower
    (lines ++ [] :: rest) out log
  = (inr tt,
     {| stdin := rest;
        stdout := out ++ flat_map (prints_of src_encode src_token_to_id max_tokens infer
                                     tgt_decode lower) lines;
        calls := log ++ flat_map (calls_of src_encode src_token_to_id max_tokens infer
                                    tgt_decode lower) lines |}).
Proof. intros Hl. rewrite run_translator_app by exact Hl. reflexivity. Qed.

Lemma run_translator_raises lines bad rest out log e :
  Forall (translatable src_encode src_token_to_id max_tokens infer tgt_decode lower) lines ->
  bad <> [] ->
  outcome src_encode src_token_to_id max_tokens infer tgt_decode lower bad = inl e ->
  run_translator src_encode src_token_to_id max_tokens infer tgt_decode lower
    (lines ++ bad :: rest) out log
  = (inl (Raised e),
     {| stdin := rest;
        stdout := out ++ flat_map (prints_of src_encode src_token_to_id max_tokens infer
                                     tgt_decode lower) lines;
        calls := log
                 ++ flat_map (calls_of src_encode src_token_to_id max_tokens infer
                                tgt_decode lower) lines
                 ++ calls_of src_encode src_token_to_id max_tokens infer tgt_decode lower
                      bad |})
  /\ (forallb isspace bad = true -> e = AssertionError EmptyString).
Proof.
  intros Hl Hne Ho. split.
  - rewrite run_translator_app by exact Hl. cbn [run_translator].
    destruct bad as [|c bad]; [congruence|].
    rewrite translate_log, Ho. now rewrite <- app_assoc.
  - intros Hb. unfold outcome, translate, tbind, tassert in Ho.
    rewrite (strip_blank _ Hb) in Ho. cbn in Ho. congruence.
Qed.

Lemma run_translator_eof lines out log :
  Forall (translatable src_encode src_token_to_id max_tokens infer tgt_decode lower) lines ->
  run_translator src_encode src_token_to_id max_tokens infer tgt_decode lower lines out log
  = (inl EOFError,
     {| stdin := [];
        stdout := out ++ flat_map (prints_of src_encode src_token_to_id max_tokens infer
                                     tgt_decode lower) lines;
        calls := log ++ flat_map (calls_of src_encode src_token_to_id max_tokens infer
                                    tgt_decode lower) lines |}).
Proof.
  intros Hl. rewrite <- (app_nil_r lines) at 1.
  rewrite run_translator_app by exact Hl. reflexivity.
Qed.

End LoopSteps.

(** X18. [run_translator] translates the lines it reads, printing the
    translation and the time for each in turn, up to the first empty
    line: there it returns, and what follows on the input is not read. *)
Theorem X18_run_translator_ends_at_the_empty_line
    src_encode src_token_to_id max_tokens infer tgt_decode lower lines rest out log :
  Forall (translatable src_encode src_token_to_id max_tokens infer tgt_decode lower) lines ->
  run_translator src_encode src_token_to_id max_tokens infer tgt_decode lower
    (lines ++ [] :: rest) out log
  = (inr tt,
     {| stdin := rest;
        stdout := out ++ flat_map (prints_of src_encode src_token_to_id max_tokens infer
                                     tgt_decode lower) lines;
        calls := log ++ flat_map (calls_of src_encode src_token_to_id max_tokens infer
                                    tgt_decode lower) lines |}).
Proof. apply run_translator_ends. Qed.

Lemma X18_witness :
  Chat.run ([lit "hi"] ++ [] :: [lit "not read"]) [] []
  = (inr tt,
     {| stdin := [lit "not read"];
        stdout := [] ++ flat_map (prints_of Chat.src_encode Chat.src_token_to_id
                                    Chat.max_tokens Chat.infer Chat.tgt_decode Chat.lower)
                          [lit "hi"];
        calls := [] ++ flat_map (calls_of Chat.src_encode Chat.src_token_to_id
                                   Chat.max_tokens Chat.infer Chat.tgt_decode Chat.lower)
                         [lit "hi"] |}).
Proof.
  apply (X18_run_translator_ends_at_the_empty_line Chat.src_encode Chat.src_token_to_id
           Chat.max_tokens Chat.infer Chat.tgt_decode Chat.lower
           [lit "hi"] [lit "not read"] [] []).
  constructor; [split; [discriminate|eexists; vm_compute; reflexivity]|constructor].
Defined.

(** What that session prints. *)
Example chat_session :
  stdout (snd (Chat.run [lit "hi"; []; lit "not read"] [] []))
  = [Translated (lit "guten tag"); Time].
Proof. vm_compute. reflexivity. Qed.

(** X19. A line on which [translate] raises ends [run_translator] with
    that exception, after the lines before it have been translated and
    printed; the lines after it are not read.  A line that is not empty
    but white space only is such a line: it does not end the loop as the
    empty line does, it raises the [AssertionError] of [translate]. *)
Theorem X19_run_translator_raises_on_a_bad_line
    src_encode src_token_to_id max_tokens infer tgt_decode lower
    lines bad rest out log e :
  Forall (translatable src_encode src_token_to_id max_tokens infer tgt_decode lower) lines ->
  bad <> [] ->
  outcome src_encode src_token_to_id max_tokens infer tgt_decode lower bad = inl e ->
  run_translator src_encode src_token_to_id max_tokens infer tgt_decode lower
    (lines ++ bad :: rest) out log
  = (inl (Raised e),
     {| stdin := rest;
        stdout := out ++ flat_map (prints_of src_encode src_token_to_id max_tokens infer
                                     tgt_decode lower) lines;
        calls := log
                 ++ flat_map (calls_of src_encode src_token_to_id max_tokens infer
                                tgt_decode lower) lines
                 ++ calls_of src_encode src_token_to_id max_tokens infer tgt_decode lower
                      bad |})
  /\ (forallb isspace bad = true -> e = AssertionError EmptyString).
Proof. apply run_translator_raises. Qed.

Lemma X19_witness :
  Chat.run ([lit "hi"] ++ lit " " :: [lit "not read"]) [] []
  = (inl (Raised (AssertionError EmptyString)),
     {| stdin := [lit "not read"];
        stdout := [] ++ flat_map (prints_of Chat.src_encode Chat.src_token_to_id
                                    Chat.max_tokens Chat.infer Chat.tgt_decode Chat.lower)
                          [lit "hi"];
        calls := []
                 ++ flat_map (calls_of Chat.src_encode Chat.src_token_to_id
                                Chat.max_tokens Chat.infer Chat.tgt_decode Chat.lower)
                      [lit "hi"]
                 ++ calls_of Chat.src_encode Chat.src_token_to_id Chat.max_tokens
                      Chat.infer Chat.tgt_decode Chat.lower (lit " ") |})
  /\ (forallb isspace (lit " ") = true ->
      AssertionError EmptyString = AssertionError EmptyString).
Proof.
  apply (X19_run_translator_raises_on_a_bad_line Chat.src_encode Chat.src_token_to_id
           Chat.max_tokens Chat.infer Chat.tgt_decode Chat.lower
           [lit "hi"] (lit " ") [lit "not read"] [] [] (AssertionError EmptyString)).
  - constructor; [split; [discriminate|eexists; vm_compute; reflexivity]|constructor].
  - discriminate.
  - reflexivity.
Defined.

(** X20. When the input ends before an empty line has been read,
    [run_translator] translates and prints every line and then ends with
    the [EOFError] of [input()]. *)
Theorem X20_run_translator_at_the_end_of_input
    src_encode src_token_to_id max_tokens infer tgt_decode lower lines out log :
  Forall (translatable src_encode src_token_to_id max_tokens infer tgt_decode lower) lines ->
  run_translator src_encode src_token_to_id max_tokens infer tgt_decode lower lines out log
  = (inl EOFError,
     {| stdin := [];
        stdout := out ++ flat_map (prints_of src_encode src_token_to_id max_tokens infer
                                     tgt_decode lower) lines;
        calls := log ++ flat_map (calls_of src_encode src_token_to_id max_tokens infer
                                    tgt_decode lower) lines |}).
Proof. apply run_translator_eof. Qed.

Lemma X20_witness :
  Chat.run [lit "hi"; lit "hi"] [] []
  = (inl EOFError,
     {| stdin := [];
        stdout := [] ++ flat_map (prints_of Chat.src_encode Chat.src_token_to_id
                                    Chat.max_tokens Chat.infer Chat.tgt_decode Chat.lower)
                          [lit "hi"; lit "hi"];
        calls := [] ++ flat_map (calls_of Chat.src_encode Chat.src_token_to_id
                                   Chat.max_tokens Chat.infer Chat.tgt_decode Chat.lower)
                         [lit "hi"; lit "hi"] |}).
Proof.
  apply (X20_run_translator_at_the_end_of_input Chat.src_encode Chat.src_token_to_id
           Chat.max_tokens Chat.infer Chat.tgt_decode Chat.lower
           [lit "hi"; lit "hi"] [] []).
  constructor; [split; [discriminate|eexists; vm_compute; reflexivity]|].
  constructor; [split; [discriminate|eexists; vm_compute; reflexivity]|constructor].
Defined.

(** * The cells that pick a slice and a class *)

Import Pick.

(** ** The slice with the most labelled voxels *)

Lemma argmax_from_spec l : forall best_index best i,
  (argmax_from best_index best i l = best_index
   /\ forall j y, l !! j = Some y -> (y <= best)%nat)
  \/ exists j x,
       argmax_from best_index best i l = (i + j)%nat
       /\ l !! j = Some x /\ (best < x)%nat
       /\ (forall j' y, l !! j' = Some y -> (y <= x)%nat)
       /\ (forall j' y, (j' < j)%nat -> l !! j' = Some y -> (y < x)%nat).
Proof.
  induction l as [|x l IH]; intros best_index best i; cbn [argmax_from].
  - left. split; [reflexivity|]. intros j y H. discriminate.
  - destruct (Nat.ltb_spec best x) as [Hlt|Hge].
    + right. destruct (IH i x (S i)) as [[Hk Hall]|(j & m & Hk & Hj & Hm & Hall & Hbefore)].
      * exists 0%nat, x. rewrite Hk, Nat.add_0_r. repeat split; auto.
        -- intros [|j'] y Hy; [injection Hy as <-; lia|]. eapply Hall, Hy.
        -- intros j' y Hj'. lia.
      * exists (S j), m. rewrite Hk. repeat split; auto; try lia.
        -- intros [|j'] y Hy; [injection Hy as <-; lia|]. eapply Hall, Hy.
        -- intros [|j'] y Hj' Hy; [injection Hy as <-; lia|].
           eapply Hbefore; [|exact Hy]. lia.
    + destruct (IH best_index best (S i))
        as [[Hk Hall]|(j & m & Hk & Hj & Hm & Hall & Hbefore)].
      * left. split; [exact Hk|].
        intros [|j'] y Hy; [injection Hy as <-; lia|]. eapply Hall, Hy.
      * right. exists (S j), m. rewrite Hk. repeat split; auto; try lia.
        -- intros [|j'] y Hy; [injection Hy as <-; lia|]. eapply Hall, Hy.
        -- intros [|j'] y Hj' Hy; [injection Hy as <-; lia|].
           eapply Hbefore; [|exact Hy]. lia.
Qed.

Lemma argmax_spec l k :
  argmax l = inr k ->
  exists m, l !! k = Some m
    /\ forall j y, l !! j = Some y -> (y <= m)%nat /\ ((j < k)%nat -> (y < m)%nat).
Proof.
  destruct l as [|x l]; [discriminate|]. cbn [argmax]. intros [= <-].
  destruct (argmax_from_spec l 0 x 1) as [[Hk Hall]|(j & m & Hk & Hj & Hm & Hall & Hbefore)].
  - rewrite Hk. exists x. split; [reflexivity|].
    intros [|j] y Hy; [injection Hy as <-; lia|]. split; [eapply Hall, Hy|lia].
  - rewrite Hk. exists m. split; [exact Hj|].
    intros [|j'] y Hy; [injection Hy as <-; lia|]. split; [eapply Hall, Hy|].
    intros Hlt. eapply Hbefore; [|exact Hy]. lia.
Qed.

Lemma most_labelled_slice_spec mask_data z :
  most_labelled_slice mask_data = inr z ->
  (z < depth mask_data)%nat
  /\ forall i, (i < depth mask_data)%nat ->
     (count_nonzero (slice mask_data i) <= count_nonzero (slice mask_data z))%nat
     /\ ((i < z)%nat ->
         (count_nonzero (slice mask_data i) < count_nonzero (slice mask_data z))%nat).
Proof.
  unfold most_labelled_slice. intros H.
  apply argmax_spec in H as (m & Hz & Hall).
  assert (forall i, (i < depth mask_data)%nat ->
            map count_nonzero (iter mask_data) !! i
            = Some (count_nonzero (slice mask_data i))) as Hl.
  { intros i Hi. rewrite lookup_map, iter_lookup by exact Hi. reflexivity. }
  assert ((z < depth mask_data)%nat) as Hzd.
  { apply lookup_lt_Some in Hz. now rewrite length_map, iter_length in Hz. }
  split; [exact Hzd|]. intros i Hi.
  rewrite (Hl z Hzd) in Hz. injection Hz as <-.
  exact (Hall i _ (Hl i Hi)).
Qed.

(** X21. The slice picked for display is one with the most non-zero
    voxels of the mask: [z] is a slice index, no slice has more non-zero
    voxels than slice [z], and every slice before [z] has fewer. *)
Theorem X21_z_is_the_first_slice_with_the_most_labels mask_data z :
  most_labelled_slice mask_data = inr z ->
  (z < depth mask_data)%nat
  /\ forall i, (i < depth mask_data)%nat ->
     (count_nonzero (slice mask_data i) <= count_nonzero (slice mask_data z))%nat
     /\ ((i < z)%nat ->
         (count_nonzero (slice mask_data i) < count_nonzero (slice mask_data z))%nat).
Proof. apply most_labelled_slice_spec. Qed.

Lemma X21_witness :
  (0 < depth Demo.mask)%nat
  /\ forall i, (i < depth Demo.mask)%nat ->
     (count_nonzero (slice Demo.mask i) <= count_nonzero (slice Demo.mask 0))%nat
     /\ ((i < 0)%nat ->
         (count_nonzero (slice Demo.mask i) < count_nonzero (slice Demo.mask 0))%nat).
Proof.
  apply (X21_z_is_the_first_slice_with_the_most_labels Demo.mask 0).
  reflexivity.
Defined.

(** The pick succeeds exactly when the mask volume has a slice: a volume
    of depth 0 makes [np.argmax] raise its [ValueError]. *)
Lemma most_labelled_slice_fails_only_without_slices mask_data :
  (depth mask_data = 0%nat ->
   most_labelled_slice mask_data
   = inl (ValueError "attempt to get argmax of an empty sequence"))
  /\ ((0 < depth mask_data)%nat -> exists z, most_labelled_slice mask_data = inr z).
Proof.
  unfold most_labelled_slice, iter. split.
  - intros ->. reflexivity.
  - intros H. destruct (depth mask_data) as [|d]; [lia|]. cbn [seq map argmax]. eauto.
Qed.

(** ** The class of the best score *)

Lemma not_leb_ltb a b :
  F64.is_nan a = false -> F64.is_nan b = false ->
  F64.leb a b = false -> F64.ltb b a = true.
Proof.
  unfold F64.leb, F64.ltb, SFleb, SFltb.
  float_cases a; float_cases b; order_solve.
Qed.

Lemma ltb_leb a b : F64.ltb a b = true -> F64.leb a b = true.
Proof.
  unfold F64.leb, F64.ltb, SFleb, SFltb.
  float_cases a; float_cases b; order_solve.
Qed.

Lemma leb_ltb_trans a b c :
  F64.leb a b = true -> F64.ltb b c = true -> F64.ltb a c = true.
Proof.
  unfold F64.leb, F64.ltb, SFleb, SFltb.
  float_cases a; float_cases b; float_cases c; order_solve.
Qed.

Lemma argmax_scores_from_spec l : forall best_index best i,
  F64.is_nan best = false -> no_nan l ->
  (argmax_scores_from best_index best i l = best_index
   /\ forall j y, l !! j = Some y -> F64.leb y best = true)
  \/ exists j x,
       argmax_scores_from best_index best i l = (i + j)%nat
       /\ l !! j = Some x /\ F64.ltb best x = true
       /\ (forall j' y, l !! j' = Some y -> F64.leb y x = true)
       /\ (forall j' y, (j' < j)%nat -> l !! j' = Some y -> F64.ltb y x = true).
Proof.
  induction l as [|x l IH]; intros best_index best i Hb Hl; cbn [argmax_scores_from].
  - left. split; [reflexivity|]. intros j y H. discriminate.
  - inversion Hl as [|? ? Hx Hl']; subst. rewrite Hx.
    destruct (F64.leb x best) eqn:E; cbn [negb].
    + destruct (IH best_index best (S i) Hb Hl')
        as [[Hk Hall]|(j & m & Hk & Hj & Hm & Hall & Hbefore)].
      * left. split; [exact Hk|].
        intros [|j'] y Hy; [injection Hy as <-; exact E|]. eapply Hall, Hy.
      * right. exists (S j), m. rewrite Hk.
        split; [lia|]. split; [exact Hj|]. split; [exact Hm|].
        pose proof (leb_ltb_trans _ _ _ E Hm) as Hxm. split.
        -- intros [|j'] y Hy; [injection Hy as <-; now apply ltb_leb|]. eapply Hall, Hy.
        -- intros [|j'] y Hj' Hy; [injection Hy as <-; exact Hxm|].
           eapply Hbefore; [|exact Hy]. lia.
    + pose proof (not_leb_ltb _ _ Hx Hb E) as Hbx.
      right. destruct (IH i x (S i) Hx Hl')
        as [[Hk Hall]|(j & m & Hk & Hj & Hm & Hall & Hbefore)].
      * exists 0%nat, x. rewrite Hk, Nat.add_0_r.
        split; [reflexivity|]. split; [reflexivity|]. split; [exact Hbx|]. split.
        -- intros [|j'] y Hy; [injection Hy as <-; now apply leb_refl|]. eapply Hall, Hy.
        -- intros j' y Hj'. lia.
      * exists (S j), m. rewrite Hk.
        split; [lia|]. split; [exact Hj|].
        split; [eapply ltb_leb_trans; [exact Hbx|now apply ltb_leb]|]. split.
        -- intros [|j'] y Hy; [injection Hy as <-; now apply ltb_leb|]. eapply Hall, Hy.
        -- intros [|j'] y Hj' Hy; [injection Hy as <-; exact Hm|].
           eapply Hbefore; [|exact Hy]. lia.
Qed.

Lemma argmax_scores_spec l k :
  no_nan l -> argmax_scores l = inr k ->
  exists m, l !! k = Some m
    /\ forall j y, l !! j = Some y ->
       F64.leb y m = true /\ ((j < k)%nat -> F64.ltb y m = true).
Proof.
  destruct l as [|x l]; [discriminate|]. intros Hn.
  inversion Hn as [|? ? Hx Hl]; subst. cbn [argmax_scores]. rewrite Hx. intros [= <-].
  destruct (argmax_scores_from_spec l 0 x 1 Hx Hl)
    as [[Hk Hall]|(j & m & Hk & Hj & Hm & Hall & Hbefore)].
  - rewrite Hk. exists x. split; [reflexivity|].
    intros [|j] y Hy; [injection Hy as <-; split; [now apply leb_refl|lia]|].
    split; [eapply Hall, Hy|lia].
  - rewrite Hk. exists m. split; [exact Hj|].
    intros [|j'] y Hy.
    + injection Hy as <-. split; [now apply ltb_leb|auto].
    + split; [eapply Hall, Hy|]. intros Hlt. eapply Hbefore; [|exact Hy]. lia.
Qed.

Lemma argmax_scores_nonempty l : l <> [] -> exists k, argmax_scores l = inr k.
Proof. destruct l; [congruence|]. cbn. eauto. Qed.

(** X22. For scores without NaN and a list of class names with at least
    as many lines as there are scores after the first, the class cell
    returns a name: that of the first greatest score, which is
    ['background'] when this is score 0 and line [k] of the file when it
    is score [k + 1]. *)
Theorem X22_class_of_the_best_score result_infer lines :
  result_infer <> [] -> no_nan result_infer ->
  (length result_infer <= S (length lines))%nat ->
  exists k best c,
    class_name result_infer lines = inr c
    /\ result_infer !! k = Some best
    /\ (forall j y, result_infer !! j = Some y ->
        F64.leb y best = true /\ ((j < k)%nat -> F64.ltb y best = true))
    /\ match k with
       | O => c = "background"%string
       | S k' => lines !! k' = Some c
       end.
Proof.
  intros Hne Hn Hlen.
  destruct (argmax_scores_nonempty _ Hne) as [k Hk].
  destruct (argmax_scores_spec _ _ Hn Hk) as (best & Hb & Hall).
  assert ((k < S (length lines))%nat) as Hkl.
  { apply lookup_lt_Some in Hb. lia. }
  unfold class_name. rewrite Hk.
  destruct k as [|k'].
  - exists 0%nat, best, "background"%string. auto.
  - cbn [app lookup list_lookup].
    destruct (lines !! k') as [c|] eqn:E.
    + exists (S k'), best, c. auto.
    + apply lookup_ge_None in E. lia.
Qed.

Lemma X22_witness :
  exists k best c,
    class_name [F64.of_Z 1; F64.of_Z 5; F64.of_Z 5] ["tench"; "goldfish"]%string = inr c
    /\ [F64.of_Z 1; F64.of_Z 5; F64.of_Z 5] !! k = Some best
    /\ (forall j y, [F64.of_Z 1; F64.of_Z 5; F64.of_Z 5] !! j = Some y ->
        F64.leb y best = true /\ ((j < k)%nat -> F64.ltb y best = true))
    /\ match k with
       | O => c = "background"%string
       | S k' => ["tench"; "goldfish"]%string !! k' = Some c
       end.
Proof.
  apply (X22_class_of_the_best_score [F64.of_Z 1; F64.of_Z 5; F64.of_Z 5]
           ["tench"; "goldfish"]%string).
  - discriminate.
  - repeat constructor.
  - vm_compute. lia.
Defined.

(** The class of those scores. *)
Example class_demo :
  class_name [F64.of_Z 1; F64.of_Z 5; F64.of_Z 5] ["tench"; "goldfish"]%string
  = inr "tench"%string.
Proof. vm_compute. reflexivity. Qed.

(** When the first greatest score has an index beyond the number of
    lines of the class file, the lookup raises [IndexError]: with
    ['background'] in front, index [k] needs [k] lines. *)
Lemma class_name_out_of_range result_infer lines k :
  argmax_scores result_infer = inr k -> (length lines < k)%nat ->
  class_name result_infer lines = inl (IndexError "list index out of range").
Proof.
  intros Hk Hlen. unfold class_name. rewrite Hk.
  destruct k as [|k']; [lia|]. cbn [app lookup list_lookup].
  destruct (lines !! k') as [c|] eqn:E; [|reflexivity].
  apply lookup_lt_Some in E. lia.
Qed.

Example class_name_out_of_range_demo :
  class_name [F64.of_Z 1; F64.of_Z 5; F64.of_Z 9] ["tench"]%string
  = inl (IndexError "list index out of range").
Proof. vm_compute. reflexivity. Qed.

(** * The conversion of every case *)

Import Driver.

(** ** The cases and their order *)

Lemma path_compare_antisym p : forall q,
  path_compare p q = CompOpp (path_compare q p).
Proof.
  induction p as [|a p IH]; intros [|b q]; cbn [path_compare]; try reflexivity.
  rewrite String.compare_antisym.
  destruct (String.compare b a); cbn [CompOpp]; auto.
Qed.

#[global] Instance path_le_total : Total path_le.
Proof.
  intros p q. unfold path_le, path_leb. rewrite (path_compare_antisym p q).
  destruct (path_compare q p); cbn; auto.
Qed.

Lemma joinpath_parent_name d : d <> [] -> parent d // name d = d.
Proof.
  intros Hd. unfold parent, name, joinpath. symmetry.
  now apply app_removelast_last.
Qed.

Lemma name_joinpath p c : name (p // c) = c.
Proof. unfold name, joinpath. apply last_last. Qed.

Lemma case_directories_spec nifti_path w d :
  In d (case_directories nifti_path w)
  <-> is_dir nifti_path w = true
      /\ is_dir d w = true /\ d <> [] /\ parent d = nifti_path
      /\ String.prefix "case_" (name d) = true.
Proof.
  unfold case_directories. destruct (is_dir nifti_path w) eqn:Hroot.
  2: { split; [intros []|intros [? _]; discriminate]. }
  enough (In d (List.filter
                  (fun d => negb (path_eqb d []) && path_eqb (parent d) nifti_path
                            && String.prefix "case_" (name d))
                  (nodup path_eq_dec (directories w)))
          <-> is_dir d w = true /\ d <> [] /\ parent d = nifti_path
              /\ String.prefix "case_" (name d) = true) by tauto.
  rewrite filter_In, nodup_In, !andb_true_iff, negb_true_iff.
  unfold is_dir, path_eqb. rewrite existsb_exists.
  rewrite bool_decide_eq_false, bool_decide_eq_true. split.
  - intros (Hin & (Hne & Hp) & Hpre). repeat split; auto.
    exists d. split; [exact Hin|]. now apply bool_decide_eq_true_2.
  - intros ((x & Hin & Hx) & Hne & Hp & Hpre).
    apply bool_decide_eq_true in Hx. subst x. auto.
Qed.

Lemma case_directories_NoDup nifti_path w : List.NoDup (case_directories nifti_path w).
Proof.
  unfold case_directories. destruct (is_dir nifti_path w); [|constructor].
  apply List.NoDup_filter, NoDup_nodup.
Qed.

Lemma glob_segmentations_spec nifti_path w p :
  In p (glob_segmentations nifti_path w)
  <-> exists d, p = d // "segmentation.nii.gz"
        /\ is_dir nifti_path w = true
        /\ is_dir d w = true /\ d <> [] /\ parent d = nifti_path
        /\ String.prefix "case_" (name d) = true
        /\ is_dir p w || is_file p w = true.
Proof.
  unfold glob_segmentations. rewrite filter_In, in_map_iff. split.
  - intros [(d & <- & Hd) He]. apply case_directories_spec in Hd.
    exists d. tauto.
  - intros (d & -> & Hr & Hd & Hne & Hp & Hpre & He). split; [|exact He].
    exists d. split; [reflexivity|]. apply case_directories_spec. auto.
Qed.

Lemma glob_segmentations_NoDup nifti_path w :
  List.NoDup (glob_segmentations nifti_path w).
Proof.
  apply List.NoDup_filter.
  apply Finite.Injective_map_NoDup_in.
  - intros a b _ _ H. now apply joinpath_inj in H.
  - apply case_directories_NoDup.
Qed.

Lemma mask_paths_cases nifti_path w :
  let mask_paths := sorted (glob_segmentations nifti_path w) in
  Sorted path_le mask_paths
  /\ List.NoDup mask_paths
  /\ List.NoDup (map (fun p => name (parent p)) mask_paths)
  /\ forall p,
       In p mask_paths
       <-> exists d, p = d // "segmentation.nii.gz"
             /\ is_dir nifti_path w = true
             /\ is_dir d w = true /\ d <> [] /\ parent d = nifti_path
             /\ String.prefix "case_" (name d) = true
             /\ is_dir p w || is_file p w = true.
Proof.
  intros mask_paths.
  assert (Permutation mask_paths (glob_segmentations nifti_path w)) as Hp.
  { apply merge_sort_Permutation. }
  split; [apply (Sorted_merge_sort path_le)|].
  split; [eapply Permutation_NoDup; [symmetry; exact Hp|apply glob_segmentations_NoDup]|].
  split.
  - eapply Permutation_NoDup.
    { symmetry. apply Permutation_map. exact Hp. }
    unfold glob_segmentations.
    assert (forall l, List.NoDup l ->
              (forall d, In d l -> d <> [] /\ parent d = nifti_path) ->
              List.NoDup
                (map (fun p => name (parent p))
                   (List.filter (fun p => is_dir p w || is_file p w)
                      (map (fun d => d // "segmentation.nii.gz") l)))) as Hgen.
    { induction l as [|d l IH]; intros Hnd Hl; [constructor|].
      inversion Hnd as [|? ? Hnotin Hnd']; subst. cbn [map List.filter].
      assert (List.NoDup
                (map (fun p => name (parent p))
                   (List.filter (fun p => is_dir p w || is_file p w)
                      (map (fun d => d // "segmentation.nii.gz") l)))) as Hrest.
      { apply IH; [exact Hnd'|]. intros d' Hd'. apply Hl. now right. }
      destruct (is_dir (d // "segmentation.nii.gz") w
                || is_file (d // "segmentation.nii.gz") w); [|exact Hrest].
      cbn [map]. constructor; [|exact Hrest].
      rewrite parent_joinpath. intros Hin.
      apply in_map_iff in Hin as (p & Hn & Hp').
      apply filter_In in Hp' as [Hp' _]. apply in_map_iff in Hp' as (d' & <- & Hd').
      rewrite parent_joinpath in Hn.
      destruct (Hl d (or_introl eq_refl)) as [Hne Hpar].
      destruct (Hl d' (or_intror Hd')) as [Hne' Hpar'].
      apply Hnotin. rewrite <- (joinpath_parent_name d Hne).
      rewrite <- (joinpath_parent_name d' Hne') in Hd'.
      now rewrite Hpar, <- Hn, <- Hpar'. }
    apply Hgen; [apply case_directories_NoDup|].
    intros d Hd. apply case_directories_spec in Hd. tauto.
  - intros p. rewrite <- glob_segmentations_spec. split; apply Permutation_in; [|symmetry]; exact Hp.
Qed.

(** X23. The cases the cell converts are the directories directly under
    the directory [nifti_path] that are named [case_...] and hold
    something called [segmentation.nii.gz]; their mask paths are taken once each, in
    ascending order of path, and no two have the same case name. *)
Theorem X23_cases_are_converted_once_in_ascending_order nifti_path w :
  let mask_paths := sorted (glob_segmentations nifti_path w) in
  Sorted path_le mask_paths
  /\ List.NoDup mask_paths
  /\ List.NoDup (map (fun p => name (parent p)) mask_paths)
  /\ forall p,
       In p mask_paths
       <-> exists d, p = d // "segmentation.nii.gz"
             /\ is_dir nifti_path w = true
             /\ is_dir d w = true /\ d <> [] /\ parent d = nifti_path
             /\ String.prefix "case_" (name d) = true
             /\ is_dir p w || is_file p w = true.
Proof. apply mask_paths_cases. Qed.

(** The cases of the small cohort. *)
Example cohort_mask_paths :
  sorted (glob_segmentations ["data"] Cohort.w) = [Cohort.seg2; Cohort.seg10].
Proof. vm_compute. reflexivity. Qed.

(** ** The loop over the cases *)

Lemma case_writes_same w w1 frames_dir mask_path :
  nifti_files w1 = nifti_files w ->
  case_writes w1 frames_dir mask_path = case_writes w frames_dir mask_path.
Proof. intros N. unfold case_writes. now rewrite !(lookup_nifti_same _ _ _ N). Qed.

Lemma save_case_inv mask_path frames_dir w w' :
  save_kits19_frames mask_path frames_dir soft_tissue true w = (inr tt, w') ->
  nifti_files w' = nifti_files w
  /\ written w' = written w ++ case_writes w frames_dir mask_path.
Proof.
  intros H. pose proof (save_kits19_frames_grows _ _ _ _ _ _ _ H) as (N & _ & _).
  split; [exact N|].
  apply save_kits19_frames_inv in H as (m & im & L1 & L2 & _ & _ & Hw).
  unfold case_writes. now rewrite L1, L2.
Qed.

Lemma convert_cases_inv frames_dir mask_paths : forall w w',
  convert_cases mask_paths frames_dir w = (inr tt, w') ->
  nifti_files w' = nifti_files w
  /\ written w' = written w ++ flat_map (case_writes w frames_dir) mask_paths.
Proof.
  unfold convert_cases.
  induction mask_paths as [|mask_path mask_paths IH]; intros w w'; cbn [for_each flat_map].
  - intros [= <-]. now rewrite app_nil_r.
  - unfold bind.
    destruct (save_kits19_frames mask_path frames_dir soft_tissue true w)
      as [[e|[]] w1] eqn:E; [discriminate|].
    intros H. apply save_case_inv in E as [N1 W1]. apply IH in H as [N2 W2].
    split; [congruence|]. rewrite W2, W1, <- app_assoc. do 2 f_equal.
    apply flat_map_ext. intros p. now apply case_writes_same.
Qed.

Lemma for_each_app {A} (body : A -> M unit) l1 l2 w :
  for_each body (l1 ++ l2) w
  = match for_each body l1 w with
    | (inl e, w1) => (inl e, w1)
    | (inr _, w1) => for_each body l2 w1
    end.
Proof.
  revert w. induction l1 as [|x l1 IH]; intros w; cbn [app for_each]; [reflexivity|].
  unfold bind. destruct (body x w) as [[e|[]] w1]; [reflexivity|]. apply IH.
Qed.

(** X24. When the loop over the cases returns, what it has written is,
    case after case in the order of [mask_paths], the frames of each
    case computed from the volumes as they were at the start, with the
    soft-tissue window and binary masks; the NIfTI files are unchanged. *)
Theorem X24_conversion_writes_the_frames_of_each_case_in_turn
    mask_paths frames_dir w w' :
  convert_cases mask_paths frames_dir w = (inr tt, w') ->
  nifti_files w' = nifti_files w
  /\ new_writes w w' = flat_map (case_writes w frames_dir) mask_paths
  /\ Forall (fun mask_path =>
               exists mask_data image_data,
                 lookup_nifti mask_path w = Some mask_data
                 /\ lookup_nifti (parent mask_path // "imaging.nii.gz") w = Some image_data
                 /\ shape mask_data = shape image_data) mask_paths.
Proof.
  intros H. destruct (convert_cases_inv _ _ _ _ H) as [N W].
  split; [exact N|]. split.
  - unfold new_writes. rewrite W. apply drop_app_length.
  - clear W N. revert w w' H. unfold convert_cases.
    induction mask_paths as [|mask_path mask_paths IH]; intros w w' H; [constructor|].
    cbn [for_each] in H. unfold bind in H.
    destruct (save_kits19_frames mask_path frames_dir soft_tissue true w)
      as [[e|[]] w1] eqn:E; [discriminate|].
    pose proof (save_kits19_frames_grows _ _ _ _ _ _ _ E) as (N & _ & _).
    constructor.
    + apply save_kits19_frames_inv in E as (m & im & L1 & L2 & Hs & _ & _). eauto.
    + apply IH in H. eapply List.Forall_impl; [|exact H].
      intros p (m & im & L1 & L2 & Hs). exists m, im.
      rewrite <- (lookup_nifti_same _ _ _ N). rewrite <- (lookup_nifti_same _ _ _ N).
      auto.
Qed.

Lemma X24_witness :
  let w' := snd (convert_cases [Cohort.seg2; Cohort.seg10] ["kits19_frames"] Cohort.w) in
  nifti_files w' = nifti_files Cohort.w
  /\ new_writes Cohort.w w'
     = flat_map (case_writes Cohort.w ["kits19_frames"]) [Cohort.seg2; Cohort.seg10]
  /\ Forall (fun mask_path =>
               exists mask_data image_data,
                 lookup_nifti mask_path Cohort.w = Some mask_data
                 /\ lookup_nifti (parent mask_path // "imaging.nii.gz") Cohort.w
                    = Some image_data
                 /\ shape mask_data = shape image_data) [Cohort.seg2; Cohort.seg10].
Proof.
  apply (X24_conversion_writes_the_frames_of_each_case_in_turn
           [Cohort.seg2; Cohort.seg10] ["kits19_frames"] Cohort.w).
  vm_compute. reflexivity.
Defined.

(** X25. The first case whose volumes differ in shape ends the
    conversion with an exception: the frames of the cases before it are
    all written, and nothing is written for it or for any case after
    it. *)
Theorem X25_a_mismatched_case_stops_the_conversion
    before mask_path after frames_dir w w1 mask_data image_data :
  convert_cases before frames_dir w = (inr tt, w1) ->
  lookup_nifti mask_path w = Some mask_data ->
  lookup_nifti (parent mask_path // "imaging.nii.gz") w = Some image_data ->
  shape mask_data <> shape image_data ->
  exists e w',
    convert_cases (before ++ mask_path :: after) frames_dir w = (inl e, w')
    /\ new_writes w w' = flat_map (case_writes w frames_dir) before.
Proof.
  intros H L1 L2 Hs.
  destruct (convert_cases_inv _ _ _ _ H) as [N W].
  rewrite <- (lookup_nifti_same _ _ _ N) in L1.
  rewrite <- (lookup_nifti_same _ _ _ N) in L2.
  destruct (save_kits19_frames_shape_mismatch mask_path frames_dir soft_tissue true
              w1 mask_data image_data L1 L2 Hs) as (e & w' & E & Hw & _).
  exists e, w'. split.
  - unfold convert_cases in *. rewrite for_each_app, H. cbn [for_each]. unfold bind.
    now rewrite E.
  - unfold new_writes. rewrite Hw, W. apply drop_app_length.
Qed.

Lemma X25_witness :
  exists e w',
    convert_cases ([Cohort.seg2] ++ Cohort.seg10 :: []) ["kits19_frames"] Cohort.w_bad
    = (inl e, w')
    /\ new_writes Cohort.w_bad w'
       = flat_map (case_writes Cohort.w_bad ["kits19_frames"]) [Cohort.seg2].
Proof.
  apply (X25_a_mismatched_case_stops_the_conversion
           [Cohort.seg2] Cohort.seg10 [] ["kits19_frames"] Cohort.w_bad
           (snd (convert_cases [Cohort.seg2] ["kits19_frames"] Cohort.w_bad))
           Cohort.small_mask Demo.image).
  - vm_compute. reflexivity.
  - reflexivity.
  - reflexivity.
  - vm_compute. discriminate.
Defined.

(** ** Cases do not overwrite each other *)

Lemma case_writes_case w frames_dir mask_path p :
  In p (map fst (case_writes w frames_dir mask_path)) ->
  name (parent (parent p)) = name (parent mask_path).
Proof.
  unfold case_writes.
  destruct (lookup_nifti mask_path w); [|intros []].
  destruct (lookup_nifti _ w); [|intros []].
  intros H. apply frame_writes_paths in H as (k & _ & [-> | ->]).
  - unfold new_image_path, image_directory. now rewrite !parent_joinpath, name_joinpath.
  - unfold new_mask_path, mask_directory. now rewrite !parent_joinpath, name_joinpath.
Qed.

Lemma case_writes_NoDup w frames_dir mask_path :
  List.NoDup (map fst (case_writes w frames_dir mask_path)).
Proof.
  unfold case_writes.
  destruct (lookup_nifti mask_path w); [|constructor].
  destruct (lookup_nifti _ w); [|constructor]. apply frame_writes_NoDup.
Qed.

Lemma flat_map_case_writes_NoDup w frames_dir mask_paths :
  List.NoDup (map (fun p => name (parent p)) mask_paths) ->
  List.NoDup (map fst (flat_map (case_writes w frames_dir) mask_paths)).
Proof.
  induction mask_paths as [|mask_path mask_paths IH]; intros Hn; [constructor|].
  inversion Hn as [|? ? Hnotin Hn']; subst. cbn [flat_map]. rewrite map_app.
  apply List.NoDup_app; [apply case_writes_NoDup|now apply IH|].
  intros p Hp Hq. apply case_writes_case in Hp. apply Hnotin.
  rewrite flat_map_concat_map, concat_map, map_map in Hq.
  apply in_concat in Hq as (l & Hl & Hpl).
  apply in_map_iff in Hl as (q & <- & Hq).
  apply case_writes_case in Hpl. apply in_map_iff. exists q. split; [congruence|exact Hq].
Qed.

(** X26. In a conversion of cases with different case names, no path is
    written twice: the frames of one case never replace those of
    another, nor each other. *)
Theorem X26_cases_do_not_overwrite_each_other mask_paths frames_dir w w' :
  convert_cases mask_paths frames_dir w = (inr tt, w') ->
  List.NoDup (map (fun p => name (parent p)) mask_paths) ->
  List.NoDup (map fst (new_writes w w')).
Proof.
  intros H Hn. apply convert_cases_inv in H as [_ W].
  unfold new_writes. rewrite W, drop_app_length.
  now apply flat_map_case_writes_NoDup.
Qed.

Lemma X26_witness :
  List.NoDup
    (map fst
       (new_writes Cohort.w
          (snd (convert_cases [Cohort.seg2; Cohort.seg10] ["kits19_frames"] Cohort.w)))).
Proof.
  apply (X26_cases_do_not_overwrite_each_other
           [Cohort.seg2; Cohort.seg10] ["kits19_frames"] Cohort.w).
  - vm_compute. reflexivity.
  - vm_compute. repeat constructor; cbn; intuition discriminate.
Defined.

(** X27. So when the whole cell returns, every case directory under
    [nifti_path] has its frames written, in ascending order of the
    cases, and each path written holds the frame of one slice of one
    case. *)
Theorem X27_the_cell_converts_every_case nifti_path frames_dir w w' :
  convert_all nifti_path frames_dir w = (inr tt, w') ->
  new_writes w w'
  = flat_map (case_writes w frames_dir) (sorted (glob_segmentations nifti_path w))
  /\ List.NoDup (map fst (new_writes w w'))
  /\ nifti_files w' = nifti_files w.
Proof.
  unfold convert_all. intros H.
  destruct (mask_paths_cases nifti_path w) as (_ & _ & Hn & _).
  pose proof (convert_cases_inv _ _ _ _ H) as [N W].
  assert (new_writes w w'
          = flat_map (case_writes w frames_dir)
              (sorted (glob_segmentations nifti_path w))) as Hnew.
  { unfold new_writes. rewrite W. apply drop_app_length. }
  split; [exact Hnew|]. split; [|exact N].
  rewrite Hnew. now apply flat_map_case_writes_NoDup.
Qed.

Lemma X27_witness :
  let w' := snd (convert_all ["data"] ["kits19_frames"] Cohort.w) in
  new_writes Cohort.w w'
  = flat_map (case_writes Cohort.w ["kits19_frames"])
      (sorted (glob_segmentations ["data"] Cohort.w))
  /\ List.NoDup (map fst (new_writes Cohort.w w'))
  /\ nifti_files w' = nifti_files Cohort.w.
Proof.
  apply (X27_the_cell_converts_every_case ["data"] ["kits19_frames"] Cohort.w).
  vm_compute. reflexivity.
Defined.
